(** * DICOMProcessor: feature extraction over a subject / scan-type tree

    A shallow embedding of [brain_tumor_segmentation/dataset.py].

    Conventions of the embedding.
    - A path is the list of its components; [os.path.join] appends a
      component, [os.path.basename] is the last one.
    - The file system is a tree whose directory listings are kept in the
      order in which [os.listdir] / [os.walk] report them.
    - What pydicom makes of a file (header outcome, pixel outcome) is the
      content of the file node.
    - Python exceptions of class [Exception] are values of [exn];
      computations live in a writer-over-result monad that carries the
      loguru records.
    - The min-max rescaling of OpenCV is computed as OpenCV does for a
      [float32] array: every single- and double-precision operation is
      the exact rational operation followed by rounding to nearest, ties
      to even, at 24 resp. 53 bits.  The exponent range is not bounded,
      and the scaled conversion rounds the product and the sum as its
      scalar loop is written; [rescale_properties_fused] shows that a
      kernel with a fused multiply-add gives the same guarantees.  The
      scalar statistics and the texture features are idealised in [R]. *)

From Stdlib Require Import List String Ascii Bool Arith ZArith QArith Qminmax Qround.
From Stdlib Require Import Qabs Qpower Reals Lia Lra Permutation.
From Stdlib Require Lqa.
Import ListNotations.

Open Scope string_scope.
Open Scope list_scope.

(** ** Python values and dictionaries *)

#[warnings="-register-all"]
Inductive pyval : Type :=
| PyNone
| PyNaN
| PyStr (s : string)
| PyInt (n : Z)
| PyFloat (x : R)
| PySeq (l : list pyval).

(** A [dict] keeps insertion order, as Python's does. *)
Definition dict := list (string * pyval).

Fixpoint dict_get (k : string) (d : dict) : option pyval :=
  match d with
  | [] => None
  | (k', v) :: d' => if String.eqb k k' then Some v else dict_get k d'
  end.

(** [d[k] = v]: overwrite in place, or append. *)
Fixpoint dict_set (k : string) (v : pyval) (d : dict) : dict :=
  match d with
  | [] => [(k, v)]
  | (k', v') :: d' =>
      if String.eqb k k' then (k', v) :: d' else (k', v') :: dict_set k v d'
  end.

Definition dict_keys (d : dict) : list string := map fst d.

(** [{**d, **d'}] *)
Definition dict_update (d d' : dict) : dict :=
  fold_left (fun acc kv => dict_set (fst kv) (snd kv) acc) d' d.

(** [{key: f(key) for key in keys}] *)
Definition dict_comprehension (f : string -> pyval) (keys : list string) : dict :=
  fold_left (fun acc k => dict_set k (f k) acc) keys [].

(** ** Exceptions, logging, and the computation monad *)

Record exn : Type := mkExn { exn_class : string; exn_msg : string }.

Inductive result (A : Type) : Type :=
| Ok (a : A)
| Raise (e : exn).
Arguments Ok {A} a.
Arguments Raise {A} e.

Record log_record : Type := mkLog { log_level : string; log_message : string }.

Definition M (A : Type) : Type := (result A * list log_record)%type.

Definition ret {A} (a : A) : M A := (Ok a, []).
Definition raise {A} (e : exn) : M A := (Raise e, []).
Definition lift {A} (r : result A) : M A := (r, []).

Definition bind {A B} (m : M A) (k : A -> M B) : M B :=
  match m with
  | (Ok a, l) => let '(r, l') := k a in (r, l ++ l')
  | (Raise e, l) => (Raise e, l)
  end.

Notation "x <- m ;; k" := (bind m (fun x => k))
  (at level 61, m at next level, right associativity).

(** [try: body  except Exception as e: handler(e)] *)
Definition try_except {A} (body : M A) (handler : exn -> M A) : M A :=
  match body with
  | (Ok a, l) => (Ok a, l)
  | (Raise e, l) => let '(r, l') := handler e in (r, l ++ l')
  end.

Definition logger_error (msg : string) : M unit := (Ok tt, [mkLog "ERROR" msg]).

(** [for x in xs: acc = body(acc, x)] *)
Fixpoint for_each {A S} (xs : list A) (body : S -> A -> M S) (s : S) : M S :=
  match xs with
  | [] => ret s
  | x :: xs' => s' <- body s x ;; for_each xs' body s'
  end.

Fixpoint mapM {A B} (f : A -> M B) (xs : list A) : M (list B) :=
  match xs with
  | [] => ret []
  | x :: xs' => y <- f x ;; ys <- mapM f xs' ;; ret (y :: ys)
  end.

Definition returns {A} (m : M A) : Prop := exists a, fst m = Ok a.

(** ** Paths *)

Definition path := list string.

Definition os_path_join (p : path) (name : string) : path := p ++ [name].
Definition os_path_basename (p : path) : string := last p "".
Definition path_str (p : path) : string := String.concat "/" p.

(** [s.endswith(suffix)] *)
Definition endswith (s suffix : string) : bool :=
  (String.length suffix <=? String.length s)%nat &&
  String.eqb
    (substring (String.length s - String.length suffix) (String.length suffix) s)
    suffix.

(** ** What pydicom reads from a file *)

(** Header: keyword -> value of the data elements present. *)
Definition dataset := list (string * pyval).

(** A single-frame monochrome pixel array, as rows of stored values. *)
Definition image := list (list Z).

Record dicom_file : Type := mkFile {
  header : result dataset;  (* dcmread(path, stop_before_pixels=True) *)
  pixels : result image     (* dcmread(path).pixel_array *)
}.

(** ** The file system *)

#[warnings="-register-all"]
Inductive node : Type :=
| File (f : dicom_file)
| Dir (entries : list (string * node)).

Fixpoint lookup_name (name : string) (es : list (string * node)) : option node :=
  match es with
  | [] => None
  | (n, c) :: es' => if String.eqb name n then Some c else lookup_name name es'
  end.

Fixpoint lookup (fs : node) (p : path) : option node :=
  match p with
  | [] => Some fs
  | name :: p' =>
      match fs with
      | File _ => None
      | Dir es =>
          match lookup_name name es with
          | Some c => lookup c p'
          | None => None
          end
      end
  end.

Definition is_dir (n : node) : bool :=
  match n with Dir _ => true | File _ => false end.

Definition os_path_exists (fs : node) (p : path) : bool :=
  match lookup fs p with Some _ => true | None => false end.

Definition os_path_isdir (fs : node) (p : path) : bool :=
  match lookup fs p with Some n => is_dir n | None => false end.

Definition os_listdir (fs : node) (p : path) : result (list string) :=
  match lookup fs p with
  | Some (Dir es) => Ok (map fst es)
  | Some (File _) => Raise (mkExn "NotADirectoryError" (path_str p))
  | None => Raise (mkExn "FileNotFoundError" (path_str p))
  end.

Definition dirnames (es : list (string * node)) : list string :=
  map fst (filter (fun e => is_dir (snd e)) es).
Definition filenames (es : list (string * node)) : list string :=
  map fst (filter (fun e => negb (is_dir (snd e))) es).

(** [os.walk], top-down; a top that is not a directory yields nothing. *)
Fixpoint walk_node (top : path) (n : node) : list (path * list string * list string) :=
  match n with
  | File _ => []
  | Dir es =>
      (top, dirnames es, filenames es)
        :: flat_map (fun e => walk_node (top ++ [fst e]) (snd e)) es
  end.

Definition os_walk (fs : node) (top : path) : list (path * list string * list string) :=
  match lookup fs top with
  | Some n => walk_node top n
  | None => []
  end.

Definition open_file (fs : node) (p : path) : result dicom_file :=
  match lookup fs p with
  | Some (File f) => Ok f
  | Some (Dir _) => Raise (mkExn "IsADirectoryError" (path_str p))
  | None => Raise (mkExn "FileNotFoundError" (path_str p))
  end.

(** [pydicom.dcmread(path, stop_before_pixels=True)] *)
Definition dcmread_header (fs : node) (p : path) : result dataset :=
  match open_file fs p with
  | Ok f => header f
  | Raise e => Raise e
  end.

(** A frame has [Rows >= 1] rows of one length [Columns >= 1]. *)
Definition is_frame (img : image) : bool :=
  match img with
  | [] => false
  | r :: rs =>
      (1 <=? List.length r)%nat &&
      forallb (fun r' => (List.length r' =? List.length r)%nat) rs
  end.

(** [pydicom.dcmread(path).pixel_array]; a buffer that does not fill a
    frame makes pydicom raise. *)
Definition dcmread_pixel_array (fs : node) (p : path) : result image :=
  match open_file fs p with
  | Ok f =>
      match pixels f with
      | Ok img =>
          if is_frame img then Ok img
          else Raise (mkExn "ValueError" "pixel data does not match Rows x Columns")
      | Raise e => Raise e
      end
  | Raise e => Raise e
  end.

(** [getattr(ds, key, None)] *)
Definition getattr_default (ds : dataset) (key : string) : pyval :=
  match dict_get key ds with
  | Some v => v
  | None => PyNone
  end.

(** ** Metadata extractor *)

Definition metadata_keys : list string :=
  [ "PatientID"; "StudyDate"; "Modality"; "Manufacturer"; "MagneticFieldStrength";
    "SliceThickness"; "PixelSpacing"; "ImageType"; "BodyPartExamined";
    "ContrastBolusAgent"; "RepetitionTime"; "EchoTime" ].

Definition extract_dicom_metadata (fs : node) (dicom_file : path) : M (option dict) :=
  try_except
    (ds <- lift (dcmread_header fs dicom_file) ;;
     let metadata := dict_comprehension (getattr_default ds) metadata_keys in
     let metadata := dict_set "DCMFileName" (PyStr (os_path_basename dicom_file)) metadata in
     ret (Some metadata))
    (fun e =>
       _ <- logger_error ("Error reading " ++ path_str dicom_file ++ ": " ++ exn_msg e) ;;
       ret None).

(** ** Statistics extractor *)

(** [floor(log2 q)] of a positive rational. *)
Definition ilog2 (q : Q) : Z :=
  let e := (Z.log2 (Qnum q) - Z.log2 (Z.pos (Qden q)))%Z in
  if Qle_bool (2 ^ e)%Q q then e else (e - 1)%Z.

(** Nearest integer, ties to even. *)
Definition round_half_even (q : Q) : Z :=
  let f := Qfloor q in
  match (q - inject_Z f ?= 1 # 2)%Q with
  | Lt => f
  | Gt => (f + 1)%Z
  | Eq => if Z.even f then f else (f + 1)%Z
  end.

(** Rounding to the nearest binary floating-point number with a
    significand of [prec] bits, ties to even. *)
Definition round_float (prec : Z) (q : Q) : Q :=
  let q := Qred q in
  if Qeq_bool q 0 then 0
  else
    let ulp := (2 ^ (ilog2 (Qabs q) - prec + 1))%Q in
    Qred (inject_Z (round_half_even (q / ulp)) * ulp)%Q.

Definition float32 : Q -> Q := round_float 24.
Definition float64 : Q -> Q := round_float 53.

(** [arr.astype(np.float32)] of an integer buffer. *)
Definition astype_float32 (img : image) : list (list Q) :=
  map (map (fun x => float32 (inject_Z x))) img.

Definition q_min (xs : list Q) : Q :=
  match xs with [] => 0%Q | x :: xs' => fold_left Qmin xs' x end.
Definition q_max (xs : list Q) : Q :=
  match xs with [] => 0%Q | x :: xs' => fold_left Qmax xs' x end.

Definition DBL_EPSILON : Q := 1 # (2 ^ 52).

(** [cv2.normalize(src, None, alpha, beta, cv2.NORM_MINMAX)] for a
    [float32] source.  In double precision
    [scale = (dmax - dmin) * (smax - smin > DBL_EPSILON ? 1./(smax - smin) : 0)];
    the result type being [CV_32F],
    [scale = (float)scale; shift = (float)dmin - (float)(smin * scale)]. *)
Definition minmax_scale (smin smax dmin dmax : Q) : Q :=
  let scale :=
    float64 (float64 (dmax - dmin) *
             (if Qle_bool (float64 (smax - smin)) DBL_EPSILON then 0
              else float64 (1 / float64 (smax - smin))))%Q in
  float32 scale.

Definition minmax_shift (smin dmin scale : Q) : Q :=
  float32 (float32 dmin - float32 (float64 (smin * scale)))%Q.

(** [src.convertTo(dst, CV_32F, scale, shift)], one element:
    [dst = src * (float)scale + (float)shift] in single precision. *)
Definition convert_scaled (scale shift x : Q) : Q :=
  float32 (float32 (x * scale) + shift)%Q.

Definition cv2_normalize_minmax (src : list (list Q)) (alpha beta : Q) : list (list Q) :=
  let smin := q_min (List.concat src) in
  let smax := q_max (List.concat src) in
  let dmin := Qmin alpha beta in
  let dmax := Qmax alpha beta in
  let scale := minmax_scale smin smax dmin dmax in
  let shift := minmax_shift smin dmin scale in
  map (map (convert_scaled scale shift)) src.

(** C cast of a float to [uint8]: truncate toward zero, keep the low byte. *)
Definition q_to_uint8 (x : Q) : Z := ((Z.quot (Qnum x) (Z.pos (Qden x))) mod 256)%Z.

Definition astype_uint8_of_float (src : list (list Q)) : image := map (map q_to_uint8) src.

(** Cast of an integer buffer to [uint8]: keep the low byte. *)
Definition astype_uint8 (img : image) : image := map (map (fun x => (x mod 256)%Z)) img.

Definition np_sum (xs : list R) : R := fold_right Rplus 0%R xs.

(** [np.mean(arr)] over all elements. *)
Definition np_mean (img : image) : R :=
  (np_sum (map IZR (List.concat img)) / INR (List.length (List.concat img)))%R.

(** [np.std(arr)]: [sqrt(mean(abs(x - x.mean())**2))], i.e. [ddof = 0]. *)
Definition np_std (img : image) : R :=
  let mu := np_mean img in
  sqrt (np_sum (map (fun x => (IZR x - mu) * (IZR x - mu))%R (List.concat img))
        / INR (List.length (List.concat img)))%R.

Definition np_log2 (x : R) : R := (ln x / ln 2)%R.

Fixpoint bump (k : nat) (hist : list nat) : list nat :=
  match hist, k with
  | [], _ => []
  | c :: hist', O => S c :: hist'
  | c :: hist', S k' => c :: bump k' hist'
  end.

(** [cv2.calcHist([img], [0], None, [bins], [0, bins]).flatten()]:
    one unit-wide bin per value, raw counts, values outside the range dropped. *)
Definition cv2_calcHist (img : image) (bins : nat) : list nat :=
  fold_left
    (fun hist v => if (0 <=? v)%Z && (v <? Z.of_nat bins)%Z then bump (Z.to_nat v) hist else hist)
    (List.concat img) (repeat 0%nat bins).

Definition stats_error (dicom_file : path) (e : exn) : M (option dict) :=
  _ <- logger_error ("Error processing image data from " ++ path_str dicom_file ++ ": " ++ exn_msg e) ;;
  ret None.

Definition rescaled_buffer (pixel_array : image) : image :=
  astype_uint8_of_float (cv2_normalize_minmax (astype_float32 pixel_array) 0 255).

Definition entropy_of_hist (entropy : list R) : R :=
  (- np_sum (map (fun c => c * np_log2 (c + 1e-7)) entropy))%R.

Definition extract_image_statistics (fs : node) (dicom_file : path) : M (option dict) :=
  try_except
    (pixel_array <- lift (dcmread_pixel_array fs dicom_file) ;;
     let pixel_array := rescaled_buffer pixel_array in
     let mean_intensity := np_mean pixel_array in
     let std_intensity := np_std pixel_array in
     let entropy := map INR (cv2_calcHist pixel_array 256) in
     let entropy_value := entropy_of_hist entropy in
     ret (Some [ ("MeanIntensity", PyFloat mean_intensity);
                 ("StdIntensity", PyFloat std_intensity);
                 ("Entropy", PyFloat entropy_value) ]))
    (stats_error dicom_file).

(** ** Texture extractor *)

(** Pixel pairs [(image[r][c], image[r + dr][c + dc])] visited by skimage's
    co-occurrence loop for a non-negative offset. *)
Definition offset_pairs (offset_row offset_col : nat) (img : image) : list (Z * Z) :=
  flat_map (fun rr => combine (fst rr) (skipn offset_col (snd rr)))
           (combine img (skipn offset_row img)).

(** Angle 0: [offset_row = round(sin 0 * d) = 0], [offset_col = round(cos 0 * d) = d]. *)
Definition offset_of_angle_0 (distance : nat) : nat * nat := (0%nat, distance).

Definition counts := Z -> Z -> nat.

(** [if 0 <= i < levels and 0 <= j < levels: out[i, j] += 1] *)
Definition glcm_bump (levels : nat) (P : counts) (ij : Z * Z) : counts :=
  let '(i, j) := ij in
  if ((0 <=? i) && (i <? Z.of_nat levels) && (0 <=? j) && (j <? Z.of_nat levels))%Z
  then fun a b => if ((a =? i) && (b =? j))%Z then S (P a b) else P a b
  else P.

Definition glcm_loop (img : image) (offset : nat * nat) (levels : nat) : counts :=
  fold_left (glcm_bump levels) (offset_pairs (fst offset) (snd offset) img)
            (fun _ _ => 0%nat).

Definition level_range (levels : nat) : list Z := map Z.of_nat (seq 0 levels).

(** [np.sum(P, axis=(0, 1))] *)
Definition sum_levels (levels : nat) (f : Z -> Z -> R) : R :=
  np_sum (map (fun i => np_sum (map (f i) (level_range levels))) (level_range levels)).

(** [glcm_sums = np.sum(P, axis=(0, 1)); glcm_sums[glcm_sums == 0] = 1; P /= glcm_sums] *)
Definition glcm_normalize (levels : nat) (P : Z -> Z -> R) : Z -> Z -> R :=
  let glcm_sums := sum_levels levels P in
  let glcm_sums := if Req_dec_T glcm_sums 0 then 1%R else glcm_sums in
  fun i j => (P i j / glcm_sums)%R.

(** [graycomatrix(image, distances=[d], angles=[0], levels, symmetric, normed)],
    the slice [[:, :, 0, 0]] of its result. *)
Definition graycomatrix (img : image) (distance : nat) (levels : nat)
    (symmetric normed : bool) : result (Z -> Z -> R) :=
  if existsb (fun v => (v <? 0) || (Z.of_nat levels <=? v))%Z (List.concat img)
  then Raise (mkExn "ValueError" "The maximum grayscale value in the image should be smaller than the number of levels.")
  else
    let P := glcm_loop img (offset_of_angle_0 distance) levels in
    let P := if symmetric then (fun i j => (P i j + P j i)%nat) else P in
    let P := fun i j => INR (P i j) in
    Ok (if normed then glcm_normalize levels P else P).

Definition sq (x : R) : R := (x * x)%R.

(** The four properties, of a normalised matrix. *)
Definition prop_contrast (levels : nat) (P : Z -> Z -> R) : R :=
  sum_levels levels (fun i j => P i j * sq (IZR (i - j)))%R.

Definition prop_homogeneity (levels : nat) (P : Z -> Z -> R) : R :=
  sum_levels levels (fun i j => P i j * (1 / (1 + sq (IZR (i - j)))))%R.

Definition prop_energy (levels : nat) (P : Z -> Z -> R) : R :=
  sqrt (sum_levels levels (fun i j => sq (P i j))).

Definition prop_correlation (levels : nat) (P : Z -> Z -> R) : R :=
  let diff_i := fun i => (IZR i - sum_levels levels (fun i j => IZR i * P i j))%R in
  let diff_j := fun j => (IZR j - sum_levels levels (fun i j => IZR j * P i j))%R in
  let std_i := sqrt (sum_levels levels (fun i j => P i j * sq (diff_i i)))%R in
  let std_j := sqrt (sum_levels levels (fun i j => P i j * sq (diff_j j)))%R in
  let cov := sum_levels levels (fun i j => P i j * (diff_i i * diff_j j))%R in
  if Rlt_dec std_i 1e-15 then 1%R
  else if Rlt_dec std_j 1e-15 then 1%R
  else (cov / (std_i * std_j))%R.

(** [graycoprops(P, prop)[0, 0]]: the matrix is normalised again first. *)
Definition graycoprops (levels : nat) (P : Z -> Z -> R) (prop : string) : result R :=
  let P := glcm_normalize levels P in
  if String.eqb prop "contrast" then Ok (prop_contrast levels P)
  else if String.eqb prop "homogeneity" then Ok (prop_homogeneity levels P)
  else if String.eqb prop "energy" then Ok (prop_energy levels P)
  else if String.eqb prop "correlation" then Ok (prop_correlation levels P)
  else Raise (mkExn "ValueError" (prop ++ " is an invalid property")).

Definition glcm_error (dicom_file : path) (e : exn) : M (option dict) :=
  _ <- logger_error ("Error extracting GLCM features from " ++ path_str dicom_file ++ ": " ++ exn_msg e) ;;
  ret None.

Definition extract_glcm_features (fs : node) (dicom_file : path) : M (option dict) :=
  try_except
    (pixel_array <- lift (dcmread_pixel_array fs dicom_file) ;;
     let pixel_array := astype_uint8 pixel_array in
     glcm <- lift (graycomatrix pixel_array 1 256 true true) ;;
     contrast <- lift (graycoprops 256 glcm "contrast") ;;
     correlation <- lift (graycoprops 256 glcm "correlation") ;;
     energy <- lift (graycoprops 256 glcm "energy") ;;
     homogeneity <- lift (graycoprops 256 glcm "homogeneity") ;;
     ret (Some [ ("GLCM_Contrast", PyFloat contrast);
                 ("GLCM_Correlation", PyFloat correlation);
                 ("GLCM_Energy", PyFloat energy);
                 ("GLCM_Homogeneity", PyFloat homogeneity) ]))
    (glcm_error dicom_file).

(** ** Tables *)

Record DataFrame : Type := mkDF { columns : list string; rows : list dict }.

Definition add_columns (cols ks : list string) : list string :=
  fold_left (fun acc k => if existsb (String.eqb k) acc then acc else acc ++ [k]) ks cols.

(** A row laid out on the table's columns; a missing cell is NaN. *)
Definition reindex (cols : list string) (r : dict) : dict :=
  map (fun c => (c, match dict_get c r with Some v => v | None => PyNaN end)) cols.

(** [pd.DataFrame(data)] for a list of dicts. *)
Definition pd_DataFrame (data : list dict) : DataFrame :=
  let cols := fold_left (fun acc r => add_columns acc (dict_keys r)) data [] in
  mkDF cols (map (reindex cols) data).

(** [c in df] *)
Definition df_contains (c : string) (df : DataFrame) : bool :=
  existsb (String.eqb c) (columns df).

(** [df[c] = v] for a scalar [v] *)
Definition df_setitem (c : string) (v : pyval) (df : DataFrame) : DataFrame :=
  mkDF (if df_contains c df then columns df else columns df ++ [c])
       (map (dict_set c v) (rows df)).

(** [df[c].unique()[0]] *)
Definition df_unique_first (c : string) (df : DataFrame) : result pyval :=
  if df_contains c df then
    match rows df with
    | [] => Raise (mkExn "IndexError" "index 0 is out of bounds for axis 0 with size 0")
    | r :: _ => Ok (match dict_get c r with Some v => v | None => PyNaN end)
    end
  else Raise (mkExn "KeyError" c).

(** [pd.concat(dfs)] *)
Definition pd_concat (dfs : list DataFrame) : result DataFrame :=
  match dfs with
  | [] => Raise (mkExn "ValueError" "No objects to concatenate")
  | _ =>
      let cols := fold_left (fun acc df => add_columns acc (columns df)) dfs [] in
      Ok (mkDF cols (map (reindex cols) (flat_map rows dfs)))
  end.

(** ** Directory aggregator *)

(** Truth value of an extractor result: [None] and [{}] are falsy. *)
Definition truthy (o : option dict) : bool :=
  match o with
  | None => false
  | Some [] => false
  | Some (_ :: _) => true
  end.

(** [**o] inside a dict display; unpacking [None] is a [TypeError]. *)
Definition unpack (o : option dict) : M dict :=
  match o with
  | Some d => ret d
  | None => raise (mkExn "TypeError" "'NoneType' object is not a mapping")
  end.

Definition merge_records (metadata image_stats glcm_features : option dict) : M dict :=
  m <- unpack metadata ;;
  s <- unpack image_stats ;;
  g <- unpack glcm_features ;;
  ret (dict_update (dict_update m s) g).

(** Body of the inner loop of [process_dicom_directory]. *)
Definition process_file (fs : node) (root : path) (data : list dict) (file : string)
    : M (list dict) :=
  if endswith file ".dcm" then
    let dicom_path := os_path_join root file in
    metadata <- extract_dicom_metadata fs dicom_path ;;
    image_stats <- extract_image_statistics fs dicom_path ;;
    glcm_features <- extract_glcm_features fs dicom_path ;;
    if truthy metadata && truthy image_stats && truthy glcm_features then
      row <- merge_records metadata image_stats glcm_features ;;
      ret (data ++ [row])
    else ret data
  else ret data.

Definition collect_rows (fs : node) (directory : path) : M (list dict) :=
  for_each (os_walk fs directory)
    (fun data step => for_each (snd step) (process_file fs (fst (fst step))) data)
    [].

Definition process_dicom_directory (fs : node) (directory : path) : M DataFrame :=
  data <- collect_rows fs directory ;;
  ret (pd_DataFrame data).

(** ** Subject aggregator *)

Definition scan_types : list string := ["FLAIR"; "T1w"; "T1wCE"; "T2w"].

Definition process_scan_type (fs : node) (subject_path : path)
    (subject_results : list DataFrame) (scan_type : string) : M (list DataFrame) :=
  let subject_id := os_path_basename subject_path in
  let dicom_dir := os_path_join subject_path scan_type in
  if os_path_exists fs dicom_dir then
    dicom_features <- process_dicom_directory fs dicom_dir ;;
    let dicom_features :=
      if negb (df_contains "PatientID" dicom_features)
      then df_setitem "SubjectID" (PyStr subject_id) dicom_features
      else dicom_features in
    let dicom_features := df_setitem "ScanType" (PyStr scan_type) dicom_features in
    ret (subject_results ++ [dicom_features])
  else ret subject_results.

Definition process_subject (fs : node) (subject_path : path) : M (list DataFrame) :=
  for_each scan_types (process_scan_type fs subject_path) [].

(** ** Parallel driver *)

Record DICOMProcessor : Type := mkProcessor {
  root_directory : path;
  num_workers : Z
}.

(** [multiprocessing.Pool(processes=n)] *)
Definition multiprocessing_Pool (processes : Z) : M unit :=
  if (processes <? 1)%Z
  then raise (mkExn "ValueError" "Number of processes must be at least 1")
  else ret tt.

(** [list(pool.imap(f, xs))]: results come back in submission order; an
    exception raised in a worker is re-raised in the parent. *)
Definition pool_imap {A B} (f : A -> M B) (xs : list A) : M (list B) := mapM f xs.

Definition buckets := list (string * list DataFrame).

(** [d[key].append(df)] *)
Fixpoint bucket_append (key : string) (df : DataFrame) (d : buckets) : result buckets :=
  match d with
  | [] => Raise (mkExn "KeyError" key)
  | (k, dfs) :: d' =>
      if String.eqb key k then Ok ((k, dfs ++ [df]) :: d')
      else match bucket_append key df d' with
           | Ok d'' => Ok ((k, dfs) :: d'')
           | Raise e => Raise e
           end
  end.

Definition regroup_one (d : buckets) (scan_df : DataFrame) : M buckets :=
  scan_type <- lift (df_unique_first "ScanType" scan_df) ;;
  match scan_type with
  | PyStr st => lift (bucket_append st scan_df d)
  | _ => raise (mkExn "KeyError" "ScanType")
  end.

Definition regroup (results : list (list DataFrame)) : M buckets :=
  for_each results
    (fun d subject_results => for_each subject_results regroup_one d)
    (map (fun scan_type => (scan_type, [])) scan_types).

Definition list_subjects (fs : node) (root : path) : M (list path) :=
  names <- lift (os_listdir fs root) ;;
  ret (map (os_path_join root)
         (filter (fun subdir => os_path_isdir fs (os_path_join root subdir)) names)).

Definition process_all_subjects_parallel (self : DICOMProcessor) (fs : node)
    : M (list (string * DataFrame)) :=
  subjects <- list_subjects fs (root_directory self) ;;
  _ <- multiprocessing_Pool (num_workers self) ;;
  results <- pool_imap (process_subject fs) subjects ;;
  scan_types_dict <- regroup results ;;
  mapM (fun kv => df <- lift (pd_concat (snd kv)) ;; ret (fst kv, df)) scan_types_dict.

(** * Definitions used in the statements *)

(** The metadata record, spelled out. *)
Definition metadata_record (ds : dataset) (dicom_file : path) : dict :=
  map (fun k => (k, getattr_default ds k)) metadata_keys
    ++ [("DCMFileName", PyStr (os_path_basename dicom_file))].

Definition stats_record (img : image) : dict :=
  [ ("MeanIntensity", PyFloat (np_mean (rescaled_buffer img)));
    ("StdIntensity", PyFloat (np_std (rescaled_buffer img)));
    ("Entropy", PyFloat (entropy_of_hist (map INR (cv2_calcHist (rescaled_buffer img) 256)))) ].

Definition error_record (what : string) (dicom_file : path) (e : exn) : log_record :=
  mkLog "ERROR" (what ++ path_str dicom_file ++ ": " ++ exn_msg e).

(** The scaled conversion where the kernel fuses the multiply-add
    (one rounding instead of two), as vectorised builds of OpenCV do. *)
Definition convert_scaled_fused (scale shift x : Q) : Q :=
  float32 (x * scale + shift)%Q.

(** The matrix [graycomatrix] builds for the texture extractor's buffer. *)
Definition texture_glcm (img : image) : Z -> Z -> R :=
  let P := glcm_loop (astype_uint8 img) (offset_of_angle_0 1) 256 in
  glcm_normalize 256 (fun i j => INR (P i j + P j i)).

Definition glcm_record (img : image) : dict :=
  let P := glcm_normalize 256 (texture_glcm img) in
  [ ("GLCM_Contrast", PyFloat (prop_contrast 256 P));
    ("GLCM_Correlation", PyFloat (prop_correlation 256 P));
    ("GLCM_Energy", PyFloat (prop_energy 256 P));
    ("GLCM_Homogeneity", PyFloat (prop_homogeneity 256 P)) ].

(** The field list of the data model, in the column names the code uses
    (the two spacing components are the names [clean_dataframe] gives them). *)
Definition data_model_metadata_fields : list string :=
  [ "PatientID"; "StudyDate"; "Modality"; "Manufacturer"; "MagneticFieldStrength";
    "SliceThickness"; "PixelSpacing_X"; "PixelSpacing_Y"; "ImageType";
    "BodyPartExamined"; "ContrastBolusAgent"; "RepetitionTime"; "EchoTime";
    "DCMFileName" ].

Inductive extraction (dicom_file : path) (what : string) (record : option dict)
  : M (option dict) -> Prop :=
| extracted r :
    record = Some r -> extraction dicom_file what record (Ok (Some r), [])
| failed e :
    record = None ->
    extraction dicom_file what record (Ok None, [error_record what dicom_file e]).

Definition header_record (fs : node) (dicom_file : path) : option dict :=
  match dcmread_header fs dicom_file with
  | Ok ds => Some (metadata_record ds dicom_file)
  | Raise _ => None
  end.

Definition pixel_record (record : image -> dict) (fs : node) (dicom_file : path)
    : option dict :=
  match dcmread_pixel_array fs dicom_file with
  | Ok img => Some (record img)
  | Raise _ => None
  end.

Definition is_some {A} (o : option A) : bool :=
  match o with Some _ => true | None => false end.

Definition yields {A} (m : M A) (a : A) : Prop := exists log, m = (Ok a, log).

(** Every file the walk visits, as [os.path.join(root, file)], in walk order. *)
Definition walked_files (fs : node) (directory : path) : list path :=
  flat_map (fun step => map (os_path_join (fst (fst step))) (snd step))
           (os_walk fs directory).

Definition qualifies (p : path) : bool := endswith (os_path_basename p) ".dcm".

(** What an extractor hands back for a file ([None] when it raised). *)
Definition outcome (m : M (option dict)) : option dict :=
  match fst m with Ok o => o | Raise _ => None end.

Definition all_succeed (fs : node) (p : path) : bool :=
  is_some (outcome (extract_dicom_metadata fs p)) &&
  is_some (outcome (extract_image_statistics fs p)) &&
  is_some (outcome (extract_glcm_features fs p)).

Definition record_of (o : option dict) : dict :=
  match o with Some d => d | None => [] end.

(** Field-wise union of the three records of a file. *)
Definition union_row (fs : node) (p : path) : dict :=
  record_of (outcome (extract_dicom_metadata fs p))
  ++ record_of (outcome (extract_image_statistics fs p))
  ++ record_of (outcome (extract_glcm_features fs p)).

(** The row of a file, from what pydicom reads of it. *)
Definition feature_row (fs : node) (p : path) : option dict :=
  match header_record fs p,
        pixel_record stats_record fs p,
        pixel_record glcm_record fs p with
  | Some m, Some s, Some g => Some (m ++ s ++ g)
  | _, _, _ => None
  end.

(** Rows one file adds to [data]. *)
Definition contribution (fs : node) (p : path) : list dict :=
  if qualifies p
  then match feature_row fs p with Some r => [r] | None => [] end
  else [].

Definition feature_columns : list string :=
  metadata_keys ++ ["DCMFileName"]
    ++ ["MeanIntensity"; "StdIntensity"; "Entropy"]
    ++ ["GLCM_Contrast"; "GLCM_Correlation"; "GLCM_Energy"; "GLCM_Homogeneity"].

Definition directory_table (fs : node) (directory : path) : DataFrame :=
  let data := flat_map (contribution fs) (walked_files fs directory) in
  mkDF (match data with [] => [] | _ => feature_columns end) data.

Definition scan_table (fs : node) (subject_path : path) (scan_type : string) : DataFrame :=
  let t := directory_table fs (os_path_join subject_path scan_type) in
  df_setitem "ScanType" (PyStr scan_type)
    (if negb (df_contains "PatientID" t)
     then df_setitem "SubjectID" (PyStr (os_path_basename subject_path)) t
     else t).

Definition present (fs : node) (subject_path : path) (scan_type : string) : bool :=
  os_path_exists fs (os_path_join subject_path scan_type).


Definition bind_r {A B} (r : result A) (k : A -> result B) : result B :=
  match r with Ok a => k a | Raise e => Raise e end.

Fixpoint fold_r {A S} (f : S -> A -> result S) (xs : list A) (s : S) : result S :=
  match xs with
  | [] => Ok s
  | x :: xs' => bind_r (f s x) (fold_r f xs')
  end.

Fixpoint map_r {A B} (f : A -> result B) (xs : list A) : result (list B) :=
  match xs with
  | [] => Ok []
  | x :: xs' => bind_r (f x) (fun y => bind_r (map_r f xs') (fun ys => Ok (y :: ys)))
  end.

Definition regroup_step (d : buckets) (scan_df : DataFrame) : result buckets :=
  bind_r (df_unique_first "ScanType" scan_df)
    (fun scan_type =>
       match scan_type with
       | PyStr st => bucket_append st scan_df d
       | _ => Raise (mkExn "KeyError" "ScanType")
       end).

Definition empty_buckets : buckets := map (fun scan_type => (scan_type, [])) scan_types.

Definition concat_bucket (kv : string * list DataFrame) : result (string * DataFrame) :=
  bind_r (pd_concat (snd kv)) (fun df => Ok (fst kv, df)).

(** Tables a subject hands back to the parent process. *)
Definition subject_tables (fs : node) (subject_path : path) : list DataFrame :=
  map (scan_table fs subject_path) (filter (present fs subject_path) scan_types).

Definition subject_paths (fs : node) (root : path) (names : list string) : list path :=
  map (os_path_join root)
      (filter (fun subdir => os_path_isdir fs (os_path_join root subdir)) names).

Definition driver_result (self : DICOMProcessor) (fs : node)
    : result (list (string * DataFrame)) :=
  bind_r (os_listdir fs (root_directory self)) (fun names =>
    if (num_workers self <? 1)%Z
    then Raise (mkExn "ValueError" "Number of processes must be at least 1")
    else
      bind_r (fold_r regroup_step
                (List.concat (map (subject_tables fs)
                                  (subject_paths fs (root_directory self) names)))
                empty_buckets)
             (map_r concat_bucket)).

(** Horizontally adjacent pixel pairs [(row[c], row[c + 1])]. *)
Definition horizontal_pairs (img : image) : list (Z * Z) :=
  flat_map (fun row => combine row (tl row)) img.

Definition pair_count (pairs : list (Z * Z)) (i j : Z) : nat :=
  List.length (filter (fun p => (fst p =? i)%Z && (snd p =? j)%Z) pairs).

Definition in_levels (levels : nat) (p : Z * Z) : Prop :=
  (0 <= fst p < Z.of_nat levels)%Z /\ (0 <= snd p < Z.of_nat levels)%Z.

(** Normalised symmetric co-occurrence frequencies of the texture buffer. *)
Definition cooccurrence (img : image) (i j : Z) : R :=
  let pairs := horizontal_pairs (astype_uint8 img) in
  (INR (pair_count pairs i j + pair_count pairs j i)
   / (if (List.length pairs =? 0)%nat then 1 else INR (2 * List.length pairs)))%R.

(** Names are unique within every directory. *)
#[warnings="-register-all"]
Inductive well_formed : node -> Prop :=
| wf_file f : well_formed (File f)
| wf_dir es :
    NoDup (map fst es) -> Forall (fun e => well_formed (snd e)) es ->
    well_formed (Dir es).

(** The same tree, its directories listed in another order. *)
#[warnings="-register-all"]
Inductive same_tree : node -> node -> Prop :=
| same_file f : same_tree (File f) (File f)
| same_dir es1 es' es2 :
    Permutation es1 es' ->
    Forall2 (fun e1 e2 => fst e1 = fst e2 /\ same_tree (snd e1) (snd e2)) es' es2 ->
    same_tree (Dir es1) (Dir es2).

Definition related (o1 o2 : option node) : Prop :=
  match o1, o2 with
  | Some n1, Some n2 => well_formed n1 /\ same_tree n1 n2
  | None, None => True
  | _, _ => False
  end.

(** Files below a node, as the walk reports them. *)
Definition tree_files (top : path) (n : node) : list path :=
  flat_map (fun step => map (os_path_join (fst (fst step))) (snd step))
           (walk_node top n).

(** Two tables with the same columns whose rows differ only in order. *)
Definition same_rows (t1 t2 : DataFrame) : Prop :=
  columns t1 = columns t2 /\ Permutation (rows t1) (rows t2).

Definition entry := (string * DataFrame)%type.

Definition subject_entries (fs : node) (subject_path : path) : list entry :=
  map (fun st => (st, scan_table fs subject_path st))
      (filter (present fs subject_path) scan_types).

Definition final_columns : list string := feature_columns ++ ["ScanType"].

Definition index_error : exn :=
  mkExn "IndexError" "index 0 is out of bounds for axis 0 with size 0".
Definition concat_error : exn := mkExn "ValueError" "No objects to concatenate".

Definition no_rows (t : DataFrame) : bool :=
  match rows t with [] => true | _ => false end.

Definition entry_ok (e : entry) : Prop :=
  In (fst e) scan_types /\
  df_unique_first "ScanType" (snd e)
  = (if no_rows (snd e) then Raise index_error else Ok (PyStr (fst e))) /\
  (no_rows (snd e) = false ->
   columns (snd e) = final_columns /\
   Forall (fun r => dict_keys r = final_columns) (rows (snd e))).

Definition bucket_of (es : list entry) (st : string) : list DataFrame :=
  map snd (filter (fun e => String.eqb (fst e) st) es).

Definition table_full (t : DataFrame) : Prop :=
  columns t = final_columns /\ Forall (fun r => dict_keys r = final_columns) (rows t).

Definition is_nil {A} (l : list A) : bool :=
  match l with [] => true | _ => false end.

(** Rows of the table returned under scan type [k]. *)
Definition result_rows (es : list entry) (k : string) : list dict :=
  flat_map rows (bucket_of es k).

Definition driver_tables (es : list entry) : result (list (string * DataFrame)) :=
  if existsb (fun e => no_rows (snd e)) es then Raise index_error
  else if existsb (fun k => is_nil (bucket_of es k)) scan_types then Raise concat_error
  else Ok (map (fun k => (k, mkDF final_columns (result_rows es k))) scan_types).

Definition all_entries (fs : node) (root : path) (names : list string) : list entry :=
  flat_map (subject_entries fs) (subject_paths fs root names).

Definition same_entry (e1 e2 : entry) : Prop :=
  fst e1 = fst e2 /\ same_rows (snd e1) (snd e2).

(** The same labelled tables, up to their order and the order of their rows. *)
Definition same_entries (es1 es2 : list entry) : Prop :=
  exists es', Permutation es1 es' /\ Forall2 same_entry es' es2.

(** The (file name, scan type) pairs of a table. *)
Definition file_scan_pairs (t : DataFrame) : list (option pyval * option pyval) :=
  map (fun r => (dict_get "DCMFileName" r, dict_get "ScanType" r)) (rows t).

Definition same_result (kv1 kv2 : string * DataFrame) : Prop :=
  fst kv1 = fst kv2 /\
  List.length (rows (snd kv1)) = List.length (rows (snd kv2)) /\
  Permutation (file_scan_pairs (snd kv1)) (file_scan_pairs (snd kv2)).

(** ** Closed forms of the aggregators *)

(** Error records the three extractors write for one file, in call order. *)
Definition file_log (fs : node) (p : path) : list log_record :=
  match dcmread_header fs p with
  | Raise e => [error_record "Error reading " p e]
  | Ok _ => []
  end ++
  match dcmread_pixel_array fs p with
  | Raise e => [ error_record "Error processing image data from " p e;
                 error_record "Error extracting GLCM features from " p e ]
  | Ok _ => []
  end.

(** The row of a file in the table of scan type [k]. *)
Definition labelled_row (k : string) (fs : node) (p : path) : dict :=
  dict_set "ScanType" (PyStr k) (union_row fs p).

(** Rows expected under scan type [k]: subject by subject in listing order,
    the succeeding [.dcm] files below [<subject>/<k>] in walk order. *)
Definition expected_rows (fs : node) (subjects : list path) (k : string) : list dict :=
  flat_map
    (fun s => map (labelled_row k fs)
                  (filter (fun p => qualifies p && all_succeed fs p)
                          (walked_files fs (os_path_join s k))))
    subjects.

(** Some subject has a scan-type entry that yields no row. *)
Definition empty_table_somewhere (fs : node) (subjects : list path) : bool :=
  existsb
    (fun s => existsb
                (fun k => present fs s k
                          && no_rows (directory_table fs (os_path_join s k)))
                scan_types)
    subjects.

(** Some scan type has no entry under any subject. *)
Definition scan_type_missing (fs : node) (subjects : list path) : bool :=
  existsb (fun k => forallb (fun s => negb (present fs s k)) subjects) scan_types.

(** The driver's outcome, in closed form. *)
Definition driver_outcome (self : DICOMProcessor) (fs : node)
    : result (list (string * DataFrame)) :=
  match os_listdir fs (root_directory self) with
  | Raise e => Raise e
  | Ok names =>
      let subjects := subject_paths fs (root_directory self) names in
      if (num_workers self <? 1)%Z
      then Raise (mkExn "ValueError" "Number of processes must be at least 1")
      else if empty_table_somewhere fs subjects then Raise index_error
      else if scan_type_missing fs subjects then Raise concat_error
      else Ok (map (fun k => (k, mkDF final_columns (expected_rows fs subjects k)))
                   scan_types)
  end.

(** ** Sample files and trees *)

Definition mr_slice : dicom_file :=
  mkFile (Ok [ ("PatientID", PyStr "00042");
               ("Modality", PyStr "MR");
               ("PixelSpacing", PySeq [PyFloat 0.5; PyFloat 0.5]) ])
         (Ok [[0; 1]; [2; 3]]%Z).

Definition one_slice_dir : node := Dir [("Image-1.dcm", File mr_slice)].


Definition scan_dir : node := Dir [("Image-1.dcm", File mr_slice)].

Definition full_subject : node :=
  Dir [("FLAIR", scan_dir); ("T1w", scan_dir); ("T1wCE", scan_dir); ("T2w", scan_dir)].

Definition no_subjects : node := Dir [("IvyGAP", Dir [])].

Definition one_subject : node := Dir [("IvyGAP", Dir [("00001", full_subject)])].

Definition empty_scan_dir : node :=
  Dir [("IvyGAP", Dir [("00001", full_subject);
                       ("00002", Dir [("FLAIR", Dir [])])])].

Definition unreadable : dicom_file :=
  mkFile (Raise (mkExn "InvalidDicomError" "File is missing DICOM File Meta Information header"))
         (Raise (mkExn "InvalidDicomError" "File is missing DICOM File Meta Information header")).

Definition all_files_fail : node :=
  Dir [("IvyGAP", Dir [("00001", full_subject);
                       ("00002", Dir [("FLAIR", Dir [("Image-1.dcm", File unreadable)])])])].

Definition ivygap : DICOMProcessor := mkProcessor ["IvyGAP"] 4.

Definition flat_image : image := [[5; 5]; [5; 5]]%Z.

Definition flat_slice_dir : node :=
  Dir [("Image-1.dcm", File (mkFile (Ok []) (Ok flat_image)))].

Definition ramp_image : image := [[10; 20]; [30; 40]]%Z.

Definition ramp_slice_dir : node :=
  Dir [("Image-1.dcm", File (mkFile (Ok []) (Ok ramp_image)))].

Definition reversed_subject : node :=
  Dir [("T2w", scan_dir); ("T1wCE", scan_dir); ("T1w", scan_dir); ("FLAIR", scan_dir)].

Definition two_subjects : node :=
  Dir [("IvyGAP", Dir [("00001", full_subject); ("00002", full_subject)])].

Definition two_subjects_relisted : node :=
  Dir [("IvyGAP", Dir [("00002", reversed_subject); ("00001", full_subject)])].

(** A frame one pixel wide. *)
Definition column_image : image := [[7]; [9]]%Z.

Definition column_slice_dir : node :=
  Dir [("Image-1.dcm", File (mkFile (Ok []) (Ok column_image)))].

(** Two pixels whose range is not a dyadic fraction of 255. *)
Definition step_image : image := [[0; 7]]%Z.

Definition step_slice_dir : node :=
  Dir [("Image-1.dcm", File (mkFile (Ok []) (Ok step_image)))].

(** [all_files_fail] with its one unreadable file readable. *)
Definition corrupt_file_repaired : node :=
  Dir [("IvyGAP", Dir [("00001", full_subject);
                       ("00002", Dir [("FLAIR", Dir [("Image-1.dcm", File mr_slice)])])])].

(** ** Tactics *)

Ltac distinct_names :=
  simpl;
  repeat (apply NoDup_cons;
          [ simpl; let H := fresh in
            intros H; repeat (destruct H as [H|H]; [discriminate H|]); exact H
          | ]);
  apply NoDup_nil.

Ltac each_entry :=
  repeat (apply Forall_cons; [simpl; assumption|]); apply Forall_nil.

(** * Properties *)

(** ** The three extractors *)

Lemma extract_dicom_metadata_ok fs dicom_file ds :
  dcmread_header fs dicom_file = Ok ds ->
  extract_dicom_metadata fs dicom_file = (Ok (Some (metadata_record ds dicom_file)), []).
Proof.
  intros H. unfold extract_dicom_metadata. rewrite H. reflexivity.
Qed.

Lemma extract_dicom_metadata_raise fs dicom_file e :
  dcmread_header fs dicom_file = Raise e ->
  extract_dicom_metadata fs dicom_file
  = (Ok None, [error_record "Error reading " dicom_file e]).
Proof.
  intros H. unfold extract_dicom_metadata. rewrite H. reflexivity.
Qed.

Lemma extract_image_statistics_ok fs dicom_file img :
  dcmread_pixel_array fs dicom_file = Ok img ->
  extract_image_statistics fs dicom_file = (Ok (Some (stats_record img)), []).
Proof.
  intros H. unfold extract_image_statistics. rewrite H. reflexivity.
Qed.

Lemma extract_image_statistics_raise fs dicom_file e :
  dcmread_pixel_array fs dicom_file = Raise e ->
  extract_image_statistics fs dicom_file
  = (Ok None, [error_record "Error processing image data from " dicom_file e]).
Proof.
  intros H. unfold extract_image_statistics. rewrite H. reflexivity.
Qed.

Lemma astype_uint8_range img v :
  In v (List.concat (astype_uint8 img)) -> (0 <= v < 256)%Z.
Proof.
  unfold astype_uint8. intros H.
  apply in_concat in H. destruct H as [row [Hrow Hv]].
  apply in_map_iff in Hrow. destruct Hrow as [row0 [<- _]].
  apply in_map_iff in Hv. destruct Hv as [x [<- _]].
  apply Z.mod_pos_bound. lia.
Qed.

Lemma graycomatrix_uint8 img :
  graycomatrix (astype_uint8 img) 1 256 true true = Ok (texture_glcm img).
Proof.
  unfold graycomatrix.
  destruct (existsb _ _) eqn:E; [|reflexivity].
  apply existsb_exists in E. destruct E as [v [Hin Hv]].
  apply astype_uint8_range in Hin.
  apply orb_true_iff in Hv. destruct Hv as [Hv|Hv].
  - apply Z.ltb_lt in Hv. lia.
  - apply Z.leb_le in Hv. simpl in Hv. lia.
Qed.

Lemma extract_glcm_features_ok fs dicom_file img :
  dcmread_pixel_array fs dicom_file = Ok img ->
  extract_glcm_features fs dicom_file = (Ok (Some (glcm_record img)), []).
Proof.
  intros H. unfold extract_glcm_features. rewrite H.
  unfold lift at 1. unfold bind at 1.
  rewrite graycomatrix_uint8. reflexivity.
Qed.

Lemma extract_glcm_features_raise fs dicom_file e :
  dcmread_pixel_array fs dicom_file = Raise e ->
  extract_glcm_features fs dicom_file
  = (Ok None, [error_record "Error extracting GLCM features from " dicom_file e]).
Proof.
  intros H. unfold extract_glcm_features. rewrite H. reflexivity.
Qed.

(** ** C5: the metadata record *)

(** C5, as stated, fails: for a readable header the record has the single
    key [PixelSpacing], not one key per spacing component, so its key set
    is not the data model's. *)
Lemma metadata_keys_counterexample :
  exists ds r,
    dcmread_header one_slice_dir ["Image-1.dcm"] = Ok ds /\
    fst (extract_dicom_metadata one_slice_dir ["Image-1.dcm"]) = Ok (Some r) /\
    List.length (dict_keys r) = 13%nat /\
    List.length data_model_metadata_fields = 14%nat /\
    ~ (forall k, In k data_model_metadata_fields -> In k (dict_keys r)).
Proof.
  eexists. eexists. split; [reflexivity|]. split; [reflexivity|].
  split; [reflexivity|]. split; [reflexivity|].
  intros H. specialize (H "PixelSpacing_X").
  assert (Hin : In "PixelSpacing_X" data_model_metadata_fields)
    by (simpl; tauto).
  apply H in Hin. simpl in Hin.
  repeat (destruct Hin as [Hin|Hin]; [discriminate Hin|]). exact Hin.
Qed.

Lemma metadata_record_get ds dicom_file k :
  In k metadata_keys ->
  dict_get k (metadata_record ds dicom_file) = Some (getattr_default ds k).
Proof.
  unfold metadata_keys. simpl.
  intros H.
  repeat (destruct H as [<-|H]; [reflexivity|]). contradiction.
Qed.

(** C5 (amended): for a file whose header reads, the metadata extractor
    returns a record whose keys are exactly the twelve header keywords
    (with [PixelSpacing] a single key) followed by [DCMFileName]; a keyword
    the header lacks is present with value [None], a keyword it has carries
    the header's value, and [DCMFileName] is the file's base name. *)
Theorem metadata_record_schema fs dicom_file ds :
  dcmread_header fs dicom_file = Ok ds ->
  exists r,
    extract_dicom_metadata fs dicom_file = (Ok (Some r), []) /\
    dict_keys r = metadata_keys ++ ["DCMFileName"] /\
    List.length (dict_keys r) = 13%nat /\
    (forall k, In k metadata_keys -> dict_get k ds = None ->
               dict_get k r = Some PyNone) /\
    (forall k v, In k metadata_keys -> dict_get k ds = Some v ->
                 dict_get k r = Some v) /\
    dict_get "DCMFileName" r = Some (PyStr (os_path_basename dicom_file)).
Proof.
  intros H. exists (metadata_record ds dicom_file).
  split; [apply extract_dicom_metadata_ok; exact H|].
  split; [reflexivity|]. split; [reflexivity|].
  split; [|split].
  - intros k Hk Hnone. rewrite metadata_record_get by exact Hk.
    unfold getattr_default. rewrite Hnone. reflexivity.
  - intros k v Hk Hsome. rewrite metadata_record_get by exact Hk.
    unfold getattr_default. rewrite Hsome. reflexivity.
  - reflexivity.
Qed.

Lemma metadata_record_schema_witness :
  exists r,
    extract_dicom_metadata one_slice_dir ["Image-1.dcm"] = (Ok (Some r), []) /\
    dict_get "StudyDate" r = Some PyNone /\
    dict_get "Modality" r = Some (PyStr "MR").
Proof.
  destruct (metadata_record_schema one_slice_dir ["Image-1.dcm"] _ eq_refl)
    as [r [Hr [_ [_ [Hnone [Hsome _]]]]]].
  exists r. split; [exact Hr|]. split.
  - apply Hnone; [simpl; tauto | reflexivity].
  - apply Hsome; [simpl; tauto | reflexivity].
Defined.

(** ** Outcomes of the extractors *)

Lemma extract_dicom_metadata_outcome fs dicom_file :
  extraction dicom_file "Error reading " (header_record fs dicom_file)
             (extract_dicom_metadata fs dicom_file).
Proof.
  unfold header_record.
  destruct (dcmread_header fs dicom_file) as [ds|e] eqn:H.
  - rewrite (extract_dicom_metadata_ok _ _ _ H). now constructor.
  - rewrite (extract_dicom_metadata_raise _ _ _ H). now constructor.
Qed.

Lemma extract_image_statistics_outcome fs dicom_file :
  extraction dicom_file "Error processing image data from "
             (pixel_record stats_record fs dicom_file)
             (extract_image_statistics fs dicom_file).
Proof.
  unfold pixel_record.
  destruct (dcmread_pixel_array fs dicom_file) as [img|e] eqn:H.
  - rewrite (extract_image_statistics_ok _ _ _ H). now constructor.
  - rewrite (extract_image_statistics_raise _ _ _ H). now constructor.
Qed.

Lemma extract_glcm_features_outcome fs dicom_file :
  extraction dicom_file "Error extracting GLCM features from "
             (pixel_record glcm_record fs dicom_file)
             (extract_glcm_features fs dicom_file).
Proof.
  unfold pixel_record.
  destruct (dcmread_pixel_array fs dicom_file) as [img|e] eqn:H.
  - rewrite (extract_glcm_features_ok _ _ _ H). now constructor.
  - rewrite (extract_glcm_features_raise _ _ _ H). now constructor.
Qed.

Lemma extraction_fst dicom_file what record m :
  extraction dicom_file what record m -> fst m = Ok record.
Proof. intros [r ->|e ->]; reflexivity. Qed.

(** ** C10: records are non-empty, so truthiness is the [None] test *)

(** C10: a record returned by the metadata extractor holds [DCMFileName],
    set to the base name of the file; one returned by the statistics
    extractor has exactly its three keys, one returned by the texture
    extractor exactly its four; hence on the results of the three extractors
    the conjunction of truth values that gates a row equals the test that
    all three are not [None]. *)
Theorem records_nonempty_gate_is_none_test fs dicom_file :
  (forall r, fst (extract_dicom_metadata fs dicom_file) = Ok (Some r) ->
     r <> [] /\
     dict_get "DCMFileName" r = Some (PyStr (os_path_basename dicom_file))) /\
  (forall r, fst (extract_image_statistics fs dicom_file) = Ok (Some r) ->
     dict_keys r = ["MeanIntensity"; "StdIntensity"; "Entropy"]) /\
  (forall r, fst (extract_glcm_features fs dicom_file) = Ok (Some r) ->
     dict_keys r = ["GLCM_Contrast"; "GLCM_Correlation"; "GLCM_Energy";
                    "GLCM_Homogeneity"]) /\
  (exists metadata image_stats glcm_features,
     fst (extract_dicom_metadata fs dicom_file) = Ok metadata /\
     fst (extract_image_statistics fs dicom_file) = Ok image_stats /\
     fst (extract_glcm_features fs dicom_file) = Ok glcm_features /\
     truthy metadata && truthy image_stats && truthy glcm_features
     = is_some metadata && is_some image_stats && is_some glcm_features).
Proof.
  pose proof (extraction_fst _ _ _ _ (extract_dicom_metadata_outcome fs dicom_file)) as Hm.
  pose proof (extraction_fst _ _ _ _ (extract_image_statistics_outcome fs dicom_file)) as Hs.
  pose proof (extraction_fst _ _ _ _ (extract_glcm_features_outcome fs dicom_file)) as Hg.
  unfold header_record in Hm. unfold pixel_record in Hs, Hg.
  repeat split.
  - rewrite Hm in H. destruct (dcmread_header fs dicom_file); [|discriminate].
    injection H as <-. discriminate.
  - rewrite Hm in H. destruct (dcmread_header fs dicom_file); [|discriminate].
    injection H as <-. reflexivity.
  - intros r H. rewrite Hs in H.
    destruct (dcmread_pixel_array fs dicom_file); [|discriminate].
    injection H as <-. reflexivity.
  - intros r H. rewrite Hg in H.
    destruct (dcmread_pixel_array fs dicom_file); [|discriminate].
    injection H as <-. reflexivity.
  - do 3 eexists. split; [exact Hm|]. split; [exact Hs|]. split; [exact Hg|].
    destruct (dcmread_header fs dicom_file), (dcmread_pixel_array fs dicom_file);
      reflexivity.
Qed.

(** ** Reasoning about computations *)

Lemma yields_ret {A} (a : A) : yields (ret a) a.
Proof. now exists []. Qed.

Lemma yields_bind {A B} (m : M A) (k : A -> M B) a b :
  yields m a -> yields (k a) b -> yields (bind m k) b.
Proof.
  intros [l ->] [l' H]. unfold bind. rewrite H. now exists (l ++ l').
Qed.

Lemma yields_returns {A} (m : M A) a : yields m a -> returns m.
Proof. intros [l ->]. now exists a. Qed.

Lemma yields_inj {A} (m : M A) a b : yields m a -> yields m b -> a = b.
Proof. intros [l ->] [l' H]. now injection H. Qed.

Lemma for_each_yields {A S} (f : S -> A -> S) (body : S -> A -> M S) xs :
  (forall s x, In x xs -> yields (body s x) (f s x)) ->
  forall s, yields (for_each xs body s) (fold_left f xs s).
Proof.
  induction xs as [|x xs IH]; intros Hbody s; simpl.
  - apply yields_ret.
  - eapply yields_bind.
    + apply Hbody. now left.
    + apply IH. intros s' x' Hx'. apply Hbody. now right.
Qed.

Lemma mapM_yields {A B} (g : A -> B) (f : A -> M B) xs :
  (forall x, In x xs -> yields (f x) (g x)) ->
  yields (mapM f xs) (map g xs).
Proof.
  induction xs as [|x xs IH]; intros Hf; simpl.
  - apply yields_ret.
  - eapply yields_bind; [apply Hf; now left|].
    eapply yields_bind; [apply IH; intros; apply Hf; now right|].
    apply yields_ret.
Qed.

Lemma extraction_yields dicom_file what record m :
  extraction dicom_file what record m -> yields m record.
Proof. intros [r ->|e ->]; eexists; reflexivity. Qed.

(** ** The directory walk *)

Lemma outcome_metadata fs p :
  outcome (extract_dicom_metadata fs p) = header_record fs p.
Proof.
  unfold outcome.
  now rewrite (extraction_fst _ _ _ _ (extract_dicom_metadata_outcome fs p)).
Qed.

Lemma outcome_statistics fs p :
  outcome (extract_image_statistics fs p) = pixel_record stats_record fs p.
Proof.
  unfold outcome.
  now rewrite (extraction_fst _ _ _ _ (extract_image_statistics_outcome fs p)).
Qed.

Lemma outcome_glcm fs p :
  outcome (extract_glcm_features fs p) = pixel_record glcm_record fs p.
Proof.
  unfold outcome.
  now rewrite (extraction_fst _ _ _ _ (extract_glcm_features_outcome fs p)).
Qed.

Lemma basename_join root file : os_path_basename (os_path_join root file) = file.
Proof. unfold os_path_basename, os_path_join. apply last_last. Qed.

Lemma contribution_spec fs p :
  contribution fs p
  = if qualifies p && all_succeed fs p then [union_row fs p] else [].
Proof.
  unfold contribution, feature_row, all_succeed, union_row.
  rewrite outcome_metadata, outcome_statistics, outcome_glcm.
  unfold header_record, pixel_record.
  destruct (qualifies p); [|reflexivity].
  destruct (dcmread_header fs p); destruct (dcmread_pixel_array fs p); reflexivity.
Qed.

Lemma process_file_yields fs root data file :
  yields (process_file fs root data file)
         (data ++ contribution fs (os_path_join root file)).
Proof.
  rewrite contribution_spec. unfold process_file, qualifies.
  rewrite basename_join.
  destruct (endswith file ".dcm"); simpl;
    [|rewrite app_nil_r; apply yields_ret].
  set (p := os_path_join root file).
  eapply yields_bind;
    [apply (extraction_yields _ _ _ _ (extract_dicom_metadata_outcome fs p))|].
  eapply yields_bind;
    [apply (extraction_yields _ _ _ _ (extract_image_statistics_outcome fs p))|].
  eapply yields_bind;
    [apply (extraction_yields _ _ _ _ (extract_glcm_features_outcome fs p))|].
  unfold all_succeed, union_row.
  rewrite outcome_metadata, outcome_statistics, outcome_glcm.
  unfold header_record, pixel_record.
  destruct (dcmread_header fs p) as [ds|e1];
    destruct (dcmread_pixel_array fs p) as [img|e2]; simpl;
    try (rewrite app_nil_r; apply yields_ret).
  exists []. reflexivity.
Qed.

Lemma fold_left_app_contrib {A B} (g : A -> list B) xs acc :
  fold_left (fun data x => data ++ g x) xs acc = acc ++ flat_map g xs.
Proof.
  revert acc. induction xs as [|x xs IH]; intros acc; simpl.
  - now rewrite app_nil_r.
  - rewrite IH. now rewrite app_assoc.
Qed.

Lemma flat_map_nested {A B C} (f : A -> list B) (g : B -> list C) l :
  flat_map g (flat_map f l) = flat_map (fun x => flat_map g (f x)) l.
Proof.
  induction l as [|x l IH]; simpl; [reflexivity|].
  now rewrite flat_map_app, IH.
Qed.

Lemma process_files_yields fs root files data :
  yields (for_each files (process_file fs root) data)
         (data ++ flat_map (contribution fs) (map (os_path_join root) files)).
Proof.
  rewrite flat_map_concat_map, map_map, <- flat_map_concat_map.
  rewrite <- fold_left_app_contrib.
  apply (for_each_yields (fun d file => d ++ contribution fs (os_path_join root file))).
  intros s x _. apply process_file_yields.
Qed.

Lemma collect_rows_yields fs directory :
  yields (collect_rows fs directory)
         (flat_map (contribution fs) (walked_files fs directory)).
Proof.
  unfold collect_rows, walked_files.
  rewrite flat_map_nested.
  change (flat_map _ (os_walk fs directory))
    with ([] ++ flat_map (fun step =>
                  flat_map (contribution fs)
                    (map (os_path_join (fst (fst step))) (snd step)))
                (os_walk fs directory)).
  rewrite <- fold_left_app_contrib.
  apply (for_each_yields
           (fun data step =>
              data ++ flat_map (contribution fs)
                        (map (os_path_join (fst (fst step))) (snd step)))).
  intros s step _. apply process_files_yields.
Qed.

(** ** Tables built from uniform rows *)

Lemma existsb_eqb_in k (l : list string) : existsb (String.eqb k) l = true <-> In k l.
Proof.
  rewrite existsb_exists. split.
  - intros [x [Hx E]]. apply String.eqb_eq in E. now subst.
  - intros H. exists k. split; [exact H | apply String.eqb_refl].
Qed.

Lemma add_columns_fresh ks : forall acc,
  NoDup (acc ++ ks) -> add_columns acc ks = acc ++ ks.
Proof.
  unfold add_columns.
  induction ks as [|k ks IH]; intros acc Hnd; simpl.
  - now rewrite app_nil_r.
  - destruct (existsb (String.eqb k) acc) eqn:E.
    + apply existsb_eqb_in in E. apply NoDup_remove_2 in Hnd.
      exfalso. apply Hnd. apply in_or_app. now left.
    + rewrite IH; rewrite <- app_assoc; [reflexivity | exact Hnd].
Qed.

Lemma add_columns_absorb ks : forall acc,
  incl ks acc -> add_columns acc ks = acc.
Proof.
  unfold add_columns.
  induction ks as [|k ks IH]; intros acc Hincl; simpl; [reflexivity|].
  assert (E : existsb (String.eqb k) acc = true)
    by (apply existsb_eqb_in, Hincl; now left).
  rewrite E. apply IH. intros x Hx. apply Hincl. now right.
Qed.

Lemma dict_get_notin k (d : dict) : ~ In k (dict_keys d) -> dict_get k d = None.
Proof.
  induction d as [|[k' v] d IH]; simpl; intros H; [reflexivity|].
  destruct (String.eqb k k') eqn:E.
  - apply String.eqb_eq in E. subst. exfalso. apply H. now left.
  - apply IH. intros Hin. apply H. now right.
Qed.

Lemma reindex_own_keys (r : dict) : NoDup (dict_keys r) -> reindex (dict_keys r) r = r.
Proof.
  unfold reindex.
  induction r as [|[k v] r IH]; simpl; intros Hnd; [reflexivity|].
  inversion Hnd as [|? ? Hk Hnd']; subst.
  rewrite String.eqb_refl. f_equal.
  rewrite <- (IH Hnd') at 2.
  apply map_ext_in. intros c Hc.
  destruct (String.eqb c k) eqn:E; [|reflexivity].
  apply String.eqb_eq in E. subst. contradiction.
Qed.

Lemma uniform_columns K (data : list dict) : forall acc,
  Forall (fun r => dict_keys r = K) data -> incl K acc ->
  fold_left (fun acc r => add_columns acc (dict_keys r)) data acc = acc.
Proof.
  induction data as [|r data IH]; intros acc Hall Hincl; simpl; [reflexivity|].
  inversion Hall as [|? ? Hr Hall']; subst.
  rewrite add_columns_absorb by exact Hincl. now apply IH.
Qed.

(** [pd.DataFrame] of rows that all carry the same keys keeps them as they are. *)
Lemma pd_DataFrame_uniform K (data : list dict) :
  NoDup K -> Forall (fun r => dict_keys r = K) data ->
  pd_DataFrame data = mkDF (match data with [] => [] | _ => K end) data.
Proof.
  intros Hnd Hall. unfold pd_DataFrame.
  destruct data as [|r data]; [reflexivity|].
  inversion Hall as [|? ? Hr Hall']; subst. simpl fold_left.
  rewrite (add_columns_fresh (dict_keys r) []) by exact Hnd. simpl app.
  rewrite (uniform_columns (dict_keys r)) by (auto using incl_refl).
  f_equal.
  change (map (reindex (dict_keys r)) (r :: data) = r :: data).
  rewrite <- (map_id (r :: data)) at 2.
  apply map_ext_in. intros r' Hr'.
  rewrite Forall_forall in Hall. rewrite <- (Hall r' Hr') at 1.
  apply reindex_own_keys. now rewrite (Hall r' Hr').
Qed.

Lemma NoDup_feature_columns : NoDup feature_columns.
Proof.
  unfold feature_columns, metadata_keys. distinct_names.
Qed.

Lemma contribution_keys fs p r :
  In r (contribution fs p) -> dict_keys r = feature_columns.
Proof.
  rewrite contribution_spec. unfold all_succeed, union_row.
  rewrite outcome_metadata, outcome_statistics, outcome_glcm.
  unfold header_record, pixel_record.
  destruct (qualifies p); simpl; [|contradiction].
  destruct (dcmread_header fs p); destruct (dcmread_pixel_array fs p); simpl;
    try contradiction.
  intros [<-|[]]. reflexivity.
Qed.

Lemma process_dicom_directory_yields fs directory :
  let data := flat_map (contribution fs) (walked_files fs directory) in
  yields (process_dicom_directory fs directory)
         (mkDF (match data with [] => [] | _ => feature_columns end) data).
Proof.
  intros data. unfold process_dicom_directory.
  eapply yields_bind; [apply collect_rows_yields|].
  fold data.
  rewrite (pd_DataFrame_uniform feature_columns).
  - apply yields_ret.
  - apply NoDup_feature_columns.
  - apply Forall_forall. intros r Hr. unfold data in Hr.
    apply in_flat_map in Hr. destruct Hr as [p [_ Hr]].
    eapply contribution_keys; eauto.
Qed.

(** ** C1: one row per qualifying file on which all three extractors succeed *)

Lemma dict_get_app k (a b : dict) :
  dict_get k (a ++ b)
  = match dict_get k a with Some v => Some v | None => dict_get k b end.
Proof.
  induction a as [|[k' v'] a IH]; simpl; [reflexivity|].
  now destruct (String.eqb k k').
Qed.

Lemma dict_get_in k v (d : dict) : dict_get k d = Some v -> In k (dict_keys d).
Proof.
  induction d as [|[k' v'] d IH]; simpl; [discriminate|].
  destruct (String.eqb k k') eqn:E.
  - apply String.eqb_eq in E. now left.
  - intros H. right. now apply IH.
Qed.

Lemma union_row_keys fs p :
  all_succeed fs p = true -> dict_keys (union_row fs p) = feature_columns.
Proof.
  unfold all_succeed, union_row.
  rewrite outcome_metadata, outcome_statistics, outcome_glcm.
  unfold header_record, pixel_record.
  destruct (dcmread_header fs p); destruct (dcmread_pixel_array fs p); simpl;
    try discriminate.
  reflexivity.
Qed.

(** The row holds every field of each of the three records, and nothing else. *)
Lemma union_row_fieldwise fs p k v :
  all_succeed fs p = true ->
  dict_get k (union_row fs p) = Some v <->
  (dict_get k (record_of (outcome (extract_dicom_metadata fs p))) = Some v \/
   dict_get k (record_of (outcome (extract_image_statistics fs p))) = Some v \/
   dict_get k (record_of (outcome (extract_glcm_features fs p))) = Some v).
Proof.
  intros Hall.
  pose proof (union_row_keys fs p Hall) as Hkeys.
  pose proof NoDup_feature_columns as Hnd. rewrite <- Hkeys in Hnd.
  unfold union_row in *. unfold dict_keys in Hnd.
  rewrite !map_app in Hnd.
  set (m := record_of (outcome (extract_dicom_metadata fs p))) in *.
  set (s := record_of (outcome (extract_image_statistics fs p))) in *.
  set (g := record_of (outcome (extract_glcm_features fs p))) in *.
  assert (Hms : forall x, In x (map fst m) -> ~ In x (map fst s ++ map fst g)).
  { intros x Hx Hx'. revert Hnd Hx Hx'. generalize (map fst s ++ map fst g).
    generalize (map fst m). clear. intros a b Hnd Ha Hb.
    induction a as [|y a IH]; [contradiction|].
    simpl in Hnd. inversion Hnd as [|? ? Hy Hnd']; subst.
    destruct Ha as [->|Ha]; [apply Hy, in_or_app; now right | now apply IH]. }
  assert (Hsg : forall x, In x (map fst s) -> ~ In x (map fst g)).
  { apply NoDup_app_remove_l in Hnd.
    intros x Hx Hx'. revert Hnd Hx Hx'. generalize (map fst g).
    generalize (map fst s). clear. intros a b Hnd Ha Hb.
    induction a as [|y a IH]; [contradiction|].
    simpl in Hnd. inversion Hnd as [|? ? Hy Hnd']; subst.
    destruct Ha as [->|Ha]; [apply Hy, in_or_app; now right | now apply IH]. }
  rewrite !dict_get_app.
  destruct (dict_get k m) as [vm|] eqn:Em.
  - pose proof (Hms k (dict_get_in _ _ _ Em)) as Hno.
    rewrite (dict_get_notin k s), (dict_get_notin k g);
      try (intros Hin; apply Hno, in_or_app; tauto).
    split; [tauto|]. intros [H|[H|H]]; congruence.
  - destruct (dict_get k s) as [vs|] eqn:Es.
    + rewrite (dict_get_notin k g) by (apply Hsg; eapply dict_get_in; eauto).
      split; [tauto|]. intros [H|[H|H]]; congruence.
    + split; [tauto|]. intros [H|[H|H]]; congruence.
Qed.

Lemma flat_map_contribution fs ps :
  flat_map (contribution fs) ps
  = map (union_row fs) (filter (fun p => qualifies p && all_succeed fs p) ps).
Proof.
  induction ps as [|p ps IH]; simpl; [reflexivity|].
  rewrite contribution_spec.
  destruct (qualifies p && all_succeed fs p); simpl; now rewrite IH.
Qed.

(** C1: the table of a directory is returned, and its rows are, in walk
    order, one row for each visited file whose name ends in [.dcm] and on
    which all three extractors return a record; that row is the field-wise
    union of the three records.  A file on which an extractor returns [None]
    gives no row, so when every file ending in [.dcm] succeeds the number of
    rows is the number of such files. *)
Theorem directory_rows_one_per_success fs directory :
  exists df,
    yields (process_dicom_directory fs directory) df /\
    rows df = map (union_row fs)
                  (filter (fun p => qualifies p && all_succeed fs p)
                          (walked_files fs directory)) /\
    (forall p k v, qualifies p && all_succeed fs p = true ->
       dict_get k (union_row fs p) = Some v <->
       (dict_get k (record_of (outcome (extract_dicom_metadata fs p))) = Some v \/
        dict_get k (record_of (outcome (extract_image_statistics fs p))) = Some v \/
        dict_get k (record_of (outcome (extract_glcm_features fs p))) = Some v)) /\
    (forallb (fun p => implb (qualifies p) (all_succeed fs p))
             (walked_files fs directory) = true ->
     List.length (rows df)
     = List.length (filter qualifies (walked_files fs directory))).
Proof.
  eexists. split; [apply process_dicom_directory_yields|].
  cbv zeta. simpl rows. rewrite flat_map_contribution.
  split; [reflexivity|]. split.
  - intros p k v H. apply andb_true_iff in H. destruct H as [_ H].
    now apply union_row_fieldwise.
  - intros Hall. rewrite length_map. f_equal.
    apply filter_ext_in. intros p Hp.
    rewrite forallb_forall in Hall. specialize (Hall p Hp).
    destruct (qualifies p); simpl in *; [exact Hall | reflexivity].
Qed.

(** ** The subject aggregator *)

Lemma process_scan_type_yields fs subject_path subject_results scan_type :
  yields (process_scan_type fs subject_path subject_results scan_type)
         (subject_results ++
          if present fs subject_path scan_type
          then [scan_table fs subject_path scan_type] else []).
Proof.
  unfold process_scan_type, present.
  destruct (os_path_exists fs (os_path_join subject_path scan_type)).
  - eapply yields_bind; [apply process_dicom_directory_yields|].
    apply yields_ret.
  - rewrite app_nil_r. apply yields_ret.
Qed.

Lemma process_subject_yields fs subject_path :
  yields (process_subject fs subject_path)
         (map (scan_table fs subject_path)
              (filter (present fs subject_path) scan_types)).
Proof.
  unfold process_subject.
  assert (E : map (scan_table fs subject_path)
                  (filter (present fs subject_path) scan_types)
              = [] ++ flat_map (fun st => if present fs subject_path st
                                          then [scan_table fs subject_path st]
                                          else []) scan_types).
  { generalize scan_types. intros l. simpl app.
    induction l as [|st l IH]; simpl; [reflexivity|].
    destruct (present fs subject_path st); simpl; now rewrite IH. }
  rewrite E, <- fold_left_app_contrib.
  apply (for_each_yields
           (fun acc st => acc ++ if present fs subject_path st
                                 then [scan_table fs subject_path st] else [])).
  intros s st _. apply process_scan_type_yields.
Qed.

(** ** Failures stop at the extractor boundary *)

(** When reading the header (resp. the pixel data) of a file raises [e],
    the metadata extractor (resp. the statistics and the texture extractor)
    returns [None] and logs one error record carrying the path of the file
    and the text of [e]; no extractor ever raises; the directory walk, the
    subject aggregator and the pool's map over the subjects always return,
    and a file whose three extractions succeed keeps its row in the table
    whatever happens to the other files. *)
Lemma failures_stop_before_regrouping fs :
  (forall p e, dcmread_header fs p = Raise e ->
     extract_dicom_metadata fs p
     = (Ok None, [mkLog "ERROR" ("Error reading " ++ path_str p ++ ": " ++ exn_msg e)])) /\
  (forall p e, dcmread_pixel_array fs p = Raise e ->
     extract_image_statistics fs p
     = (Ok None, [mkLog "ERROR" ("Error processing image data from "
                                  ++ path_str p ++ ": " ++ exn_msg e)]) /\
     extract_glcm_features fs p
     = (Ok None, [mkLog "ERROR" ("Error extracting GLCM features from "
                                  ++ path_str p ++ ": " ++ exn_msg e)])) /\
  (forall p, returns (extract_dicom_metadata fs p) /\
             returns (extract_image_statistics fs p) /\
             returns (extract_glcm_features fs p)) /\
  (forall directory,
     exists df, yields (process_dicom_directory fs directory) df /\
       forall p, In p (walked_files fs directory) ->
                 qualifies p = true -> all_succeed fs p = true ->
                 In (union_row fs p) (rows df)) /\
  (forall subject_path, returns (process_subject fs subject_path)) /\
  (forall subjects, returns (pool_imap (process_subject fs) subjects)).
Proof.
  split; [|split; [|split; [|split; [|split]]]].
  - intros p e H. now apply extract_dicom_metadata_raise.
  - intros p e H. split.
    + now apply extract_image_statistics_raise.
    + now apply extract_glcm_features_raise.
  - intros p. repeat split; eapply yields_returns, extraction_yields.
    + apply extract_dicom_metadata_outcome.
    + apply extract_image_statistics_outcome.
    + apply extract_glcm_features_outcome.
  - intros directory. eexists. split; [apply process_dicom_directory_yields|].
    intros p Hp Hq Hs. cbv zeta. simpl rows.
    rewrite flat_map_contribution. apply in_map, filter_In.
    split; [exact Hp|]. now rewrite Hq, Hs.
  - intros subject_path. eapply yields_returns, process_subject_yields.
  - intros subjects. eapply yields_returns.
    apply (mapM_yields (fun s => map (scan_table fs s)
                                     (filter (present fs s) scan_types))).
    intros s _. apply process_subject_yields.
Qed.

(** ** C4: one labelled table per scan-type entry that exists *)

Lemma dict_get_set_same k v (d : dict) : dict_get k (dict_set k v d) = Some v.
Proof.
  induction d as [|[k' v'] d IH]; simpl.
  - now rewrite String.eqb_refl.
  - destruct (String.eqb k k') eqn:E; simpl; rewrite E; [reflexivity | exact IH].
Qed.

Lemma dict_get_set_other k k' v (d : dict) :
  k <> k' -> dict_get k (dict_set k' v d) = dict_get k d.
Proof.
  intros Hne. induction d as [|[k0 v0] d IH]; simpl.
  - destruct (String.eqb k k') eqn:E; [|reflexivity].
    apply String.eqb_eq in E. contradiction.
  - destruct (String.eqb k' k0) eqn:E; simpl.
    + apply String.eqb_eq in E. subst k0.
      destruct (String.eqb k k') eqn:E'; [|reflexivity].
      apply String.eqb_eq in E'. contradiction.
    + now rewrite IH.
Qed.




(** ** The driver, as a function of what the subjects return *)

Lemma fst_bind {A B} (m : M A) (k : A -> M B) :
  fst (bind m k) = bind_r (fst m) (fun a => fst (k a)).
Proof.
  destruct m as [[a|e] l]; simpl; [|reflexivity]. now destruct (k a).
Qed.

Lemma yields_fst {A} (m : M A) a : yields m a -> fst m = Ok a.
Proof. now intros [l ->]. Qed.

Lemma bind_r_ext {A B} (r : result A) (k k' : A -> result B) :
  (forall a, k a = k' a) -> bind_r r k = bind_r r k'.
Proof. intros H. destruct r; simpl; auto. Qed.

Lemma fst_for_each {A S} (f : S -> A -> result S) (body : S -> A -> M S) xs :
  (forall s x, fst (body s x) = f s x) ->
  forall s, fst (for_each xs body s) = fold_r f xs s.
Proof.
  intros Hbody. induction xs as [|x xs IH]; intros s; simpl; [reflexivity|].
  rewrite fst_bind, Hbody. now apply bind_r_ext.
Qed.

Lemma fst_mapM {A B} (g : A -> result B) (f : A -> M B) xs :
  (forall x, fst (f x) = g x) -> fst (mapM f xs) = map_r g xs.
Proof.
  intros Hf. induction xs as [|x xs IH]; simpl; [reflexivity|].
  rewrite fst_bind, Hf. apply bind_r_ext. intros y.
  rewrite fst_bind, IH. now apply bind_r_ext.
Qed.

Lemma fold_r_concat {A S} (f : S -> A -> result S) xss : forall s,
  fold_r (fun s xs => fold_r f xs s) xss s = fold_r f (List.concat xss) s.
Proof.
  induction xss as [|xs xss IH]; intros s; simpl; [reflexivity|].
  revert s. induction xs as [|x xs IHxs]; intros s; simpl; [apply IH|].
  destruct (f s x); simpl; [apply IHxs | reflexivity].
Qed.

Lemma fst_regroup results :
  fst (regroup results) = fold_r regroup_step (List.concat results) empty_buckets.
Proof.
  unfold regroup. rewrite <- fold_r_concat.
  apply fst_for_each. intros s xs.
  apply fst_for_each. intros d t.
  unfold regroup_one, regroup_step. rewrite fst_bind. simpl.
  apply bind_r_ext. intros [| |st| | |]; reflexivity.
Qed.

Lemma process_all_subjects_parallel_result self fs :
  fst (process_all_subjects_parallel self fs) = driver_result self fs.
Proof.
  unfold process_all_subjects_parallel, driver_result, list_subjects.
  rewrite fst_bind, fst_bind. simpl fst.
  destruct (os_listdir fs (root_directory self)) as [names|e]; simpl; [|reflexivity].
  rewrite fst_bind. unfold multiprocessing_Pool.
  destruct (num_workers self <? 1)%Z; simpl; [reflexivity|].
  rewrite fst_bind.
  fold (subject_paths fs (root_directory self) names).
  rewrite (yields_fst _ (map (subject_tables fs)
                             (subject_paths fs (root_directory self) names))).
  - simpl. rewrite fst_bind, fst_regroup. apply bind_r_ext. intros d.
    apply fst_mapM. intros kv.
    unfold concat_bucket. now destruct (pd_concat (snd kv)).
  - apply mapM_yields. intros s _. apply process_subject_yields.
Qed.

(** ** C2: empty inputs make the driver raise *)

(** C2 fails on the code: with no subject directory [pd.concat] is handed an
    empty list and raises [ValueError]; with a scan-type directory that
    holds no qualifying file, or only files that fail extraction, the
    regrouping reads [unique()[0]] of an empty column and raises
    [IndexError].  The same tree without the empty subject is processed. *)
Theorem driver_raises_on_empty_input :
  fst (process_all_subjects_parallel ivygap no_subjects)
  = Raise (mkExn "ValueError" "No objects to concatenate") /\
  fst (process_all_subjects_parallel ivygap empty_scan_dir)
  = Raise (mkExn "IndexError" "index 0 is out of bounds for axis 0 with size 0") /\
  fst (process_all_subjects_parallel ivygap all_files_fail)
  = Raise (mkExn "IndexError" "index 0 is out of bounds for axis 0 with size 0") /\
  returns (process_all_subjects_parallel ivygap one_subject).
Proof.
  unfold returns. rewrite !process_all_subjects_parallel_result.
  split; [reflexivity|]. split; [reflexivity|]. split; [reflexivity|].
  eexists. reflexivity.
Qed.

(** ** C6: entropy over raw bin counts *)

Lemma bump_seq (g : nat -> nat) n : forall s k, (k < n)%nat ->
  bump k (map g (seq s n))
  = map (fun b => if (b =? s + k)%nat then S (g b) else g b) (seq s n).
Proof.
  induction n as [|n IH]; intros s k Hk; [lia|].
  destruct k as [|k]; simpl.
  - rewrite Nat.add_0_r, Nat.eqb_refl. f_equal.
    apply map_ext_in. intros b Hb. apply in_seq in Hb.
    destruct (Nat.eqb_spec b s); [lia | reflexivity].
  - destruct (Nat.eqb_spec s (s + S k)); [lia|]. f_equal.
    rewrite IH by lia. apply map_ext. intros b.
    now replace (S s + k)%nat with (s + S k)%nat by lia.
Qed.

Lemma calcHist_counts (xs : list Z) n : forall g,
  fold_left
    (fun hist v => if (0 <=? v)%Z && (v <? Z.of_nat n)%Z
                   then bump (Z.to_nat v) hist else hist)
    xs (map g (seq 0 n))
  = map (fun b => (g b + count_occ Z.eq_dec xs (Z.of_nat b))%nat) (seq 0 n).
Proof.
  induction xs as [|x xs IH]; intros g; simpl.
  - apply map_ext. intros b. lia.
  - destruct ((0 <=? x)%Z && (x <? Z.of_nat n)%Z) eqn:E.
    + apply andb_true_iff in E. destruct E as [E1 E2].
      apply Z.leb_le in E1. apply Z.ltb_lt in E2.
      rewrite bump_seq by lia. rewrite IH.
      apply map_ext. intros b. simpl.
      destruct (Z.eq_dec x (Z.of_nat b)) as [->|Hne].
      * rewrite Nat2Z.id, Nat.eqb_refl. lia.
      * destruct (Nat.eqb_spec b (Z.to_nat x)); [|reflexivity].
        subst b. rewrite Z2Nat.id in Hne by lia. contradiction.
    + rewrite IH. apply map_ext_in. intros b Hb. apply in_seq in Hb.
      destruct (Z.eq_dec x (Z.of_nat b)) as [->|Hne]; [|reflexivity].
      exfalso. apply andb_false_iff in E. destruct E as [E|E].
      * apply Z.leb_gt in E. lia.
      * apply Z.ltb_ge in E. lia.
Qed.

Lemma repeat_map_seq {A} (a : A) n : forall s, repeat a n = map (fun _ => a) (seq s n).
Proof. induction n as [|n IH]; intros s; simpl; [reflexivity | now rewrite (IH (S s))]. Qed.

(** The histogram holds, bin by bin, the number of pixels with that value. *)
Lemma cv2_calcHist_count_occ img bins :
  cv2_calcHist img bins
  = map (fun b => count_occ Z.eq_dec (List.concat img) (Z.of_nat b)) (seq 0 bins).
Proof.
  unfold cv2_calcHist. rewrite (repeat_map_seq 0%nat bins 0%nat).
  now rewrite calcHist_counts.
Qed.

Lemma indicator_sum (x : nat) n : forall s, (s <= x < s + n)%nat ->
  list_sum (map (fun b => if Z.eq_dec (Z.of_nat x) (Z.of_nat b) then 1 else 0)%nat
                (seq s n)) = 1%nat.
Proof.
  induction n as [|n IH]; intros s Hx; [lia|]. simpl.
  destruct (Z.eq_dec (Z.of_nat x) (Z.of_nat s)) as [E|E].
  - apply Nat2Z.inj in E. subst s.
    clear IH. assert (H : forall m t, (x < t)%nat ->
      list_sum (map (fun b => if Z.eq_dec (Z.of_nat x) (Z.of_nat b) then 1 else 0)%nat
                    (seq t m)) = 0%nat).
    { induction m as [|m IHm]; intros t Ht; simpl; [reflexivity|].
      destruct (Z.eq_dec (Z.of_nat x) (Z.of_nat t)) as [E|E];
        [apply Nat2Z.inj in E; lia|]. apply IHm. lia. }
    rewrite H by lia. reflexivity.
  - apply IH. assert (x <> s) by congruence. lia.
Qed.

Lemma list_sum_map_add {A} (f g : A -> nat) l :
  list_sum (map (fun b => f b + g b)%nat l) = (list_sum (map f l) + list_sum (map g l))%nat.
Proof. induction l as [|a l IH]; simpl; [reflexivity | rewrite IH; lia]. Qed.

(** Raw counts: the bins of in-range values add up to the number of pixels. *)
Lemma count_occ_total (xs : list Z) n :
  (forall v, In v xs -> (0 <= v < Z.of_nat n)%Z) ->
  list_sum (map (fun b => count_occ Z.eq_dec xs (Z.of_nat b)) (seq 0 n)) = List.length xs.
Proof.
  induction xs as [|x xs IH]; intros Hr; simpl.
  - induction (seq 0 n); simpl; auto.
  - rewrite <- IH by (intros v Hv; apply Hr; now right).
    assert (Hx : (0 <= x < Z.of_nat n)%Z) by (apply Hr; now left).
    change (S ?a) with (1 + a)%nat.
    rewrite <- (indicator_sum (Z.to_nat x) n 0%nat) at 1 by lia.
    rewrite <- list_sum_map_add. f_equal. apply map_ext. intros b.
    rewrite Z2Nat.id by lia.
    destruct (Z.eq_dec x (Z.of_nat b)); reflexivity.
Qed.

Lemma rescaled_buffer_range img v :
  In v (List.concat (rescaled_buffer img)) -> (0 <= v < 256)%Z.
Proof.
  unfold rescaled_buffer, astype_uint8_of_float. intros H.
  apply in_concat in H. destruct H as [row [Hrow Hv]].
  apply in_map_iff in Hrow. destruct Hrow as [row0 [<- _]].
  apply in_map_iff in Hv. destruct Hv as [x [<- _]].
  unfold q_to_uint8. apply Z.mod_pos_bound. lia.
Qed.

Lemma np_sum_zero {A} (f : A -> R) l :
  (forall a, In a l -> f a = 0%R) -> np_sum (map f l) = 0%R.
Proof.
  induction l as [|a l IH]; intros H; simpl; [reflexivity|].
  rewrite H by now left. rewrite IH by (intros; apply H; now right). lra.
Qed.

Lemma np_sum_single (f : nat -> R) b n : forall s,
  (s <= b < s + n)%nat -> (forall b', b' <> b -> f b' = 0%R) ->
  np_sum (map f (seq s n)) = f b.
Proof.
  induction n as [|n IH]; intros s Hb Hz; [lia|]. simpl.
  destruct (Nat.eq_dec s b) as [->|Hne].
  - rewrite np_sum_zero; [lra|].
    intros a Ha. apply in_seq in Ha. apply Hz. lia.
  - rewrite (Hz s Hne), IH by (auto; lia). lra.
Qed.

Lemma count_occ_constant (xs : list Z) (v w : Z) :
  (forall x, In x xs -> x = v) ->
  count_occ Z.eq_dec xs w = if Z.eq_dec v w then List.length xs else 0%nat.
Proof.
  induction xs as [|x xs IH]; intros H; simpl.
  - now destruct (Z.eq_dec v w).
  - rewrite IH by (intros; apply H; now right).
    rewrite (H x) by now left.
    destruct (Z.eq_dec v w); reflexivity.
Qed.

(** C6: for a file whose pixel data reads, the entropy the statistics
    extractor returns is minus the sum, over the 256 bins, of
    [count * log2(count + 1e-7)], where [count] is the number of pixels of
    the rescaled 8-bit buffer holding the bin's value; the counts are raw
    (they add up to the number of pixels, not to one); in particular, when
    all [n] pixels of the rescaled buffer fall in one bin the entropy is
    [- n * log2(n + 1e-7)]. *)
Theorem entropy_over_raw_bin_counts fs dicom_file img :
  dcmread_pixel_array fs dicom_file = Ok img ->
  let buffer := List.concat (rescaled_buffer img) in
  let count := fun b : nat => count_occ Z.eq_dec buffer (Z.of_nat b) in
  exists mean std entropy,
    extract_image_statistics fs dicom_file
    = (Ok (Some [ ("MeanIntensity", PyFloat mean);
                  ("StdIntensity", PyFloat std);
                  ("Entropy", PyFloat entropy) ]), []) /\
    entropy
    = (- np_sum (map (fun b => INR (count b) * (ln (INR (count b) + 1e-7) / ln 2))
                     (seq 0 256)))%R /\
    list_sum (map count (seq 0 256)) = List.length buffer /\
    (forall b, (b < 256)%nat -> (forall v, In v buffer -> v = Z.of_nat b) ->
       entropy
       = (- (INR (List.length buffer)
             * (ln (INR (List.length buffer) + 1e-7) / ln 2)))%R).
Proof.
  intros Hread buffer count.
  assert (Hent : entropy_of_hist (map INR (cv2_calcHist (rescaled_buffer img) 256))
                 = (- np_sum (map (fun b => INR (count b)
                                    * (ln (INR (count b) + 1e-7) / ln 2))
                                  (seq 0 256)))%R).
  { unfold entropy_of_hist. rewrite cv2_calcHist_count_occ, !map_map. reflexivity. }
  do 3 eexists. split; [exact (extract_image_statistics_ok _ _ img Hread)|].
  split; [exact Hent|]. split.
  - apply count_occ_total. intros v Hv. change (Z.of_nat 256) with 256%Z.
    exact (rescaled_buffer_range img v Hv).
  - intros b Hb Hconst. rewrite Hent. f_equal.
    rewrite (np_sum_single _ b); [|lia|].
    2:{ intros b' Hne. unfold count.
        rewrite (count_occ_constant _ (Z.of_nat b)) by exact Hconst.
        destruct (Z.eq_dec (Z.of_nat b) (Z.of_nat b')) as [E|E];
          [apply Nat2Z.inj in E; congruence | simpl; lra]. }
    unfold count. rewrite (count_occ_constant _ (Z.of_nat b)) by exact Hconst.
    destruct (Z.eq_dec (Z.of_nat b) (Z.of_nat b)); [reflexivity | contradiction].
Qed.

(** ** Rounding to a binary floating-point format *)

Lemma pow2_pos (z : Z) : (0 < 2 ^ z)%Q.
Proof. apply Qpower_0_lt. reflexivity. Qed.

Lemma pow2_plus (a b : Z) : (2 ^ (a + b) == 2 ^ a * 2 ^ b)%Q.
Proof. apply Qpower_plus. discriminate. Qed.

Lemma pow2_le (a b : Z) : (a <= b)%Z -> (2 ^ a <= 2 ^ b)%Q.
Proof. intros H. apply Qpower_le_compat_l; [exact H | discriminate]. Qed.

Lemma pow2_lt_inv (a b : Z) : (2 ^ a < 2 ^ b)%Q -> (a < b)%Z.
Proof. intros H. apply (Qpower_lt_compat_l_inv 2); [exact H | reflexivity]. Qed.

Lemma pow2_inject (z : Z) : (0 <= z)%Z -> (inject_Z (2 ^ z) == 2 ^ z)%Q.
Proof. intros H. now rewrite Zpower_Qpower. Qed.

Lemma ilog2_le (q : Q) : (0 < q)%Q -> (2 ^ ilog2 q <= q)%Q.
Proof.
  intros Hq. unfold ilog2.
  set (e := (Z.log2 (Qnum q) - Z.log2 (Z.pos (Qden q)))%Z).
  destruct (Qle_bool (2 ^ e) q) eqn:E; [now apply Qle_bool_iff|].
  destruct q as [n d]. cbn [Qnum Qden] in e.
  assert (Hn : (0 < n)%Z) by (unfold Qlt in Hq; simpl in Hq; lia).
  pose proof (Z.log2_spec n Hn) as [Hlo _].
  pose proof (Z.log2_spec (Z.pos d) (Pos2Z.is_pos d)) as [_ Hhi].
  assert (Hln : (0 <= Z.log2 n)%Z) by apply Z.log2_nonneg.
  assert (Hld : (0 <= Z.log2 (Z.pos d))%Z) by apply Z.log2_nonneg.
  assert (HA : (2 ^ (e - 1) * 2 ^ (Z.succ (Z.log2 (Z.pos d))) == 2 ^ Z.log2 n)%Q).
  { rewrite <- pow2_plus. replace (e - 1 + Z.succ (Z.log2 (Z.pos d)))%Z with (Z.log2 n) by (unfold e; lia).
    reflexivity. }
  assert (HB : (inject_Z (Z.pos d) <= 2 ^ (Z.succ (Z.log2 (Z.pos d))))%Q).
  { rewrite <- pow2_inject by lia. rewrite <- Zle_Qle. lia. }
  assert (HC : (2 ^ Z.log2 n <= inject_Z n)%Q).
  { rewrite <- pow2_inject by lia. rewrite <- Zle_Qle. lia. }
  assert (Hd : (0 < inject_Z (Z.pos d))%Q) by reflexivity.
  rewrite (Qmake_Qdiv n d).
  apply Qle_shift_div_l; [exact Hd|].
  pose proof (pow2_pos (e - 1)) as Hp.
  apply Qle_trans with (2 ^ (e - 1) * 2 ^ Z.succ (Z.log2 (Z.pos d)))%Q.
  - apply Qmult_le_l; [exact Hp | exact HB].
  - rewrite HA. exact HC.
Qed.

Lemma ilog2_lt (q : Q) : (0 < q)%Q -> (q < 2 ^ (ilog2 q + 1))%Q.
Proof.
  intros Hq. unfold ilog2.
  set (e := (Z.log2 (Qnum q) - Z.log2 (Z.pos (Qden q)))%Z).
  destruct (Qle_bool (2 ^ e) q) eqn:E.
  - destruct q as [n d]. cbn [Qnum Qden] in e.
    assert (Hn : (0 < n)%Z) by (unfold Qlt in Hq; simpl in Hq; lia).
    pose proof (Z.log2_spec n Hn) as [_ Hhi].
    pose proof (Z.log2_spec (Z.pos d) (Pos2Z.is_pos d)) as [Hlo _].
    assert (Hln : (0 <= Z.log2 n)%Z) by apply Z.log2_nonneg.
    assert (Hld : (0 <= Z.log2 (Z.pos d))%Z) by apply Z.log2_nonneg.
    assert (HA : (2 ^ (e + 1) * 2 ^ Z.log2 (Z.pos d) == 2 ^ Z.succ (Z.log2 n))%Q).
    { rewrite <- pow2_plus.
      replace (e + 1 + Z.log2 (Z.pos d))%Z with (Z.succ (Z.log2 n)) by (unfold e; lia).
      reflexivity. }
    assert (HB : (2 ^ Z.log2 (Z.pos d) <= inject_Z (Z.pos d))%Q).
    { rewrite <- pow2_inject by lia. rewrite <- Zle_Qle. lia. }
    assert (HC : (inject_Z n < 2 ^ Z.succ (Z.log2 n))%Q).
    { rewrite <- pow2_inject by lia. rewrite <- Zlt_Qlt. lia. }
    assert (Hd : (0 < inject_Z (Z.pos d))%Q) by reflexivity.
    rewrite (Qmake_Qdiv n d).
    apply Qlt_shift_div_r; [exact Hd|].
    pose proof (pow2_pos (e + 1)) as Hp.
    apply Qlt_le_trans with (2 ^ (e + 1) * 2 ^ Z.log2 (Z.pos d))%Q.
    + rewrite HA. exact HC.
    + apply Qmult_le_l; [exact Hp | exact HB].
  - replace (e - 1 + 1)%Z with e by lia.
    apply Qnot_le_lt. intros H. apply Qle_bool_iff in H. congruence.
Qed.

(** Single and double precision on a few values: a third, a tie that
    goes to the even neighbour, a tenth. *)
Lemma round_float_samples :
  float32 (1 # 3) = (11184811 # 33554432)%Q /\
  float32 16777217 = 16777216%Q /\
  float32 16777219 = 16777220%Q /\
  float32 (- (16777219)) = (- (16777220))%Q /\
  float64 (1 # 10) = (3602879701896397 # 36028797018963968)%Q.
Proof. repeat split; vm_compute; reflexivity. Qed.

Lemma round_half_even_error (q : Q) :
  (q - (1 # 2) <= inject_Z (round_half_even q) <= q + (1 # 2))%Q.
Proof.
  unfold round_half_even.
  pose proof (Qfloor_le q) as Hlo. pose proof (Qlt_floor q) as Hhi.
  rewrite inject_Z_plus in Hhi. change (inject_Z 1) with 1%Q in Hhi.
  destruct (q - inject_Z (Qfloor q) ?= 1 # 2)%Q eqn:E.
  - apply Qeq_alt in E.
    destruct (Z.even (Qfloor q)); [|rewrite inject_Z_plus; change (inject_Z 1) with 1%Q];
      split; Lqa.lra.
  - apply Qlt_alt in E. split; Lqa.lra.
  - apply Qgt_alt in E. rewrite inject_Z_plus. change (inject_Z 1) with 1%Q.
    split; Lqa.lra.
Qed.

Lemma round_half_even_integer (q : Q) (n : Z) :
  (q == inject_Z n)%Q -> round_half_even q = n.
Proof.
  intros H. unfold round_half_even.
  rewrite (Qfloor_comp _ _ H), Qfloor_Z.
  assert (E : (q - inject_Z n ?= 1 # 2)%Q = Lt).
  { apply (proj1 (Qlt_alt _ _)). Lqa.lra. }
  now rewrite E.
Qed.

Lemma round_float_compat (prec : Z) (q q' : Q) :
  (q == q')%Q -> round_float prec q = round_float prec q'.
Proof. intros H. unfold round_float. now rewrite (Qred_complete _ _ H). Qed.

#[global] Instance round_float_proper (prec : Z) :
  Proper (Qeq ==> Qeq) (round_float prec).
Proof. intros q q' H. now rewrite (round_float_compat prec q q' H). Qed.

Lemma round_float_zero (prec : Z) (q : Q) : (q == 0)%Q -> round_float prec q = 0%Q.
Proof. intros H. rewrite (round_float_compat prec q 0 H). reflexivity. Qed.

Lemma Qabs_nonzero (q : Q) : ~ (q == 0)%Q -> (0 < Qabs q)%Q.
Proof.
  intros Hnz. destruct (Qlt_le_dec q 0) as [Hneg|Hpos].
  - rewrite Qabs_neg by Lqa.lra. Lqa.lra.
  - rewrite Qabs_pos by exact Hpos.
    apply Qle_lteq in Hpos. destruct Hpos as [H|H]; [exact H|].
    exfalso. apply Hnz. now symmetry.
Qed.

(** Half a unit in the last place bounds the error. *)
Lemma round_float_ulp (prec : Z) (q : Q) :
  ~ (q == 0)%Q ->
  let h := (2 ^ (ilog2 (Qabs (Qred q)) - prec))%Q in
  (h <= Qabs q * 2 ^ (- prec) /\ q - h <= round_float prec q <= q + h)%Q.
Proof.
  intros Hnz h.
  assert (Hq : (Qred q == q)%Q) by apply Qred_correct.
  assert (Ha : (Qabs (Qred q) == Qabs q)%Q) by (now rewrite Hq).
  pose proof (Qabs_nonzero q Hnz) as Habs.
  split.
  - unfold h. unfold Z.sub. rewrite pow2_plus. rewrite <- Ha.
    apply Qmult_le_compat_r; [|apply Qlt_le_weak, pow2_pos].
    apply ilog2_le. now rewrite Ha.
  - unfold round_float.
    destruct (Qeq_bool (Qred q) 0) eqn:E.
    + apply Qeq_bool_iff in E. exfalso. apply Hnz. now rewrite <- Hq.
    + rewrite Qred_correct.
      set (u := (2 ^ (ilog2 (Qabs (Qred q)) - prec + 1))%Q).
      assert (Hu : (0 < u)%Q) by apply pow2_pos.
      assert (Eh : (u == 2 * h)%Q).
      { unfold u, h. rewrite pow2_plus. change (2 ^ 1)%Q with 2%Q. ring. }
      pose proof (round_half_even_error (Qred q / u)) as [Hlo Hhi].
      assert (Hm : (Qred q / u * u == q)%Q).
      { rewrite Hq. field. Lqa.lra. }
      assert (H1 : ((Qred q / u - (1 # 2)) * u <= inject_Z (round_half_even (Qred q / u)) * u)%Q)
        by (apply Qmult_le_compat_r; [exact Hlo | Lqa.lra]).
      assert (H2 : (inject_Z (round_half_even (Qred q / u)) * u <= (Qred q / u + (1 # 2)) * u)%Q)
        by (apply Qmult_le_compat_r; [exact Hhi | Lqa.lra]).
      assert (E1 : ((Qred q / u - (1 # 2)) * u == q - h)%Q).
      { setoid_replace ((Qred q / u - (1 # 2)) * u)%Q with (Qred q / u * u - (1 # 2) * u)%Q by ring.
        rewrite Hm, Eh. ring. }
      assert (E2 : ((Qred q / u + (1 # 2)) * u == q + h)%Q).
      { setoid_replace ((Qred q / u + (1 # 2)) * u)%Q with (Qred q / u * u + (1 # 2) * u)%Q by ring.
        rewrite Hm, Eh. ring. }
      rewrite E1 in H1. rewrite E2 in H2. split; assumption.
Qed.

(** Absolute error for a value below [2 ^ k] in magnitude. *)
Lemma round_float_abs_error (prec k : Z) (q : Q) :
  (- 2 ^ k < q < 2 ^ k)%Q ->
  (q - 2 ^ (k - 1 - prec) <= round_float prec q <= q + 2 ^ (k - 1 - prec))%Q.
Proof.
  intros [Hlo Hhi].
  pose proof (pow2_pos (k - 1 - prec)) as Hp.
  destruct (Qeq_dec q 0) as [Hz|Hnz].
  - rewrite (round_float_zero prec q Hz). rewrite Hz. split; Lqa.lra.
  - destruct (round_float_ulp prec q Hnz) as [_ [H1 H2]].
    assert (Hq : (Qred q == q)%Q) by apply Qred_correct.
    assert (Ha : (Qabs (Qred q) == Qabs q)%Q) by (now rewrite Hq).
    pose proof (Qabs_nonzero q Hnz) as Habs.
    assert (He : (ilog2 (Qabs (Qred q)) < k)%Z).
    { apply pow2_lt_inv. apply Qle_lt_trans with (Qabs (Qred q)).
      - apply ilog2_le. now rewrite Ha.
      - rewrite Ha. apply Qabs_Qlt_condition. split; assumption. }
    assert (Hh : (2 ^ (ilog2 (Qabs (Qred q)) - prec) <= 2 ^ (k - 1 - prec))%Q)
      by (apply pow2_le; lia).
    split; Lqa.lra.
Qed.

(** Relative error. *)
Lemma round_float_rel_error (prec : Z) (q : Q) :
  (0 < q)%Q ->
  (q - q * 2 ^ (- prec) <= round_float prec q <= q + q * 2 ^ (- prec))%Q.
Proof.
  intros Hq.
  assert (Hnz : ~ (q == 0)%Q) by (intros E; rewrite E in Hq; discriminate Hq).
  destruct (round_float_ulp prec q Hnz) as [Hh [H1 H2]].
  rewrite (Qabs_pos q) in Hh by Lqa.lra.
  split; Lqa.lra.
Qed.

(** A value with a [prec]-bit significand is left alone. *)
Lemma round_float_exact (prec : Z) (q : Q) (n g : Z) :
  (q == inject_Z n * 2 ^ g)%Q -> (Z.abs n < 2 ^ prec)%Z -> (0 <= prec)%Z ->
  round_float prec q = Qred q.
Proof.
  intros Hq Hn Hprec. unfold round_float.
  destruct (Qeq_bool (Qred q) 0) eqn:E.
  - apply Qeq_bool_iff in E. apply Qred_complete in E.
    rewrite (Qred_complete _ _ (Qred_correct q)) in E. symmetry. exact E.
  - apply Qred_complete.
    assert (Hr : (Qred q == q)%Q) by apply Qred_correct.
    assert (Hnz : ~ (q == 0)%Q).
    { intros H0. rewrite <- Hr in H0. apply Qeq_bool_iff in H0. congruence. }
    assert (Ha : (Qabs (Qred q) == Qabs q)%Q) by (now rewrite Hr).
    pose proof (Qabs_nonzero q Hnz) as Habs.
    set (e := ilog2 (Qabs (Qred q))).
    assert (He : (2 ^ e <= Qabs q)%Q) by (rewrite <- Ha; apply ilog2_le; now rewrite Ha).
    assert (Habsq : (Qabs q == inject_Z (Z.abs n) * 2 ^ g)%Q).
    { rewrite Hq, Qabs_Qmult. rewrite (Qabs_pos (2 ^ g)) by (apply Qlt_le_weak, pow2_pos).
      reflexivity. }
    assert (Hlt : (2 ^ e < 2 ^ (prec + g))%Q).
    { apply Qle_lt_trans with (Qabs q); [exact He|].
      rewrite Habsq, pow2_plus. apply Qmult_lt_compat_r; [apply pow2_pos|].
      rewrite <- pow2_inject by exact Hprec. rewrite <- Zlt_Qlt. exact Hn. }
    apply pow2_lt_inv in Hlt.
    set (g' := (e - prec + 1)%Z).
    assert (Hg : (0 <= g - g')%Z) by (unfold g'; lia).
    assert (Hm : (Qred q / 2 ^ g' == inject_Z (n * 2 ^ (g - g')))%Q).
    { rewrite Hr, Hq, inject_Z_mult, pow2_inject by exact Hg.
      replace g with ((g - g') + g')%Z at 1 by lia. rewrite pow2_plus.
      field. pose proof (pow2_pos g'). Lqa.lra. }
    rewrite (round_half_even_integer _ _ Hm).
    rewrite inject_Z_mult, pow2_inject by exact Hg.
    rewrite <- Qmult_assoc, <- pow2_plus.
    replace (g - g' + g')%Z with g by lia. now rewrite Hq.
Qed.

Lemma Qred_inject_Z (x : Z) : Qred (inject_Z x) = inject_Z x.
Proof.
  unfold Qred, inject_Z.
  pose proof (Z.ggcd_gcd x 1) as Hg.
  pose proof (Z.ggcd_correct_divisors x 1) as Hd.
  destruct (Z.ggcd x 1) as [g [aa bb]]. cbn [fst snd] in *.
  rewrite Z.gcd_1_r in Hg. subst g. destruct Hd as [Ha Hb].
  rewrite Z.mul_1_l in Ha, Hb. now subst.
Qed.

Lemma float_of_integer (prec x : Z) :
  (0 <= prec)%Z -> (Z.abs x < 2 ^ prec)%Z -> round_float prec (inject_Z x) = inject_Z x.
Proof.
  intros Hp Hx.
  assert (H : (inject_Z x == inject_Z x * 2 ^ 0)%Q)
    by (change (2 ^ 0)%Q with 1%Q; ring).
  rewrite (round_float_exact prec _ x 0 H Hx Hp).
  apply Qred_inject_Z.
Qed.

Lemma round_float_exact_eq (prec : Z) (q : Q) (n g : Z) :
  (q == inject_Z n * 2 ^ g)%Q -> (Z.abs n < 2 ^ prec)%Z -> (0 <= prec)%Z ->
  (round_float prec q == q)%Q.
Proof.
  intros Hq Hn Hp. rewrite (round_float_exact prec q n g Hq Hn Hp). apply Qred_correct.
Qed.

(** ** C7: min-max rescaling in single precision, and the statistics of the rescaled buffer *)

Lemma minmax_scale_translate (lo hi : Z) (dmin dmax : Q) :
  minmax_scale (inject_Z lo) (inject_Z hi) dmin dmax
  = minmax_scale 0 (inject_Z (hi - lo)) dmin dmax.
Proof.
  unfold minmax_scale.
  assert (E : float64 (inject_Z hi - inject_Z lo) = float64 (inject_Z (hi - lo) - 0)).
  { apply round_float_compat. unfold Z.sub. rewrite inject_Z_plus, inject_Z_opp. ring. }
  now rewrite E.
Qed.

Lemma float64_range (d : Z) :
  (Z.abs d < 2 ^ 53)%Z -> float64 (inject_Z d - 0) = inject_Z d.
Proof.
  intros Hd. unfold float64.
  rewrite (round_float_compat 53 (inject_Z d - 0) (inject_Z d)) by ring.
  apply float_of_integer; [lia | exact Hd].
Qed.

Lemma range_above_epsilon (d : Z) : (1 <= d)%Z -> Qle_bool (inject_Z d) DBL_EPSILON = false.
Proof.
  intros Hd. destruct (Qle_bool (inject_Z d) DBL_EPSILON) eqn:E; [|reflexivity].
  apply Qle_bool_iff in E. unfold Qle, DBL_EPSILON in E. simpl in E. lia.
Qed.

(** The single-precision scale is [255 / d] up to a relative error of [2^-23]. *)
Lemma minmax_scale_bounds (d : Z) :
  (1 <= d < 2 ^ 53)%Z ->
  let a := minmax_scale 0 (inject_Z d) 0 255 in
  (0 < a /\
   255 - (255 # 8388608) <= a * inject_Z d <= 255 + (255 # 8388608))%Q.
Proof.
  intros Hd a. unfold a, minmax_scale.
  rewrite (float64_range d) by lia.
  rewrite (range_above_epsilon d) by lia.
  assert (E255 : float64 (255 - 0) = 255%Q) by (vm_compute; reflexivity).
  rewrite E255.
  set (D := inject_Z d).
  assert (HD : (1 <= D)%Q) by (unfold D; rewrite <- (Zle_Qle 1); lia).
  set (i := (1 / D)%Q).
  assert (Hid : (i * D == 1)%Q) by (unfold i; field; Lqa.lra).
  assert (Hi : (0 < i)%Q).
  { unfold i. apply Qlt_shift_div_l; Lqa.lra. }
  set (r := float64 i).
  pose proof (round_float_rel_error 53 i Hi) as H1. fold float64 in H1. fold r in H1.
  change (2 ^ (- (53)))%Q with (1 # 9007199254740992)%Q in H1.
  assert (Hr : (0 < r)%Q) by Lqa.lra.
  set (s := float64 (255 * r)).
  assert (H255r : (0 < 255 * r)%Q) by Lqa.lra.
  pose proof (round_float_rel_error 53 (255 * r) H255r) as H2. fold float64 in H2. fold s in H2.
  change (2 ^ (- (53)))%Q with (1 # 9007199254740992)%Q in H2.
  assert (Hs : (0 < s)%Q) by Lqa.lra.
  pose proof (round_float_rel_error 24 s Hs) as H3. fold float32 in H3.
  change (2 ^ (- (24)))%Q with (1 # 16777216)%Q in H3.
  set (a' := float32 s) in *.
  assert (Hlo : ((255 - (255 # 8388608)) * i <= a')%Q) by Lqa.lra.
  assert (Hhi : (a' <= (255 + (255 # 8388608)) * i)%Q) by Lqa.lra.
  split; [Lqa.lra|].
  assert (HD0 : (0 <= D)%Q) by Lqa.lra.
  pose proof (Qmult_le_compat_r _ _ D Hlo HD0) as G1.
  pose proof (Qmult_le_compat_r _ _ D Hhi HD0) as G2.
  setoid_replace ((255 - (255 # 8388608)) * i * D)%Q
    with ((255 - (255 # 8388608)) * (i * D))%Q in G1 by ring.
  setoid_replace ((255 + (255 # 8388608)) * i * D)%Q
    with ((255 + (255 # 8388608)) * (i * D))%Q in G2 by ring.
  rewrite Hid in G1, G2. split; Lqa.lra.
Qed.

(** Error of the scaled conversion for a range of at least 4 grey values. *)
Lemma convert_scaled_error (a : Q) (lo x d : Z) :
  (-65535 <= lo)%Z -> (lo <= x <= lo + d)%Z -> (lo + d <= 65535)%Z -> (4 <= d)%Z ->
  (0 < a)%Q ->
  (255 - (255 # 8388608) <= a * inject_Z d <= 255 + (255 # 8388608))%Q ->
  let t := convert_scaled a (minmax_shift (inject_Z lo) 0 a) (inject_Z x) in
  let E := (inject_Z (255 * (x - lo)) / inject_Z d)%Q in
  (E - (2 # 5) <= t <= E + (2 # 5))%Q.
Proof.
  intros Hlo Hx Hhi Hd Ha [HaD1 HaD2] t E.
  set (D := inject_Z d) in *. set (X := inject_Z x) in *. set (L := inject_Z lo) in *.
  assert (HD : (4 <= D)%Q) by (unfold D; rewrite <- (Zle_Qle 4); lia).
  assert (HX : (-65535 <= X <= 65535)%Q)
    by (unfold X; rewrite <- (Zle_Qle (-65535)), <- (Zle_Qle _ 65535); lia).
  assert (HL : (-65535 <= L <= 65535)%Q)
    by (unfold L; rewrite <- (Zle_Qle (-65535)), <- (Zle_Qle _ 65535); lia).
  assert (HXL : (0 <= X - L <= D)%Q).
  { unfold X, L, D. split.
    - setoid_replace (inject_Z x - inject_Z lo)%Q with (inject_Z (x - lo))
        by (unfold Z.sub; rewrite inject_Z_plus, inject_Z_opp; ring).
      rewrite <- (Zle_Qle 0). lia.
    - setoid_replace (inject_Z x - inject_Z lo)%Q with (inject_Z (x - lo))
        by (unfold Z.sub; rewrite inject_Z_plus, inject_Z_opp; ring).
      rewrite <- Zle_Qle. lia. }
  assert (HE : (E * D == 255 * (X - L))%Q).
  { unfold E, X, L. rewrite inject_Z_mult. unfold Z.sub.
    rewrite inject_Z_plus, inject_Z_opp. change (inject_Z 255) with 255%Q.
    fold D. field. Lqa.lra. }
  assert (Ha4 : (a * 4 <= a * D)%Q) by (apply Qmult_le_l; assumption).
  assert (Ha64 : (a <= 64 - (1 # 5))%Q) by Lqa.lra.
  (* the two products *)
  assert (Hy : (-4194300 <= X * a <= 4194300)%Q) by (split; Lqa.nra).
  assert (Hz : (-4194300 <= L * a <= 4194300)%Q) by (split; Lqa.nra).
  unfold t, convert_scaled, minmax_shift.
  set (y := (X * a)%Q) in *. set (z := (L * a)%Q) in *.
  pose proof (round_float_abs_error 24 22 y) as Hp. fold float32 in Hp.
  change (2 ^ 22)%Q with 4194304%Q in Hp.
  change (2 ^ (22 - 1 - 24))%Q with (1 # 8)%Q in Hp.
  specialize (Hp ltac:(split; Lqa.lra)).
  set (p := float32 y) in *.
  pose proof (round_float_abs_error 53 22 z) as Hz1. fold float64 in Hz1.
  change (2 ^ 22)%Q with 4194304%Q in Hz1.
  change (2 ^ (22 - 1 - 53))%Q with (1 # 4294967296)%Q in Hz1.
  specialize (Hz1 ltac:(split; Lqa.lra)).
  set (z1 := float64 z) in *.
  pose proof (round_float_abs_error 24 22 z1) as Hz2. fold float32 in Hz2.
  change (2 ^ 22)%Q with 4194304%Q in Hz2.
  change (2 ^ (22 - 1 - 24))%Q with (1 # 8)%Q in Hz2.
  specialize (Hz2 ltac:(split; Lqa.lra)).
  set (z2 := float32 z1) in *.
  assert (E0 : float32 0 = 0%Q) by reflexivity.
  rewrite E0.
  pose proof (round_float_abs_error 24 22 (0 - z2)) as Hb. fold float32 in Hb.
  change (2 ^ 22)%Q with 4194304%Q in Hb.
  change (2 ^ (22 - 1 - 24))%Q with (1 # 8)%Q in Hb.
  specialize (Hb ltac:(split; Lqa.lra)).
  set (b := float32 (0 - z2)) in *.
  (* the exact product against the exact linear image *)
  assert (Hyz : (y - z == (X - L) * a)%Q) by (unfold y, z; ring).
  assert (Hc1 : ((X - L) * a <= E + (255 # 8388608))%Q).
  { apply Qmult_le_r with D; [Lqa.lra|].
    setoid_replace ((E + (255 # 8388608)) * D)%Q with (E * D + (255 # 8388608) * D)%Q by ring.
    rewrite HE.
    setoid_replace ((X - L) * a * D)%Q with ((X - L) * (a * D))%Q by ring.
    Lqa.nra. }
  assert (Hc2 : (E - (255 # 8388608) <= (X - L) * a)%Q).
  { apply Qmult_le_r with D; [Lqa.lra|].
    setoid_replace ((E - (255 # 8388608)) * D)%Q with (E * D - (255 # 8388608) * D)%Q by ring.
    rewrite HE.
    setoid_replace ((X - L) * a * D)%Q with ((X - L) * (a * D))%Q by ring.
    Lqa.nra. }
  assert (HE0 : (0 <= E <= 255)%Q).
  { split.
    - apply Qmult_le_r with D; [Lqa.lra|]. rewrite HE. Lqa.lra.
    - apply Qmult_le_r with D; [Lqa.lra|]. rewrite HE. Lqa.lra. }
  pose proof (round_float_abs_error 24 9 (p + b)) as Ht. fold float32 in Ht.
  change (2 ^ 9)%Q with 512%Q in Ht.
  change (2 ^ (9 - 1 - 24))%Q with (1 # 65536)%Q in Ht.
  specialize (Ht ltac:(split; Lqa.lra)).
  split; Lqa.lra.
Qed.

(** With a scale of few significant bits every step of the conversion is exact. *)
Lemma convert_scaled_exact (a : Q) (m g lo x : Z) :
  (a == inject_Z m * 2 ^ g)%Q ->
  (Z.abs (x * m) < 2 ^ 24)%Z -> (Z.abs (lo * m) < 2 ^ 24)%Z ->
  (Z.abs ((x - lo) * m) < 2 ^ 24)%Z ->
  (convert_scaled a (minmax_shift (inject_Z lo) 0 a) (inject_Z x)
   == inject_Z (x - lo) * a)%Q.
Proof.
  intros Ha Hx Hlo Hd. unfold convert_scaled, minmax_shift, float32, float64.
  assert (Ep : (round_float 24 (inject_Z x * a) == inject_Z x * a)%Q).
  { apply (round_float_exact_eq 24 _ (x * m) g); [|exact Hx|lia].
    rewrite Ha, inject_Z_mult. ring. }
  assert (Ez1 : (round_float 53 (inject_Z lo * a) == inject_Z lo * a)%Q).
  { apply (round_float_exact_eq 53 _ (lo * m) g); [|lia|lia].
    rewrite Ha, inject_Z_mult. ring. }
  assert (Ez2 : (round_float 24 (inject_Z lo * a) == inject_Z lo * a)%Q).
  { apply (round_float_exact_eq 24 _ (lo * m) g); [|exact Hlo|lia].
    rewrite Ha, inject_Z_mult. ring. }
  assert (E0 : round_float 24 0 = 0%Q) by reflexivity.
  assert (Eb : (round_float 24 (0 - inject_Z lo * a) == - (inject_Z lo * a))%Q).
  { rewrite (round_float_exact_eq 24 _ (- (lo * m)) g); [ring| |lia|lia].
    rewrite Ha, inject_Z_opp, inject_Z_mult. ring. }
  rewrite Ep, Ez1, Ez2, E0, Eb.
  rewrite (round_float_exact_eq 24 _ ((x - lo) * m) g); [|  |exact Hd|lia].
  - unfold Z.sub. rewrite inject_Z_plus, inject_Z_opp. ring.
  - rewrite Ha, inject_Z_mult. unfold Z.sub. rewrite inject_Z_plus, inject_Z_opp. ring.
Qed.

Lemma minmax_scale_small :
  minmax_scale 0 (inject_Z 1) 0 255 = 255%Q /\
  minmax_scale 0 (inject_Z 2) 0 255 = (255 # 2)%Q /\
  minmax_scale 0 (inject_Z 3) 0 255 = 85%Q.
Proof. repeat split; vm_compute; reflexivity. Qed.

(** The value handed to the 8-bit cast, against the exact linear image. *)
Lemma rescale_error (lo hi x : Z) :
  (-65535 <= lo)%Z -> (lo <= x <= hi)%Z -> (hi <= 65535)%Z -> (lo < hi)%Z ->
  let scale := minmax_scale (inject_Z lo) (inject_Z hi) 0 255 in
  let shift := minmax_shift (inject_Z lo) 0 scale in
  let E := (inject_Z (255 * (x - lo)) / inject_Z (hi - lo))%Q in
  (E - (2 # 5) <= convert_scaled scale shift (inject_Z x) <= E + (2 # 5))%Q.
Proof.
  intros Hlo Hx Hhi Hlt scale shift E. unfold E, shift, scale.
  rewrite minmax_scale_translate.
  remember (hi - lo)%Z as d eqn:Hd.
  destruct (Z_lt_le_dec d 4) as [Hsmall|Hwide].
  - assert (Hexact : forall m g,
              (minmax_scale 0 (inject_Z d) 0 255 == inject_Z m * 2 ^ g)%Q ->
              (0 < m <= 255)%Z ->
              (inject_Z (x - lo) * (inject_Z m * 2 ^ g)
               == inject_Z (255 * (x - lo)) / inject_Z d)%Q ->
              (inject_Z (255 * (x - lo)) / inject_Z d - (2 # 5)
               <= convert_scaled (minmax_scale 0 (inject_Z d) 0 255)
                    (minmax_shift (inject_Z lo) 0 (minmax_scale 0 (inject_Z d) 0 255))
                    (inject_Z x)
               <= inject_Z (255 * (x - lo)) / inject_Z d + (2 # 5))%Q).
    { intros m g Ha Hm HE.
      rewrite (convert_scaled_exact _ m g lo x Ha) by (change (2 ^ 24)%Z with 16777216%Z; nia).
      rewrite Ha, HE. split; Lqa.lra. }
    destruct minmax_scale_small as [E1 [E2 E3]].
    assert (Hcases : d = 1%Z \/ d = 2%Z \/ d = 3%Z) by lia.
    assert (Hxl : (inject_Z (255 * (x - lo)) == 255 * inject_Z (x - lo))%Q)
      by (rewrite inject_Z_mult; reflexivity).
    clear Hd Hsmall.
    destruct Hcases as [ -> | [ -> | -> ] ].
    + apply (Hexact 255%Z 0%Z); [rewrite E1; reflexivity | lia |].
      rewrite Hxl. change (2 ^ 0)%Q with 1%Q. change (inject_Z 255) with 255%Q.
      change (inject_Z 1) with 1%Q. field.
    + apply (Hexact 255%Z (-1)%Z); [rewrite E2; reflexivity | lia |].
      rewrite Hxl. change (2 ^ (-1))%Q with (1 # 2)%Q. change (inject_Z 255) with 255%Q.
      change (inject_Z 2) with 2%Q. field.
    + apply (Hexact 85%Z 0%Z); [rewrite E3; reflexivity | lia |].
      rewrite Hxl. change (2 ^ 0)%Q with 1%Q. change (inject_Z 85) with 85%Q.
      change (inject_Z 3) with 3%Q. field.
  - destruct (minmax_scale_bounds d) as [Ha HaD].
    { change (2 ^ 53)%Z with 9007199254740992%Z. lia. }
    apply (convert_scaled_error _ lo x d); try assumption; lia.
Qed.

Lemma Qmin_inject a b : Qmin (inject_Z a) (inject_Z b) = inject_Z (Z.min a b).
Proof.
  unfold Qmin, GenericMinMax.gmin, Z.min, Qcompare, inject_Z. simpl.
  rewrite !Z.mul_1_r. destruct (a ?= b)%Z; reflexivity.
Qed.

Lemma Qmax_inject a b : Qmax (inject_Z a) (inject_Z b) = inject_Z (Z.max a b).
Proof.
  unfold Qmax, GenericMinMax.gmax, Z.max, Qcompare, inject_Z. simpl.
  rewrite !Z.mul_1_r. destruct (a ?= b)%Z eqn:E; try reflexivity.
Qed.

Lemma fold_Qmin_inject l : forall a,
  fold_left Qmin (map inject_Z l) (inject_Z a) = inject_Z (fold_left Z.min l a).
Proof. induction l as [|x l IH]; intros a; simpl; [reflexivity|]. now rewrite Qmin_inject, IH. Qed.

Lemma fold_Qmax_inject l : forall a,
  fold_left Qmax (map inject_Z l) (inject_Z a) = inject_Z (fold_left Z.max l a).
Proof. induction l as [|x l IH]; intros a; simpl; [reflexivity|]. now rewrite Qmax_inject, IH. Qed.

Lemma fold_min_spec l : forall a,
  In (fold_left Z.min l a) (a :: l) /\ forall x, In x (a :: l) -> (fold_left Z.min l a <= x)%Z.
Proof.
  induction l as [|y l IH]; intros a; simpl.
  - split; [now left|]. intros x [<-|[]]. lia.
  - destruct (IH (Z.min a y)) as [Hin Hle]. split.
    + destruct Hin as [Hin|Hin]; [|now right; right].
      rewrite <- Hin. destruct (Z.min_spec a y) as [[_ ->]|[_ ->]]; tauto.
    + intros x [<-|[<-|Hx]].
      * etransitivity; [apply Hle; now left|]. lia.
      * etransitivity; [apply Hle; now left|]. lia.
      * apply Hle. now right.
Qed.

Lemma fold_max_spec l : forall a,
  In (fold_left Z.max l a) (a :: l) /\ forall x, In x (a :: l) -> (x <= fold_left Z.max l a)%Z.
Proof.
  induction l as [|y l IH]; intros a; simpl.
  - split; [now left|]. intros x [<-|[]]. lia.
  - destruct (IH (Z.max a y)) as [Hin Hle]. split.
    + destruct Hin as [Hin|Hin]; [|now right; right].
      rewrite <- Hin. destruct (Z.max_spec a y) as [[_ ->]|[_ ->]]; tauto.
    + intros x [<-|[<-|Hx]].
      * etransitivity; [|apply Hle; now left]. lia.
      * etransitivity; [|apply Hle; now left]. lia.
      * apply Hle. now right.
Qed.

Lemma q_min_inject xs lo :
  In lo xs -> (forall x, In x xs -> (lo <= x)%Z) -> q_min (map inject_Z xs) = inject_Z lo.
Proof.
  intros Hin Hle. destruct xs as [|a l]; [contradiction|]. simpl.
  rewrite fold_Qmin_inject. f_equal.
  destruct (fold_min_spec l a) as [Hm Hmle].
  apply Z.le_antisymm; [now apply Hmle | now apply Hle].
Qed.

Lemma q_max_inject xs hi :
  In hi xs -> (forall x, In x xs -> (x <= hi)%Z) -> q_max (map inject_Z xs) = inject_Z hi.
Proof.
  intros Hin Hle. destruct xs as [|a l]; [contradiction|]. simpl.
  rewrite fold_Qmax_inject. f_equal.
  destruct (fold_max_spec l a) as [Hm Hmle].
  apply Z.le_antisymm; [now apply Hle | now apply Hmle].
Qed.

(** The C cast to [uint8] of a value in [(-1, 256)]. *)
Lemma q_to_uint8_trunc (t : Q) :
  (-1 < t < 256)%Q ->
  (0 <= q_to_uint8 t <= 255)%Z /\
  (t - 1 < inject_Z (q_to_uint8 t))%Q /\
  ((0 <= t)%Q -> (inject_Z (q_to_uint8 t) <= t)%Q) /\
  ((t < 1)%Q -> q_to_uint8 t = 0%Z).
Proof.
  intros [Hlo Hhi]. destruct t as [n d]. unfold q_to_uint8. cbn [Qnum Qden].
  destruct (Z_lt_le_dec n 0) as [Hneg|Hpos].
  - assert (Hn : (- Z.pos d < n)%Z) by (unfold Qlt in Hlo; simpl in Hlo; lia).
    assert (Hq : (Z.quot n (Z.pos d) = 0)%Z).
    { replace n with (- (- n))%Z by lia. rewrite Z.quot_opp_l by lia.
      rewrite Z.quot_small by lia. reflexivity. }
    rewrite Hq. change (0 mod 256)%Z with 0%Z. repeat split; try lia.
    + change (inject_Z 0) with 0%Q. unfold Qlt. simpl. lia.
    + intros H0. unfold Qle in H0. simpl in H0. lia.
  - rewrite Z.quot_div_nonneg by lia.
    change (n / Z.pos d)%Z with (Qfloor (n # d)).
    pose proof (Qfloor_le (n # d)) as Hf1. pose proof (Qlt_floor (n # d)) as Hf2.
    assert (H0 : (0 <= Qfloor (n # d))%Z).
    { change 0%Z with (Qfloor 0). apply Qfloor_resp_le. unfold Qle. simpl. lia. }
    assert (H255 : (Qfloor (n # d) < 256)%Z).
    { rewrite Zlt_Qlt. apply Qle_lt_trans with (n # d); assumption. }
    rewrite Z.mod_small by lia. repeat split; try lia.
    + rewrite inject_Z_plus in Hf2. change (inject_Z 1) with 1%Q in Hf2. Lqa.lra.
    + intros _. exact Hf1.
    + intros H1. assert (Qfloor (n # d) < 1)%Z; [|lia].
      rewrite Zlt_Qlt. apply Qle_lt_trans with (n # d); assumption.
Qed.

Lemma astype_float32_exact (img : image) :
  (forall x, In x (List.concat img) -> (Z.abs x < 2 ^ 24)%Z) ->
  astype_float32 img = map (map inject_Z) img.
Proof.
  intros H. unfold astype_float32. apply map_ext_in. intros row Hrow.
  apply map_ext_in. intros x Hx. apply float_of_integer; [lia|].
  apply H. apply in_concat. exists row. split; assumption.
Qed.

(** The rescaled buffer, pixel by pixel, for 24-bit pixel values. *)
Lemma rescaled_buffer_pointwise img lo hi :
  In lo (List.concat img) -> (forall x, In x (List.concat img) -> (lo <= x)%Z) ->
  In hi (List.concat img) -> (forall x, In x (List.concat img) -> (x <= hi)%Z) ->
  (- 2 ^ 24 < lo)%Z -> (hi < 2 ^ 24)%Z ->
  let scale := minmax_scale (inject_Z lo) (inject_Z hi) 0 255 in
  let shift := minmax_shift (inject_Z lo) 0 scale in
  rescaled_buffer img
  = map (map (fun x => q_to_uint8 (convert_scaled scale shift (inject_Z x)))) img.
Proof.
  intros Hlo Hmin Hhi Hmax Hl Hh scale shift.
  unfold rescaled_buffer, astype_uint8_of_float, cv2_normalize_minmax.
  rewrite astype_float32_exact
    by (intros x Hx; specialize (Hmin x Hx); specialize (Hmax x Hx); lia).
  rewrite <- !concat_map.
  rewrite (q_min_inject _ lo Hlo Hmin), (q_max_inject _ hi Hhi Hmax).
  rewrite !map_map. apply map_ext. intros row. rewrite !map_map. reflexivity.
Qed.

Lemma minmax_scale_flat (smin smax dmin dmax : Q) :
  (smax - smin == 0)%Q -> minmax_scale smin smax dmin dmax = 0%Q.
Proof.
  intros H. unfold minmax_scale, float64.
  rewrite (round_float_zero 53 (smax - smin) H).
  change (Qle_bool 0 DBL_EPSILON) with true. cbv iota.
  rewrite (round_float_zero 53 (round_float 53 (dmax - dmin) * 0)) by ring.
  reflexivity.
Qed.

Lemma convert_scaled_flat (smin x : Q) :
  convert_scaled 0 (minmax_shift smin 0 0) x = 0%Q.
Proof.
  unfold convert_scaled, minmax_shift, float32, float64.
  rewrite (round_float_zero 53 (smin * 0)) by ring.
  rewrite (round_float_zero 24 (x * 0)) by ring.
  reflexivity.
Qed.

Lemma fold_Qmin_constant (c : Q) l :
  (forall y, In y l -> y = c) -> fold_left Qmin l c = c.
Proof.
  induction l as [|y l IH]; intros H; simpl; [reflexivity|].
  rewrite (H y (or_introl eq_refl)).
  assert (E : Qmin c c = c) by (unfold Qmin, GenericMinMax.gmin; destruct (c ?= c)%Q; reflexivity).
  rewrite E. apply IH. intros; apply H; now right.
Qed.

Lemma fold_Qmax_constant (c : Q) l :
  (forall y, In y l -> y = c) -> fold_left Qmax l c = c.
Proof.
  induction l as [|y l IH]; intros H; simpl; [reflexivity|].
  rewrite (H y (or_introl eq_refl)).
  assert (E : Qmax c c = c) by (unfold Qmax, GenericMinMax.gmax; destruct (c ?= c)%Q; reflexivity).
  rewrite E. apply IH. intros; apply H; now right.
Qed.

Lemma flat_range (c : Q) l :
  (forall y, In y l -> y = c) -> (q_max l - q_min l == 0)%Q.
Proof.
  intros H. destruct l as [|y l]; [reflexivity|]. simpl.
  rewrite (H y (or_introl eq_refl)).
  rewrite fold_Qmin_constant, fold_Qmax_constant by (intros; apply H; now right).
  ring.
Qed.

Lemma rescaled_buffer_constant img v :
  (forall x, In x (List.concat img) -> x = v) ->
  rescaled_buffer img = map (map (fun _ => 0%Z)) img.
Proof.
  intros Hconst.
  assert (Hflat : forall y, In y (List.concat (astype_float32 img)) ->
                            y = float32 (inject_Z v)).
  { intros y Hy. unfold astype_float32 in Hy. apply in_concat in Hy.
    destruct Hy as [row' [Hrow' Hy]]. apply in_map_iff in Hrow'.
    destruct Hrow' as [row [<- Hrow]]. apply in_map_iff in Hy.
    destruct Hy as [x [<- Hx]]. f_equal. f_equal. apply Hconst.
    apply in_concat. exists row. split; assumption. }
  unfold rescaled_buffer, astype_uint8_of_float, cv2_normalize_minmax.
  rewrite (minmax_scale_flat _ _ _ _ (flat_range _ _ Hflat)).
  change (Qmin 0 255) with 0%Q. unfold astype_float32.
  rewrite !map_map. apply map_ext. intros row. rewrite !map_map.
  apply map_ext. intros x. now rewrite convert_scaled_flat.
Qed.

(** What the rescaling guarantees for 16-bit pixel values. *)
Lemma rescale_properties (lo hi x : Z) :
  (-65535 <= lo)%Z -> (lo <= x <= hi)%Z -> (hi <= 65535)%Z -> (lo < hi)%Z ->
  let scale := minmax_scale (inject_Z lo) (inject_Z hi) 0 255 in
  let shift := minmax_shift (inject_Z lo) 0 scale in
  let v := q_to_uint8 (convert_scaled scale shift (inject_Z x)) in
  let E := (inject_Z (255 * (x - lo)) / inject_Z (hi - lo))%Q in
  (0 <= v <= 255)%Z /\ (E - (7 # 5) < inject_Z v <= E + (2 # 5))%Q.
Proof.
  intros Hlo Hx Hhi Hlt scale shift v E.
  pose proof (rescale_error lo hi x Hlo Hx Hhi Hlt) as Ht. cbv zeta in Ht.
  fold scale in Ht. fold shift in Ht. fold E in Ht.
  set (t := convert_scaled scale shift (inject_Z x)) in *.
  assert (HD : (0 < inject_Z (hi - lo))%Q) by (rewrite <- (Zlt_Qlt 0); lia).
  assert (HED : (E * inject_Z (hi - lo) == inject_Z (255 * (x - lo)))%Q)
    by (unfold E; field; Lqa.lra).
  assert (HE : (0 <= E <= 255)%Q).
  { split.
    - apply Qmult_le_r with (inject_Z (hi - lo)); [exact HD|]. rewrite HED.
      rewrite Qmult_0_l. rewrite <- (Zle_Qle 0). lia.
    - apply Qmult_le_r with (inject_Z (hi - lo)); [exact HD|]. rewrite HED.
      change 255%Q with (inject_Z 255). rewrite <- inject_Z_mult, <- Zle_Qle. lia. }
  destruct (q_to_uint8_trunc t) as [Hv [Hlow [Hup Hzero]]]; [split; Lqa.lra|].
  fold v in Hv, Hlow, Hup, Hzero.
  split; [exact Hv|]. split; [Lqa.lra|].
  destruct (Qlt_le_dec t 0) as [Hneg|Hpos].
  - rewrite Hzero by Lqa.lra. change (inject_Z 0) with 0%Q. Lqa.lra.
  - specialize (Hup Hpos). Lqa.lra.
Qed.

(** *** The same guarantees with a fused multiply-add *)

Lemma convert_scaled_fused_error (a : Q) (lo x d : Z) :
  (-65535 <= lo)%Z -> (lo <= x <= lo + d)%Z -> (lo + d <= 65535)%Z -> (4 <= d)%Z ->
  (0 < a)%Q ->
  (255 - (255 # 8388608) <= a * inject_Z d <= 255 + (255 # 8388608))%Q ->
  let t := convert_scaled_fused a (minmax_shift (inject_Z lo) 0 a) (inject_Z x) in
  let E := (inject_Z (255 * (x - lo)) / inject_Z d)%Q in
  (E - (2 # 5) <= t <= E + (2 # 5))%Q.
Proof.
  intros Hlo Hx Hhi Hd Ha [HaD1 HaD2] t E.
  set (D := inject_Z d) in *. set (X := inject_Z x) in *. set (L := inject_Z lo) in *.
  assert (HD : (4 <= D)%Q) by (unfold D; rewrite <- (Zle_Qle 4); lia).
  assert (HX : (-65535 <= X <= 65535)%Q)
    by (unfold X; rewrite <- (Zle_Qle (-65535)), <- (Zle_Qle _ 65535); lia).
  assert (HL : (-65535 <= L <= 65535)%Q)
    by (unfold L; rewrite <- (Zle_Qle (-65535)), <- (Zle_Qle _ 65535); lia).
  assert (HXL : (0 <= X - L <= D)%Q).
  { unfold X, L, D. split.
    - setoid_replace (inject_Z x - inject_Z lo)%Q with (inject_Z (x - lo))
        by (unfold Z.sub; rewrite inject_Z_plus, inject_Z_opp; ring).
      rewrite <- (Zle_Qle 0). lia.
    - setoid_replace (inject_Z x - inject_Z lo)%Q with (inject_Z (x - lo))
        by (unfold Z.sub; rewrite inject_Z_plus, inject_Z_opp; ring).
      rewrite <- Zle_Qle. lia. }
  assert (HE : (E * D == 255 * (X - L))%Q).
  { unfold E, X, L. rewrite inject_Z_mult. unfold Z.sub.
    rewrite inject_Z_plus, inject_Z_opp. change (inject_Z 255) with 255%Q.
    fold D. field. Lqa.lra. }
  assert (Ha4 : (a * 4 <= a * D)%Q) by (apply Qmult_le_l; assumption).
  assert (Ha64 : (a <= 64 - (1 # 5))%Q) by Lqa.lra.
  assert (Hz : (-4194300 <= L * a <= 4194300)%Q) by (split; Lqa.nra).
  unfold t, convert_scaled_fused, minmax_shift.
  set (y := (X * a)%Q) in *. set (z := (L * a)%Q) in *.
  pose proof (round_float_abs_error 53 22 z) as Hz1. fold float64 in Hz1.
  change (2 ^ 22)%Q with 4194304%Q in Hz1.
  change (2 ^ (22 - 1 - 53))%Q with (1 # 4294967296)%Q in Hz1.
  specialize (Hz1 ltac:(split; Lqa.lra)).
  set (z1 := float64 z) in *.
  pose proof (round_float_abs_error 24 22 z1) as Hz2. fold float32 in Hz2.
  change (2 ^ 22)%Q with 4194304%Q in Hz2.
  change (2 ^ (22 - 1 - 24))%Q with (1 # 8)%Q in Hz2.
  specialize (Hz2 ltac:(split; Lqa.lra)).
  set (z2 := float32 z1) in *.
  assert (E0 : float32 0 = 0%Q) by reflexivity.
  rewrite E0.
  pose proof (round_float_abs_error 24 22 (0 - z2)) as Hb. fold float32 in Hb.
  change (2 ^ 22)%Q with 4194304%Q in Hb.
  change (2 ^ (22 - 1 - 24))%Q with (1 # 8)%Q in Hb.
  specialize (Hb ltac:(split; Lqa.lra)).
  set (b := float32 (0 - z2)) in *.
  assert (Hyz : (y - z == (X - L) * a)%Q) by (unfold y, z; ring).
  assert (Hc1 : ((X - L) * a <= E + (255 # 8388608))%Q).
  { apply Qmult_le_r with D; [Lqa.lra|].
    setoid_replace ((E + (255 # 8388608)) * D)%Q with (E * D + (255 # 8388608) * D)%Q by ring.
    rewrite HE.
    setoid_replace ((X - L) * a * D)%Q with ((X - L) * (a * D))%Q by ring.
    Lqa.nra. }
  assert (Hc2 : (E - (255 # 8388608) <= (X - L) * a)%Q).
  { apply Qmult_le_r with D; [Lqa.lra|].
    setoid_replace ((E - (255 # 8388608)) * D)%Q with (E * D - (255 # 8388608) * D)%Q by ring.
    rewrite HE.
    setoid_replace ((X - L) * a * D)%Q with ((X - L) * (a * D))%Q by ring.
    Lqa.nra. }
  assert (HE0 : (0 <= E <= 255)%Q).
  { split.
    - apply Qmult_le_r with D; [Lqa.lra|]. rewrite HE. Lqa.lra.
    - apply Qmult_le_r with D; [Lqa.lra|]. rewrite HE. Lqa.lra. }
  pose proof (round_float_abs_error 24 9 (y + b)) as Ht. fold float32 in Ht.
  change (2 ^ 9)%Q with 512%Q in Ht.
  change (2 ^ (9 - 1 - 24))%Q with (1 # 65536)%Q in Ht.
  specialize (Ht ltac:(split; Lqa.lra)).
  split; Lqa.lra.
Qed.

Lemma convert_scaled_fused_exact (a : Q) (m g lo x : Z) :
  (a == inject_Z m * 2 ^ g)%Q ->
  (Z.abs (lo * m) < 2 ^ 24)%Z -> (Z.abs ((x - lo) * m) < 2 ^ 24)%Z ->
  (convert_scaled_fused a (minmax_shift (inject_Z lo) 0 a) (inject_Z x)
   == inject_Z (x - lo) * a)%Q.
Proof.
  intros Ha Hlo Hd. unfold convert_scaled_fused, minmax_shift, float32, float64.
  assert (Ez1 : (round_float 53 (inject_Z lo * a) == inject_Z lo * a)%Q).
  { apply (round_float_exact_eq 53 _ (lo * m) g); [|lia|lia].
    rewrite Ha, inject_Z_mult. ring. }
  assert (Ez2 : (round_float 24 (inject_Z lo * a) == inject_Z lo * a)%Q).
  { apply (round_float_exact_eq 24 _ (lo * m) g); [|exact Hlo|lia].
    rewrite Ha, inject_Z_mult. ring. }
  assert (E0 : round_float 24 0 = 0%Q) by reflexivity.
  assert (Eb : (round_float 24 (0 - inject_Z lo * a) == - (inject_Z lo * a))%Q).
  { rewrite (round_float_exact_eq 24 _ (- (lo * m)) g); [ring| |lia|lia].
    rewrite Ha, inject_Z_opp, inject_Z_mult. ring. }
  rewrite Ez1, Ez2, E0, Eb.
  rewrite (round_float_exact_eq 24 _ ((x - lo) * m) g); [|  |exact Hd|lia].
  - unfold Z.sub. rewrite inject_Z_plus, inject_Z_opp. ring.
  - rewrite Ha, inject_Z_mult. unfold Z.sub. rewrite inject_Z_plus, inject_Z_opp. ring.
Qed.

(** Whether or not the platform fuses the multiply-add, the value handed
    to the 8-bit cast is within 2/5 of the exact linear image, so the
    guarantees of the rescaling are the same. *)
Lemma rescale_properties_fused (lo hi x : Z) :
  (-65535 <= lo)%Z -> (lo <= x <= hi)%Z -> (hi <= 65535)%Z -> (lo < hi)%Z ->
  let scale := minmax_scale (inject_Z lo) (inject_Z hi) 0 255 in
  let shift := minmax_shift (inject_Z lo) 0 scale in
  let v := q_to_uint8 (convert_scaled_fused scale shift (inject_Z x)) in
  let E := (inject_Z (255 * (x - lo)) / inject_Z (hi - lo))%Q in
  (0 <= v <= 255)%Z /\ (E - (7 # 5) < inject_Z v <= E + (2 # 5))%Q.
Proof.
  intros Hlo Hx Hhi Hlt scale shift v E.
  assert (Ht : (E - (2 # 5) <= convert_scaled_fused scale shift (inject_Z x)
                <= E + (2 # 5))%Q).
  { unfold E, shift, scale. rewrite minmax_scale_translate.
    remember (hi - lo)%Z as d eqn:Hd.
    destruct (Z_lt_le_dec d 4) as [Hsmall|Hwide].
    - assert (Hexact : forall m g,
                (minmax_scale 0 (inject_Z d) 0 255 == inject_Z m * 2 ^ g)%Q ->
                (0 < m <= 255)%Z ->
                (inject_Z (x - lo) * (inject_Z m * 2 ^ g)
                 == inject_Z (255 * (x - lo)) / inject_Z d)%Q ->
                (inject_Z (255 * (x - lo)) / inject_Z d - (2 # 5)
                 <= convert_scaled_fused (minmax_scale 0 (inject_Z d) 0 255)
                      (minmax_shift (inject_Z lo) 0 (minmax_scale 0 (inject_Z d) 0 255))
                      (inject_Z x)
                 <= inject_Z (255 * (x - lo)) / inject_Z d + (2 # 5))%Q).
      { intros m g Ha Hm HE.
        rewrite (convert_scaled_fused_exact _ m g lo x Ha)
          by (change (2 ^ 24)%Z with 16777216%Z; nia).
        rewrite Ha, HE. split; Lqa.lra. }
      destruct minmax_scale_small as [E1 [E2 E3]].
      assert (Hcases : d = 1%Z \/ d = 2%Z \/ d = 3%Z) by lia.
      assert (Hxl : (inject_Z (255 * (x - lo)) == 255 * inject_Z (x - lo))%Q)
        by (rewrite inject_Z_mult; reflexivity).
      clear Hd Hsmall.
      destruct Hcases as [ -> | [ -> | -> ] ].
      + apply (Hexact 255%Z 0%Z); [rewrite E1; reflexivity | lia |].
        rewrite Hxl. change (2 ^ 0)%Q with 1%Q. change (inject_Z 255) with 255%Q.
        change (inject_Z 1) with 1%Q. field.
      + apply (Hexact 255%Z (-1)%Z); [rewrite E2; reflexivity | lia |].
        rewrite Hxl. change (2 ^ (-1))%Q with (1 # 2)%Q. change (inject_Z 255) with 255%Q.
        change (inject_Z 2) with 2%Q. field.
      + apply (Hexact 85%Z 0%Z); [rewrite E3; reflexivity | lia |].
        rewrite Hxl. change (2 ^ 0)%Q with 1%Q. change (inject_Z 85) with 85%Q.
        change (inject_Z 3) with 3%Q. field.
    - destruct (minmax_scale_bounds d) as [Ha HaD].
      { change (2 ^ 53)%Z with 9007199254740992%Z. lia. }
      apply (convert_scaled_fused_error _ lo x d); try assumption; lia. }
  set (t := convert_scaled_fused scale shift (inject_Z x)) in *.
  assert (HD : (0 < inject_Z (hi - lo))%Q) by (rewrite <- (Zlt_Qlt 0); lia).
  assert (HED : (E * inject_Z (hi - lo) == inject_Z (255 * (x - lo)))%Q)
    by (unfold E; field; Lqa.lra).
  assert (HE : (0 <= E <= 255)%Q).
  { split.
    - apply Qmult_le_r with (inject_Z (hi - lo)); [exact HD|]. rewrite HED.
      rewrite Qmult_0_l. rewrite <- (Zle_Qle 0). lia.
    - apply Qmult_le_r with (inject_Z (hi - lo)); [exact HD|]. rewrite HED.
      change 255%Q with (inject_Z 255). rewrite <- inject_Z_mult, <- Zle_Qle. lia. }
  destruct (q_to_uint8_trunc t) as [Hv [Hlow [Hup Hzero]]]; [split; Lqa.lra|].
  fold v in Hv, Hlow, Hup, Hzero.
  split; [exact Hv|]. split; [Lqa.lra|].
  destruct (Qlt_le_dec t 0) as [Hneg|Hpos].
  - rewrite Hzero by Lqa.lra. change (inject_Z 0) with 0%Q. Lqa.lra.
  - specialize (Hup Hpos). Lqa.lra.
Qed.

(** C7, as stated, fails twice.  Single-precision rounding can leave the
    maximum one grey level short: for the pixels 0 and 7 the scale is
    [float32(255/7)], seven times it rounds to 254.99998, and the cast
    truncates to 254.  And on a constant buffer [cv2.normalize] takes
    scale 0, so every pixel (the maximum included) maps to 0. *)
Lemma rescale_maximum_counterexample :
  dcmread_pixel_array step_slice_dir ["Image-1.dcm"] = Ok step_image /\
  In 7%Z (List.concat step_image) /\
  (forall x, In x (List.concat step_image) -> (x <= 7)%Z) /\
  rescaled_buffer step_image = [[0; 254]]%Z /\
  ~ In 255%Z (List.concat (rescaled_buffer step_image)) /\
  rescaled_buffer flat_image = [[0; 0]; [0; 0]]%Z.
Proof.
  split; [reflexivity|]. split; [simpl; tauto|]. split.
  - simpl. intros x H. repeat (destruct H as [<-|H]; [lia|]). contradiction.
  - assert (E : rescaled_buffer step_image = [[0; 254]]%Z) by (vm_compute; reflexivity).
    split; [exact E|]. split.
    + rewrite E. simpl. intros H.
      repeat (destruct H as [H|H]; [discriminate H|]). exact H.
    + vm_compute. reflexivity.
Qed.

(** C7 (amended): for a file whose pixel data reads and whose pixel values
    are at most 65535 in magnitude, with minimum [lo] and maximum [hi],
    the statistics extractor works on the buffer rescaled by OpenCV's
    single-precision min-max normalisation and truncated to 8 bits.  The
    minimum maps to 0; when [lo < hi] the maximum maps to 255 or to 254,
    every pixel stays within 0..255 and lands less than 7/5 below and at
    most 2/5 above its exact linear image [255 * (x - lo) / (hi - lo)];
    when the buffer is constant every pixel maps to 0.  The mean it
    returns is the mean of that rescaled buffer and the standard deviation
    is the population one (divisor: the number of pixels) of that rescaled
    buffer. *)
Theorem statistics_on_minmax_rescaled_buffer fs dicom_file img lo hi :
  dcmread_pixel_array fs dicom_file = Ok img ->
  In lo (List.concat img) -> (forall x, In x (List.concat img) -> (lo <= x)%Z) ->
  In hi (List.concat img) -> (forall x, In x (List.concat img) -> (x <= hi)%Z) ->
  (-65535 <= lo)%Z -> (hi <= 65535)%Z ->
  let scale := minmax_scale (inject_Z lo) (inject_Z hi) 0 255 in
  let shift := minmax_shift (inject_Z lo) 0 scale in
  let rescale := fun x => q_to_uint8 (convert_scaled scale shift (inject_Z x)) in
  let buffer := List.concat (map (map rescale) img) in
  let n := INR (List.length buffer) in
  let mean := (np_sum (map IZR buffer) / n)%R in
  let std :=
    sqrt (np_sum (map (fun v => (IZR v - mean) * (IZR v - mean))%R buffer) / n)%R in
  rescaled_buffer img = map (map rescale) img /\
  rescale lo = 0%Z /\
  ((lo < hi)%Z -> (254 <= rescale hi <= 255)%Z) /\
  (lo = hi -> rescale hi = 0%Z) /\
  (forall x, In x (List.concat img) ->
     (0 <= rescale x <= 255)%Z /\
     ((lo < hi)%Z ->
      let linear := (inject_Z (255 * (x - lo)) / inject_Z (hi - lo))%Q in
      (linear - (7 # 5) < inject_Z (rescale x) <= linear + (2 # 5))%Q)) /\
  exists entropy,
    extract_image_statistics fs dicom_file
    = (Ok (Some [ ("MeanIntensity", PyFloat mean);
                  ("StdIntensity", PyFloat std);
                  ("Entropy", PyFloat entropy) ]), []).
Proof.
  intros Hread Hlo Hmin Hhi Hmax Hl Hh scale shift rescale buffer n mean std.
  assert (Hbuf : rescaled_buffer img = map (map rescale) img).
  { apply rescaled_buffer_pointwise; try assumption;
      change (2 ^ 24)%Z with 16777216%Z; lia. }
  assert (Hflat : lo = hi -> forall x, rescale x = 0%Z).
  { intros <- x. unfold rescale, shift, scale.
    rewrite (minmax_scale_flat (inject_Z lo) (inject_Z lo) 0 255) by ring.
    now rewrite convert_scaled_flat. }
  assert (Hprop : (lo < hi)%Z -> forall x, (lo <= x <= hi)%Z ->
            (0 <= rescale x <= 255)%Z /\
            (inject_Z (255 * (x - lo)) / inject_Z (hi - lo) - (7 # 5)
             < inject_Z (rescale x)
             <= inject_Z (255 * (x - lo)) / inject_Z (hi - lo) + (2 # 5))%Q).
  { intros Hlt x Hx. exact (rescale_properties lo hi x Hl Hx Hh Hlt). }
  assert (Hle : (lo <= hi)%Z) by (apply Hmin; exact Hhi).
  split; [exact Hbuf|]. split; [|split; [|split; [|split]]].
  - destruct (Z.eq_dec lo hi) as [E|E]; [now apply Hflat|].
    destruct (Hprop ltac:(lia) lo ltac:(lia)) as [Hv [_ Hup]].
    replace (lo - lo)%Z with 0%Z in Hup by lia.
    assert (H1 : (inject_Z (rescale lo) < inject_Z 1)%Q).
    { change (inject_Z (255 * 0)) with 0%Q in Hup. unfold Qdiv in Hup.
      rewrite Qmult_0_l in Hup. change (inject_Z 1) with 1%Q. Lqa.lra. }
    rewrite <- Zlt_Qlt in H1. lia.
  - intros Hlt. destruct (Hprop Hlt hi ltac:(lia)) as [Hv [Hlow _]].
    assert (HD : (0 < inject_Z (hi - lo))%Q) by (rewrite <- (Zlt_Qlt 0); lia).
    assert (HE : (inject_Z (255 * (hi - lo)) / inject_Z (hi - lo) == 255)%Q).
    { rewrite inject_Z_mult. change (inject_Z 255) with 255%Q. field. Lqa.lra. }
    rewrite HE in Hlow.
    assert (H1 : (inject_Z 253 < inject_Z (rescale hi))%Q)
      by (change (inject_Z 253) with 253%Q; Lqa.lra).
    rewrite <- Zlt_Qlt in H1. lia.
  - intros E. now apply Hflat.
  - intros x Hx. pose proof (Hmin x Hx). pose proof (Hmax x Hx).
    destruct (Z.eq_dec lo hi) as [E|E].
    + split; [rewrite (Hflat E); lia | intros; lia].
    + destruct (Hprop ltac:(lia) x ltac:(lia)) as [Hv Hlin].
      split; [exact Hv | intros _; exact Hlin].
  - eexists. rewrite (extract_image_statistics_ok _ _ img Hread).
    unfold stats_record, np_std, np_mean. rewrite Hbuf. reflexivity.
Qed.

Lemma statistics_on_minmax_rescaled_buffer_witness :
  rescaled_buffer ramp_image = [[0; 85]; [170; 255]]%Z.
Proof.
  assert (Hlo : forall x, In x (List.concat ramp_image) -> (10 <= x)%Z).
  { simpl. intros x H. repeat (destruct H as [<-|H]; [lia|]). contradiction. }
  assert (Hhi : forall x, In x (List.concat ramp_image) -> (x <= 40)%Z).
  { simpl. intros x H. repeat (destruct H as [<-|H]; [lia|]). contradiction. }
  destruct (statistics_on_minmax_rescaled_buffer
              ramp_slice_dir ["Image-1.dcm"] ramp_image 10%Z 40%Z eq_refl
              (or_introl eq_refl) Hlo
              (or_intror (or_intror (or_intror (or_introl eq_refl)))) Hhi
              ltac:(lia) ltac:(lia))
    as [H _].
  rewrite H. vm_compute. reflexivity.
Defined.

Lemma entropy_over_raw_bin_counts_witness :
  exists mean std entropy,
    extract_image_statistics ramp_slice_dir ["Image-1.dcm"]
    = (Ok (Some [ ("MeanIntensity", PyFloat mean);
                  ("StdIntensity", PyFloat std);
                  ("Entropy", PyFloat entropy) ]), []) /\
    list_sum (map (fun b => count_occ Z.eq_dec (List.concat (rescaled_buffer ramp_image))
                                      (Z.of_nat b)) (seq 0 256)) = 4%nat.
Proof.
  destruct (entropy_over_raw_bin_counts ramp_slice_dir ["Image-1.dcm"] ramp_image eq_refl)
    as [mean [std [entropy [H [_ [Hn _]]]]]].
  exists mean, std, entropy. split; [exact H|]. exact Hn.
Defined.

(** ** C8: texture features of the co-occurrence matrix of the unrescaled buffer *)

Lemma offset_pairs_angle_0 img :
  offset_pairs (fst (offset_of_angle_0 1)) (snd (offset_of_angle_0 1)) img
  = horizontal_pairs img.
Proof.
  unfold offset_pairs, horizontal_pairs. simpl.
  induction img as [|row img IH]; simpl; [reflexivity|].
  rewrite IH. reflexivity.
Qed.

Lemma glcm_loop_counts levels pairs :
  Forall (in_levels levels) pairs ->
  forall P0 i j,
    fold_left (glcm_bump levels) pairs P0 i j = (P0 i j + pair_count pairs i j)%nat.
Proof.
  unfold pair_count.
  induction pairs as [|[a b] pairs IH]; intros Hall P0 i j; simpl; [lia|].
  inversion Hall as [|? ? [Ha Hb] Hall']; subst. simpl in Ha, Hb.
  rewrite IH by exact Hall'. unfold glcm_bump.
  destruct (Z.leb_spec 0 a); [|lia]. destruct (Z.ltb_spec a (Z.of_nat levels)); [|lia].
  destruct (Z.leb_spec 0 b); [|lia]. destruct (Z.ltb_spec b (Z.of_nat levels)); [|lia].
  simpl. rewrite (Z.eqb_sym a i), (Z.eqb_sym b j).
  destruct ((i =? a)%Z && (j =? b)%Z); simpl; lia.
Qed.

Lemma indicator_eqb (a : Z) n :
  (0 <= a < Z.of_nat n)%Z ->
  list_sum (map (fun i => if (a =? Z.of_nat i)%Z then 1 else 0)%nat (seq 0 n)) = 1%nat.
Proof.
  intros Ha.
  etransitivity; [|apply (indicator_sum (Z.to_nat a) n 0%nat); lia].
  f_equal. apply map_ext. intros i. rewrite Z2Nat.id by lia.
  destruct (Z.eqb_spec a (Z.of_nat i)); destruct (Z.eq_dec a (Z.of_nat i));
    try reflexivity; contradiction.
Qed.

Lemma list_sum_zero {A} (f : A -> nat) l :
  (forall a, f a = 0%nat) -> list_sum (map f l) = 0%nat.
Proof. intros H. induction l as [|a l IH]; simpl; [reflexivity | now rewrite H, IH]. Qed.

Lemma list_sum_ext {A} (f g : A -> nat) l :
  (forall a, f a = g a) -> list_sum (map f l) = list_sum (map g l).
Proof. intros H. f_equal. now apply map_ext. Qed.

Lemma pair_count_cons a b pairs i j :
  pair_count ((a, b) :: pairs) i j
  = ((if (a =? i)%Z && (b =? j)%Z then 1 else 0) + pair_count pairs i j)%nat.
Proof. unfold pair_count. simpl. now destruct ((a =? i)%Z && (b =? j)%Z). Qed.

Lemma indicator_pair (a b : Z) n :
  (0 <= a < Z.of_nat n)%Z -> (0 <= b < Z.of_nat n)%Z ->
  list_sum (map (fun i => list_sum (map (fun j =>
      if (a =? Z.of_nat i)%Z && (b =? Z.of_nat j)%Z then 1 else 0)%nat (seq 0 n)))
    (seq 0 n)) = 1%nat.
Proof.
  intros Ha Hb.
  etransitivity; [|apply (indicator_eqb a n Ha)].
  apply list_sum_ext. intros i.
  destruct (a =? Z.of_nat i)%Z; simpl.
  - apply (indicator_eqb b n Hb).
  - now apply list_sum_zero.
Qed.

(** Every in-range pair is counted in exactly one cell. *)
Lemma pair_count_total n pairs :
  Forall (in_levels n) pairs ->
  list_sum (map (fun i => list_sum (map (fun j => pair_count pairs (Z.of_nat i) (Z.of_nat j))
                                        (seq 0 n))) (seq 0 n))
  = List.length pairs.
Proof.
  induction pairs as [|[a b] pairs IH]; intros Hall.
  - unfold pair_count. simpl. apply list_sum_zero. intros i.
    now apply list_sum_zero.
  - inversion Hall as [|? ? [Ha Hb] Hall']; subst. simpl in Ha, Hb.
    simpl List.length. rewrite <- (IH Hall').
    etransitivity.
    { apply list_sum_ext. intros i. etransitivity.
      - apply list_sum_ext. intros j. apply pair_count_cons.
      - apply list_sum_map_add. }
    rewrite list_sum_map_add.
    now rewrite (indicator_pair a b n Ha Hb).
Qed.

Lemma pair_count_swap pairs i j :
  pair_count (map (fun p => (snd p, fst p)) pairs) i j = pair_count pairs j i.
Proof.
  unfold pair_count. induction pairs as [|[a b] pairs IH]; simpl; [reflexivity|].
  rewrite (andb_comm (b =? i)%Z). destruct ((a =? j)%Z && (b =? i)%Z); simpl; now rewrite IH.
Qed.

Lemma np_sum_INR {A} (f : A -> nat) l :
  np_sum (map (fun a => INR (f a)) l) = INR (list_sum (map f l)).
Proof.
  induction l as [|a l IH]; simpl; [reflexivity|].
  now rewrite IH, plus_INR.
Qed.

Lemma np_sum_ext {A} (f g : A -> R) l :
  (forall a, In a l -> f a = g a) -> np_sum (map f l) = np_sum (map g l).
Proof. intros H. f_equal. now apply map_ext_in. Qed.

Lemma np_sum_div {A} (f : A -> R) (s : R) l :
  np_sum (map (fun a => f a / s)%R l) = (np_sum (map f l) / s)%R.
Proof.
  induction l as [|a l IH]; simpl; [unfold Rdiv; ring|].
  rewrite IH. unfold Rdiv. ring.
Qed.

Lemma sum_levels_ext levels (f g : Z -> Z -> R) :
  (forall i j, f i j = g i j) -> sum_levels levels f = sum_levels levels g.
Proof.
  intros H. unfold sum_levels. apply np_sum_ext. intros i _.
  apply np_sum_ext. intros j _. apply H.
Qed.

Lemma sum_levels_div levels (f : Z -> Z -> R) s :
  sum_levels levels (fun i j => f i j / s)%R = (sum_levels levels f / s)%R.
Proof.
  unfold sum_levels. rewrite <- np_sum_div. apply np_sum_ext. intros i _.
  apply np_sum_div.
Qed.

Lemma sum_levels_INR levels (c : Z -> Z -> nat) :
  sum_levels levels (fun i j => INR (c i j))
  = INR (list_sum (map (fun i => list_sum (map (fun j => c (Z.of_nat i) (Z.of_nat j))
                                               (seq 0 levels))) (seq 0 levels))).
Proof.
  unfold sum_levels, level_range. rewrite map_map, <- np_sum_INR.
  apply np_sum_ext. intros i _. rewrite map_map. apply np_sum_INR.
Qed.

Lemma list_sum_double_add n (f g : nat -> nat -> nat) :
  list_sum (map (fun i => list_sum (map (fun j => f i j + g i j)%nat (seq 0 n))) (seq 0 n))
  = (list_sum (map (fun i => list_sum (map (f i) (seq 0 n))) (seq 0 n))
     + list_sum (map (fun i => list_sum (map (g i) (seq 0 n))) (seq 0 n)))%nat.
Proof.
  rewrite <- list_sum_map_add. apply list_sum_ext. intros i. apply list_sum_map_add.
Qed.

Lemma uint8_pairs_in_levels img :
  Forall (in_levels 256) (horizontal_pairs (astype_uint8 img)).
Proof.
  apply Forall_forall. intros [a b] H. unfold horizontal_pairs in H.
  apply in_flat_map in H. destruct H as [row [Hrow Hab]].
  assert (Hr : forall v, In v row -> (0 <= v < 256)%Z).
  { intros v Hv. apply (astype_uint8_range img). apply in_concat. eauto. }
  split; simpl.
  - apply Hr. eapply in_combine_l; eauto.
  - apply Hr. apply in_combine_r in Hab. destruct row; simpl in *; tauto.
Qed.

Lemma symmetric_counts_total img :
  let pairs := horizontal_pairs (astype_uint8 img) in
  sum_levels 256 (fun i j => INR (pair_count pairs i j + pair_count pairs j i))
  = INR (2 * List.length pairs).
Proof.
  intros pairs. rewrite sum_levels_INR. f_equal.
  rewrite list_sum_double_add.
  rewrite (pair_count_total 256 pairs (uint8_pairs_in_levels img)).
  assert (E : list_sum (map (fun i => list_sum (map (fun j =>
                pair_count pairs (Z.of_nat j) (Z.of_nat i)) (seq 0 256))) (seq 0 256))
              = List.length pairs).
  { rewrite <- (length_map (fun p => (snd p, fst p)) pairs).
    rewrite <- (pair_count_total 256 (map (fun p => (snd p, fst p)) pairs)).
    - apply list_sum_ext. intros i. apply list_sum_ext. intros j.
      now rewrite pair_count_swap.
    - apply Forall_forall. intros p Hp. apply in_map_iff in Hp.
      destruct Hp as [q [<- Hq]].
      pose proof (uint8_pairs_in_levels img) as Hall.
      rewrite Forall_forall in Hall. destruct (Hall q Hq). split; assumption. }
  rewrite E. lia.
Qed.

Lemma texture_glcm_cooccurrence img i j : texture_glcm img i j = cooccurrence img i j.
Proof.
  unfold texture_glcm, cooccurrence, glcm_normalize, glcm_loop.
  rewrite offset_pairs_angle_0.
  set (pairs := horizontal_pairs (astype_uint8 img)).
  rewrite (sum_levels_ext 256 _
             (fun i j => INR (pair_count pairs i j + pair_count pairs j i)))
    by (intros a b; now rewrite !glcm_loop_counts by apply uint8_pairs_in_levels).
  rewrite !glcm_loop_counts by apply uint8_pairs_in_levels. simpl Nat.add.
  unfold pairs. rewrite symmetric_counts_total. fold pairs.
  destruct (Req_dec_T (INR (2 * List.length pairs)) 0) as [E|E].
  - change 0%R with (INR 0) in E. apply INR_eq in E.
    destruct (Nat.eqb_spec (List.length pairs) 0); [reflexivity | lia].
  - destruct (Nat.eqb_spec (List.length pairs) 0) as [E'|E']; [|reflexivity].
    exfalso. apply E. rewrite E'. reflexivity.
Qed.

Lemma cooccurrence_total img :
  sum_levels 256 (cooccurrence img)
  = if (List.length (horizontal_pairs (astype_uint8 img)) =? 0)%nat then 0%R else 1%R.
Proof.
  unfold cooccurrence. rewrite sum_levels_div, symmetric_counts_total.
  destruct (Nat.eqb_spec (List.length (horizontal_pairs (astype_uint8 img))) 0) as [E|E].
  - rewrite E. simpl. lra.
  - apply Rdiv_diag. apply not_0_INR. lia.
Qed.

(** Normalising again, as [graycoprops] does, changes nothing. *)
Lemma texture_glcm_renormalized img i j :
  glcm_normalize 256 (texture_glcm img) i j = cooccurrence img i j.
Proof.
  unfold glcm_normalize.
  rewrite (sum_levels_ext 256 _ (cooccurrence img)) by apply texture_glcm_cooccurrence.
  rewrite cooccurrence_total, texture_glcm_cooccurrence.
  destruct (List.length (horizontal_pairs (astype_uint8 img)) =? 0)%nat.
  - destruct (Req_dec_T 0 0); [|contradiction]. lra.
  - destruct (Req_dec_T 1 0); lra.
Qed.

(** The texture extractor's buffer is the low byte of the stored value; it
    is not the statistics extractor's rescaled buffer. *)
Lemma texture_buffer_is_not_rescaled :
  astype_uint8 ramp_image = [[10; 20]; [30; 40]]%Z /\
  rescaled_buffer ramp_image = [[0; 85]; [170; 255]]%Z.
Proof. split; vm_compute; reflexivity. Qed.

(** C8: for a file whose pixel data reads, the texture extractor takes the
    buffer cast to 8 bits as it is (each stored value modulo 256, no
    min-max rescaling), counts the pairs of horizontally adjacent pixels
    (distance 1, angle 0) over 256 gray levels, adds the transposed counts
    (symmetric) and divides by their total (normalised, so the matrix sums
    to 1 as soon as there is a pair), and returns exactly the four keys
    contrast, correlation, energy and homogeneity computed from that
    matrix. *)
Theorem texture_from_unrescaled_cooccurrence fs dicom_file img :
  dcmread_pixel_array fs dicom_file = Ok img ->
  let buffer := map (map (fun x => (x mod 256)%Z)) img in
  let pairs := flat_map (fun row => combine row (tl row)) buffer in
  let norm := if (List.length pairs =? 0)%nat then 1%R else INR (2 * List.length pairs) in
  exists P : Z -> Z -> R,
    (forall i j, P i j = (INR (pair_count pairs i j + pair_count pairs j i) / norm)%R) /\
    (forall i j, P i j = P j i) /\
    (pairs <> [] -> sum_levels 256 P = 1%R) /\
    extract_glcm_features fs dicom_file
    = (Ok (Some
         [ ("GLCM_Contrast",
            PyFloat (sum_levels 256 (fun i j => P i j * (IZR (i - j) * IZR (i - j)))%R));
           ("GLCM_Correlation", PyFloat (prop_correlation 256 P));
           ("GLCM_Energy",
            PyFloat (sqrt (sum_levels 256 (fun i j => P i j * P i j)%R)));
           ("GLCM_Homogeneity",
            PyFloat (sum_levels 256
                       (fun i j => P i j * (1 / (1 + IZR (i - j) * IZR (i - j))))%R)) ]),
       []).
Proof.
  intros Hread buffer pairs norm.
  exists (glcm_normalize 256 (texture_glcm img)).
  assert (Hspec : forall i j,
            glcm_normalize 256 (texture_glcm img) i j
            = (INR (pair_count pairs i j + pair_count pairs j i) / norm)%R).
  { intros i j. now rewrite texture_glcm_renormalized. }
  split; [exact Hspec|]. split; [|split].
  - intros i j. rewrite !Hspec. now rewrite Nat.add_comm.
  - intros Hne.
    rewrite (sum_levels_ext 256 _ (cooccurrence img))
      by apply texture_glcm_renormalized.
    rewrite cooccurrence_total.
    fold buffer. change (horizontal_pairs (astype_uint8 img)) with pairs.
    destruct pairs; [contradiction | reflexivity].
  - exact (extract_glcm_features_ok _ _ img Hread).
Qed.

Lemma texture_from_unrescaled_cooccurrence_witness :
  exists P : Z -> Z -> R,
    sum_levels 256 P = 1%R /\
    exists correlation,
      outcome (extract_glcm_features ramp_slice_dir ["Image-1.dcm"])
      = Some [ ("GLCM_Contrast",
                PyFloat (sum_levels 256 (fun i j => P i j * (IZR (i - j) * IZR (i - j)))%R));
               ("GLCM_Correlation", PyFloat correlation);
               ("GLCM_Energy",
                PyFloat (sqrt (sum_levels 256 (fun i j => P i j * P i j)%R)));
               ("GLCM_Homogeneity",
                PyFloat (sum_levels 256
                           (fun i j => P i j * (1 / (1 + IZR (i - j) * IZR (i - j))))%R)) ].
Proof.
  destruct (texture_from_unrescaled_cooccurrence
              ramp_slice_dir ["Image-1.dcm"] ramp_image eq_refl)
    as [P [_ [_ [Hsum H]]]].
  exists P. split.
  - apply Hsum. discriminate.
  - eexists. unfold outcome. rewrite H. reflexivity.
Defined.

(** ** C9: re-running on an unchanged tree *)

Lemma node_induction (P : node -> Prop) :
  (forall f, P (File f)) ->
  (forall es, Forall (fun e => P (snd e)) es -> P (Dir es)) ->
  forall n, P n.
Proof.
  intros Hf Hd. fix IH 1. intros [f|es]; [apply Hf|].
  apply Hd. revert es. fix IHes 1. intros [|[name c] es]; constructor.
  - apply IH.
  - apply IHes.
Qed.

Lemma same_tree_refl n : same_tree n n.
Proof.
  induction n as [f|es IH] using node_induction; [constructor|].
  apply (same_dir es es es); [apply Permutation_refl|].
  induction IH as [|e es He _ IHes]; constructor; auto.
Qed.

Lemma same_tree_is_dir n1 n2 : same_tree n1 n2 -> is_dir n1 = is_dir n2.
Proof. now intros []. Qed.

Lemma lookup_name_perm name es es' :
  NoDup (map fst es) -> Permutation es es' ->
  lookup_name name es = lookup_name name es'.
Proof.
  intros Hnd Hp. induction Hp as [|[n c] l l' Hp IH|[n1 c1] [n2 c2] l|l l' l'' Hp1 IH1 Hp2 IH2].
  - reflexivity.
  - simpl. inversion Hnd; subst. now rewrite IH.
  - simpl. inversion Hnd as [|? ? Hn Hnd']; subst. simpl in Hn.
    destruct (String.eqb_spec name n1); destruct (String.eqb_spec name n2); try reflexivity.
    subst. exfalso. apply Hn. now left.
  - rewrite IH1 by exact Hnd. apply IH2.
    eapply Permutation_NoDup; [|exact Hnd]. now apply Permutation_map.
Qed.

Lemma lookup_name_related name es es2 :
  Forall (fun e => well_formed (snd e)) es ->
  Forall2 (fun e1 e2 => fst e1 = fst e2 /\ same_tree (snd e1) (snd e2)) es es2 ->
  related (lookup_name name es) (lookup_name name es2).
Proof.
  intros Hwf H. induction H as [|[n1 c1] [n2 c2] l1 l2 [Hn Hc] _ IH]; simpl; [exact I|].
  inversion Hwf; subst. simpl in *. subst n2.
  destruct (String.eqb name n1); [split; assumption | now apply IH].
Qed.

Lemma lookup_related p : forall fs1 fs2,
  well_formed fs1 -> same_tree fs1 fs2 -> related (lookup fs1 p) (lookup fs2 p).
Proof.
  induction p as [|name p IH]; intros fs1 fs2 Hwf Hsame; simpl.
  - split; assumption.
  - destruct Hsame as [f|es1 es' es2 Hperm Hall]; [exact I|].
    inversion Hwf as [|? Hnd Hch]; subst.
    rewrite (lookup_name_perm name es1 es' Hnd Hperm).
    assert (Hch' : Forall (fun e => well_formed (snd e)) es')
      by (eapply Permutation_Forall; eauto).
    pose proof (lookup_name_related name es' es2 Hch' Hall) as Hrel.
    destruct (lookup_name name es') as [c1|]; destruct (lookup_name name es2) as [c2|];
      simpl in Hrel; try contradiction; [|exact I].
    destruct Hrel. now apply IH.
Qed.

Section Relisting.

(** Two listings of one tree: [fs2] is [fs1] with its directories listed in
    another order. *)
Variables fs1 fs2 : node.
Hypothesis Hwf : well_formed fs1.
Hypothesis Hlist : same_tree fs1 fs2.

Lemma os_path_exists_same p :
  os_path_exists fs1 p = os_path_exists fs2 p.
Proof.
  pose proof (lookup_related p _ _ Hwf Hlist) as H.
  unfold os_path_exists. destruct (lookup fs1 p); destruct (lookup fs2 p);
    simpl in H; tauto.
Qed.

Lemma os_path_isdir_same p :
  os_path_isdir fs1 p = os_path_isdir fs2 p.
Proof.
  pose proof (lookup_related p _ _ Hwf Hlist) as H.
  unfold os_path_isdir. destruct (lookup fs1 p); destruct (lookup fs2 p);
    simpl in H; try tauto. destruct H. now apply same_tree_is_dir.
Qed.

Lemma open_file_same p :
  open_file fs1 p = open_file fs2 p.
Proof.
  pose proof (lookup_related p _ _ Hwf Hlist) as H.
  unfold open_file. destruct (lookup fs1 p); destruct (lookup fs2 p);
    simpl in H; try tauto. destruct H as [_ []]; reflexivity.
Qed.

Lemma contribution_same p :
  contribution fs1 p = contribution fs2 p.
Proof.
  unfold contribution, feature_row, header_record, pixel_record,
    dcmread_header, dcmread_pixel_array.
  now rewrite (open_file_same p).
Qed.

Lemma tree_files_dir top es :
  tree_files top (Dir es)
  = map (os_path_join top) (filenames es)
    ++ flat_map (fun e => tree_files (top ++ [fst e]) (snd e)) es.
Proof.
  unfold tree_files. simpl. f_equal. apply flat_map_nested.
Qed.

Lemma Permutation_filter {A} (f : A -> bool) l l' :
  Permutation l l' -> Permutation (filter f l) (filter f l').
Proof.
  induction 1 as [|x l l' _ IH|x y l|l l' l'' _ IH1 _ IH2]; simpl.
  - constructor.
  - destruct (f x); [now constructor | exact IH].
  - destruct (f x); destruct (f y); try apply Permutation_refl. constructor.
  - eapply Permutation_trans; eauto.
Qed.

Lemma Forall2_flat_map_perm {A B C} (f : A -> list C) (g : B -> list C) l1 l2 :
  Forall2 (fun a b => Permutation (f a) (g b)) l1 l2 ->
  Permutation (flat_map f l1) (flat_map g l2).
Proof.
  induction 1; simpl; [constructor | now apply Permutation_app].
Qed.

Lemma filenames_same es es2 :
  Forall2 (fun e1 e2 => fst e1 = fst e2 /\ same_tree (snd e1) (snd e2)) es es2 ->
  filenames es = filenames es2.
Proof.
  unfold filenames.
  induction 1 as [|[n1 c1] [n2 c2] l1 l2 [Hn Hc] _ IH]; simpl in *; [reflexivity|].
  subst n2. rewrite (same_tree_is_dir _ _ Hc).
  destruct (is_dir c2); simpl; now rewrite IH.
Qed.

Lemma tree_files_perm n1 : forall n2 top,
  same_tree n1 n2 -> Permutation (tree_files top n1) (tree_files top n2).
Proof.
  induction n1 as [f|es1 IH] using node_induction; intros n2 top Hs.
  - inversion Hs; subst. apply Permutation_refl.
  - inversion Hs as [|? es' es2 Hperm Hall]; subst.
    rewrite !tree_files_dir. apply Permutation_app.
    + rewrite <- (filenames_same es' es2 Hall). unfold filenames.
      now apply Permutation_map, Permutation_map, Permutation_filter.
    + eapply Permutation_trans;
        [apply Permutation_flat_map; exact Hperm|].
      apply Forall2_flat_map_perm.
      assert (IH' : Forall (fun e => forall n2 top, same_tree (snd e) n2 ->
                      Permutation (tree_files top (snd e)) (tree_files top n2)) es')
        by (eapply Permutation_Forall; eauto).
      clear Hs Hperm IH. induction Hall as [|e1 e2 l1 l2 [Hn Hc] _ IHall];
        constructor.
      * inversion IH'; subst. rewrite <- Hn. auto.
      * inversion IH'; subst. auto.
Qed.

Lemma walked_files_tree fs directory :
  walked_files fs directory
  = match lookup fs directory with
    | Some n => tree_files directory n
    | None => []
    end.
Proof.
  unfold walked_files, os_walk, tree_files. now destruct (lookup fs directory).
Qed.

Lemma walked_files_perm directory :
  Permutation (walked_files fs1 directory) (walked_files fs2 directory).
Proof.
  rewrite !walked_files_tree.
  pose proof (lookup_related directory _ _ Hwf Hlist) as H.
  destruct (lookup fs1 directory); destruct (lookup fs2 directory);
    simpl in H; try contradiction; [|constructor].
  destruct H. now apply tree_files_perm.
Qed.

Lemma directory_table_same directory :
  same_rows (directory_table fs1 directory) (directory_table fs2 directory).
Proof.
  unfold directory_table, same_rows. cbv zeta. simpl.
  assert (Hp : Permutation (flat_map (contribution fs1) (walked_files fs1 directory))
                           (flat_map (contribution fs2) (walked_files fs2 directory))).
  { eapply Permutation_trans;
      [apply Permutation_flat_map, (walked_files_perm directory)|].
    rewrite (flat_map_ext _ _ contribution_same).
    apply Permutation_refl. }
  split; [|exact Hp].
  destruct (flat_map (contribution fs1) (walked_files fs1 directory)) eqn:E1;
    destruct (flat_map (contribution fs2) (walked_files fs2 directory)) eqn:E2;
    try reflexivity.
  - apply Permutation_nil in Hp. discriminate.
  - apply Permutation_sym, Permutation_nil in Hp. discriminate.
Qed.

Lemma df_setitem_same c v t1 t2 :
  same_rows t1 t2 -> same_rows (df_setitem c v t1) (df_setitem c v t2).
Proof.
  intros [Hc Hr]. unfold same_rows, df_setitem, df_contains. simpl.
  rewrite Hc. split; [reflexivity | now apply Permutation_map].
Qed.

Lemma scan_table_same subject_path scan_type :
  same_rows (scan_table fs1 subject_path scan_type)
            (scan_table fs2 subject_path scan_type).
Proof.
  unfold scan_table. cbv zeta.
  pose proof (directory_table_same (os_path_join subject_path scan_type))
    as H.
  apply df_setitem_same.
  unfold df_contains. rewrite <- (proj1 H).
  destruct (negb _); [apply df_setitem_same|]; exact H.
Qed.

(** ** What the driver returns, from the labelled tables of the subjects *)

Lemma dict_keys_set_fresh k v (d : dict) :
  ~ In k (dict_keys d) -> dict_keys (dict_set k v d) = dict_keys d ++ [k].
Proof.
  induction d as [|[k' v'] d IH]; simpl; intros H; [reflexivity|].
  destruct (String.eqb_spec k k') as [->|Hne]; [exfalso; apply H; now left|].
  simpl. f_equal. apply IH. intros Hin. apply H. now right.
Qed.

Lemma scan_table_cases fs subject_path st :
  let data := flat_map (contribution fs)
                (walked_files fs (os_path_join subject_path st)) in
  scan_table fs subject_path st
  = match data with
    | [] => mkDF ["SubjectID"; "ScanType"] []
    | _ => mkDF final_columns (map (dict_set "ScanType" (PyStr st)) data)
    end.
Proof.
  intros data. unfold scan_table, directory_table. fold data.
  destruct data; reflexivity.
Qed.

Lemma not_in_feature_columns : ~ In "ScanType" feature_columns.
Proof.
  unfold feature_columns, metadata_keys. simpl. intros H.
  repeat (destruct H as [H|H]; [discriminate H|]). exact H.
Qed.

Lemma scan_table_entry_ok fs subject_path st :
  In st scan_types -> entry_ok (st, scan_table fs subject_path st).
Proof.
  intros Hst. unfold entry_ok. cbn [fst snd]. split; [exact Hst|].
  rewrite scan_table_cases. cbv zeta.
  destruct (flat_map (contribution fs) (walked_files fs (os_path_join subject_path st)))
    as [|r data] eqn:E.
  - split; [reflexivity | discriminate].
  - split.
    + unfold df_unique_first, no_rows. simpl. now rewrite dict_get_set_same.
    + intros _. split; [reflexivity|]. cbn [rows].
      apply Forall_forall. intros r' Hr'. apply in_map_iff in Hr'.
      destruct Hr' as [r0 [<- Hr0]].
      assert (Hk : dict_keys r0 = feature_columns).
      { rewrite <- E in Hr0. apply in_flat_map in Hr0.
        destruct Hr0 as [p [_ Hp]]. eapply contribution_keys; eauto. }
      rewrite dict_keys_set_fresh; rewrite Hk; [reflexivity|].
      apply not_in_feature_columns.
Qed.

Lemma subject_entries_ok fs subject_path :
  Forall entry_ok (subject_entries fs subject_path).
Proof.
  unfold subject_entries. apply Forall_forall. intros e He.
  apply in_map_iff in He. destruct He as [st [<- Hst]].
  apply filter_In in Hst. apply scan_table_entry_ok. tauto.
Qed.

Lemma subject_tables_entries fs subject_path :
  subject_tables fs subject_path = map snd (subject_entries fs subject_path).
Proof. unfold subject_tables, subject_entries. now rewrite map_map. Qed.

Lemma bucket_append_spec st t (g : string -> list DataFrame) keys :
  NoDup keys -> In st keys ->
  bucket_append st t (map (fun k => (k, g k)) keys)
  = Ok (map (fun k => (k, if String.eqb st k then g k ++ [t] else g k)) keys).
Proof.
  induction keys as [|k keys IH]; intros Hnd Hin; [contradiction|]. simpl.
  inversion Hnd as [|? ? Hk Hnd']; subst.
  destruct (String.eqb_spec st k) as [->|Hne].
  - f_equal. f_equal. apply map_ext_in. intros k' Hk'.
    destruct (String.eqb_spec k k'); [subst; contradiction | reflexivity].
  - destruct Hin as [->|Hin]; [contradiction|].
    now rewrite IH.
Qed.

Lemma NoDup_scan_types : NoDup scan_types.
Proof.
  unfold scan_types. distinct_names.
Qed.

Lemma regroup_spec es : forall g,
  Forall entry_ok es ->
  fold_r regroup_step (map snd es) (map (fun k => (k, g k)) scan_types)
  = if existsb (fun e => no_rows (snd e)) es then Raise index_error
    else Ok (map (fun k => (k, g k ++ bucket_of es k)) scan_types).
Proof.
  induction es as [|[st t] es IH]; intros g Hall; cbn [map fold_r existsb snd fst].
  - f_equal. apply map_ext. intros k. unfold bucket_of. cbn [filter map].
    now rewrite app_nil_r.
  - inversion Hall as [|? ? [Hst [Hfirst _]] Hall']; subst. cbn [fst snd] in *.
    unfold regroup_step at 1. rewrite Hfirst.
    destruct (no_rows t); cbn [bind_r orb]; [reflexivity|].
    rewrite (bucket_append_spec st t g scan_types NoDup_scan_types Hst).
    cbn [bind_r].
    rewrite (IH (fun k => if String.eqb st k then g k ++ [t] else g k) Hall').
    destruct (existsb (fun e : string * DataFrame => no_rows (snd e)) es);
      [reflexivity|]. f_equal.
    apply map_ext. intros k. unfold bucket_of. cbn [filter fst].
    destruct (String.eqb st k); cbn [map snd]; [now rewrite <- app_assoc | reflexivity].
Qed.

Lemma NoDup_final_columns : NoDup final_columns.
Proof.
  unfold final_columns, feature_columns, metadata_keys. distinct_names.
Qed.

Lemma concat_columns_full B : forall acc,
  Forall table_full B -> incl final_columns acc ->
  fold_left (fun acc df => add_columns acc (columns df)) B acc = acc.
Proof.
  induction B as [|t B IH]; intros acc Hall Hincl; simpl; [reflexivity|].
  inversion Hall as [|? ? [Hc _] Hall']; subst.
  rewrite Hc, add_columns_absorb by exact Hincl. now apply IH.
Qed.

Lemma pd_concat_full B :
  B <> [] -> Forall table_full B ->
  pd_concat B = Ok (mkDF final_columns (flat_map rows B)).
Proof.
  intros Hne Hall. destruct B as [|t B]; [contradiction|].
  unfold pd_concat. f_equal.
  assert (Hcols : fold_left (fun acc df => add_columns acc (columns df)) (t :: B) []
                  = final_columns).
  { inversion Hall as [|? ? [Hc _] Hall']; subst. cbn [fold_left].
    rewrite Hc, (add_columns_fresh final_columns []) by apply NoDup_final_columns.
    apply concat_columns_full; [exact Hall' | apply incl_refl]. }
  rewrite Hcols. f_equal.
  rewrite <- (map_id (flat_map rows (t :: B))) at 2.
  apply map_ext_in. intros r Hr. apply in_flat_map in Hr.
  destruct Hr as [t' [Ht' Hr]]. rewrite Forall_forall in Hall.
  destruct (Hall t' Ht') as [_ Hkeys]. rewrite Forall_forall in Hkeys.
  rewrite <- (Hkeys r Hr) at 1. apply reindex_own_keys.
  rewrite (Hkeys r Hr). apply NoDup_final_columns.
Qed.

Lemma concat_buckets_spec (B : string -> list DataFrame) keys :
  (forall k, In k keys -> Forall table_full (B k)) ->
  map_r concat_bucket (map (fun k => (k, B k)) keys)
  = if existsb (fun k => is_nil (B k)) keys then Raise concat_error
    else Ok (map (fun k => (k, mkDF final_columns (flat_map rows (B k)))) keys).
Proof.
  induction keys as [|k keys IH]; intros Hfull; cbn [map map_r existsb]; [reflexivity|].
  rewrite IH by (intros k' Hk'; apply Hfull; now right).
  unfold concat_bucket at 1. cbn [fst snd].
  destruct (B k) as [|t ts] eqn:E; cbn [is_nil orb].
  - reflexivity.
  - rewrite pd_concat_full; [| discriminate | rewrite <- E; apply Hfull; now left].
    cbn [bind_r]. destruct (existsb (fun k0 => is_nil (B k0)) keys); reflexivity.
Qed.

Lemma all_entries_ok fs root names : Forall entry_ok (all_entries fs root names).
Proof.
  unfold all_entries. apply Forall_forall. intros e He.
  apply in_flat_map in He. destruct He as [s [_ He]].
  pose proof (subject_entries_ok fs s) as H. rewrite Forall_forall in H. auto.
Qed.

Lemma all_entries_tables fs root names :
  List.concat (map (subject_tables fs) (subject_paths fs root names))
  = map snd (all_entries fs root names).
Proof.
  unfold all_entries. induction (subject_paths fs root names) as [|s l IH];
    cbn [map List.concat flat_map]; [reflexivity|].
  now rewrite map_app, IH, subject_tables_entries.
Qed.

Lemma driver_result_tables self fs names :
  os_listdir fs (root_directory self) = Ok names ->
  (num_workers self <? 1)%Z = false ->
  driver_result self fs = driver_tables (all_entries fs (root_directory self) names).
Proof.
  intros Hls Hnw. unfold driver_result. rewrite Hls. cbn [bind_r]. rewrite Hnw.
  rewrite all_entries_tables.
  pose proof (all_entries_ok fs (root_directory self) names) as Hok.
  set (es := all_entries fs (root_directory self) names) in *.
  change empty_buckets with (map (fun k : string => (k, @nil DataFrame)) scan_types).
  rewrite (regroup_spec es (fun _ => []) Hok). unfold driver_tables.
  destruct (existsb (fun e : string * DataFrame => no_rows (snd e)) es) eqn:E;
    [reflexivity|].
  cbn [bind_r app]. apply concat_buckets_spec.
  intros k _. apply Forall_forall. intros t Ht. unfold bucket_of in Ht.
  apply in_map_iff in Ht. destruct Ht as [e [<- He]]. apply filter_In in He.
  destruct He as [He _]. rewrite Forall_forall in Hok.
  destruct (Hok e He) as [_ [_ Hfull]]. apply Hfull.
  destruct (no_rows (snd e)) eqn:En; [|reflexivity].
  assert (existsb (fun e : string * DataFrame => no_rows (snd e)) es = true)
    by (apply existsb_exists; eauto).
  congruence.
Qed.

(** ** Two runs over the same tree *)

Lemma same_rows_no_rows t1 t2 : same_rows t1 t2 -> no_rows t1 = no_rows t2.
Proof.
  intros [_ Hp]. unfold no_rows.
  destruct (rows t1) eqn:E1; destruct (rows t2) eqn:E2; try reflexivity.
  - apply Permutation_nil in Hp. discriminate.
  - apply Permutation_sym, Permutation_nil in Hp. discriminate.
Qed.

Lemma existsb_perm {A} (f : A -> bool) l l' :
  Permutation l l' -> existsb f l = existsb f l'.
Proof.
  induction 1 as [|x l l' _ IH|x y l|l l' l'' _ IH1 _ IH2]; simpl.
  - reflexivity.
  - now rewrite IH.
  - destruct (f x); destruct (f y); reflexivity.
  - congruence.
Qed.

Lemma same_entries_no_rows es1 es2 :
  same_entries es1 es2 ->
  existsb (fun e => no_rows (snd e)) es1 = existsb (fun e => no_rows (snd e)) es2.
Proof.
  intros [es' [Hp Hall]]. rewrite (existsb_perm _ _ _ Hp). clear Hp.
  induction Hall as [|e1 e2 l1 l2 [_ Hr] _ IH]; simpl; [reflexivity|].
  now rewrite (same_rows_no_rows _ _ Hr), IH.
Qed.

Lemma same_entries_bucket_size es1 es2 k :
  same_entries es1 es2 ->
  List.length (bucket_of es1 k) = List.length (bucket_of es2 k).
Proof.
  intros [es' [Hp Hall]]. unfold bucket_of. rewrite !length_map.
  rewrite (Permutation_length (Permutation_filter _ _ _ Hp)). clear Hp.
  induction Hall as [|e1 e2 l1 l2 [Hl _] _ IH]; simpl; [reflexivity|].
  rewrite Hl. destruct (String.eqb (fst e2) k); simpl; now rewrite IH.
Qed.

Lemma result_rows_flat es k :
  result_rows es k
  = flat_map (fun e => if String.eqb (fst e) k then rows (snd e) else []) es.
Proof.
  unfold result_rows, bucket_of.
  induction es as [|e es IH]; simpl; [reflexivity|].
  destruct (String.eqb (fst e) k); simpl; now rewrite IH.
Qed.

Lemma same_entries_rows es1 es2 k :
  same_entries es1 es2 -> Permutation (result_rows es1 k) (result_rows es2 k).
Proof.
  intros [es' [Hp Hall]]. rewrite !result_rows_flat.
  eapply Permutation_trans; [apply Permutation_flat_map; exact Hp|].
  apply Forall2_flat_map_perm. clear Hp.
  induction Hall as [|e1 e2 l1 l2 [Hl [_ Hr]] _ IH]; constructor; [|exact IH].
  rewrite Hl. destruct (String.eqb (fst e2) k); [exact Hr | constructor].
Qed.

Lemma Forall2_flat_map {A B C} (R : B -> C -> Prop) (f : A -> list B) (g : A -> list C) l :
  (forall x, Forall2 R (f x) (g x)) -> Forall2 R (flat_map f l) (flat_map g l).
Proof.
  intros H. induction l as [|x l IH]; simpl; [constructor|].
  apply Forall2_app; auto.
Qed.

Lemma subject_entries_same s :
  Forall2 same_entry (subject_entries fs1 s) (subject_entries fs2 s).
Proof.
  unfold subject_entries.
  rewrite (filter_ext (present fs1 s) (present fs2 s))
    by (intros st; apply os_path_exists_same).
  induction (filter (present fs2 s) scan_types) as [|st l IH]; simpl; constructor.
  - split; [reflexivity|]. now apply scan_table_same.
  - exact IH.
Qed.

Lemma os_listdir_same p names1 :
  os_listdir fs1 p = Ok names1 ->
  exists names2, os_listdir fs2 p = Ok names2 /\ Permutation names1 names2.
Proof.
  pose proof (lookup_related p _ _ Hwf Hlist) as H.
  unfold os_listdir.
  destruct (lookup fs1 p) as [[f1|es1]|]; try discriminate.
  destruct (lookup fs2 p) as [n2|]; [|contradiction].
  destruct H as [_ H]. inversion H as [|? es' es2 Hperm Hall]; subst.
  intros E. injection E as <-. eexists. split; [reflexivity|].
  eapply Permutation_trans; [apply Permutation_map; exact Hperm|].
  assert (E : map fst es' = map fst es2).
  { clear -Hall. induction Hall as [|e1 e2 l1 l2 [Hn _] _ IH]; simpl; congruence. }
  rewrite E. apply Permutation_refl.
Qed.

Lemma all_entries_same root names1 names2 :
  Permutation names1 names2 ->
  same_entries (all_entries fs1 root names1) (all_entries fs2 root names2).
Proof.
  intros Hp. unfold all_entries.
  exists (flat_map (subject_entries fs1) (subject_paths fs2 root names2)). split.
  - apply Permutation_flat_map. unfold subject_paths.
    apply Permutation_map.
    rewrite (filter_ext _ (fun subdir => os_path_isdir fs2 (os_path_join root subdir)))
      by (intros n; apply os_path_isdir_same).
    now apply Permutation_filter.
  - apply Forall2_flat_map. intros s. now apply subject_entries_same.
Qed.

Lemma driver_tables_same es1 es2 rs1 :
  same_entries es1 es2 ->
  driver_tables es1 = Ok rs1 ->
  exists rs2, driver_tables es2 = Ok rs2 /\ Forall2 same_result rs1 rs2.
Proof.
  intros Hsame. unfold driver_tables.
  rewrite <- (same_entries_no_rows es1 es2 Hsame).
  destruct (existsb (fun e : string * DataFrame => no_rows (snd e)) es1);
    [intros H; discriminate H|].
  assert (E : existsb (fun k => is_nil (bucket_of es1 k)) scan_types
              = existsb (fun k => is_nil (bucket_of es2 k)) scan_types).
  { induction scan_types as [|k l IH]; cbn [existsb]; [reflexivity|].
    rewrite IH. f_equal.
    pose proof (same_entries_bucket_size es1 es2 k Hsame) as Hl.
    destruct (bucket_of es1 k); destruct (bucket_of es2 k);
      try reflexivity; discriminate Hl. }
  rewrite <- E.
  destruct (existsb (fun k => is_nil (bucket_of es1 k)) scan_types);
    [intros H; discriminate H|].
  intros H.
  exists (map (fun k => (k, mkDF final_columns (result_rows es2 k))) scan_types).
  split; [reflexivity|].
  assert (Hrs : rs1 = map (fun k => (k, mkDF final_columns (result_rows es1 k)))
                          scan_types) by congruence.
  rewrite Hrs. clear H Hrs E. generalize scan_types. intros l.
  induction l as [|k l IH]; cbn [map]; constructor; [|exact IH].
  pose proof (same_entries_rows es1 es2 k Hsame) as Hp.
  split; [reflexivity|]. unfold file_scan_pairs. cbn [snd rows]. split.
  - now apply Permutation_length.
  - now apply Permutation_map.
Qed.

(** C9: take one directory tree and two runs of the pipeline that see its
    directories listed in possibly different orders.  If the first run
    returns a Result Set, so does the second; the two have the same scan-type
    keys in the same order, and under each key the same number of rows and
    the same (file name, scan type) pairs, up to the order of the rows. *)
Theorem rerun_same_rows self rs1 :
  fst (process_all_subjects_parallel self fs1) = Ok rs1 ->
  exists rs2,
    fst (process_all_subjects_parallel self fs2) = Ok rs2 /\
    Forall2 same_result rs1 rs2.
Proof.
  rewrite !process_all_subjects_parallel_result.
  destruct (os_listdir fs1 (root_directory self)) as [names1|e] eqn:Hls1;
    [|unfold driver_result; rewrite Hls1; intros H; discriminate H].
  destruct (os_listdir_same _ _ Hls1) as [names2 [Hls2 Hp]].
  destruct (num_workers self <? 1)%Z eqn:Hnw;
    [unfold driver_result; rewrite Hls1; cbn [bind_r]; rewrite Hnw;
     intros H; discriminate H|].
  rewrite (driver_result_tables self fs1 names1 Hls1 Hnw).
  rewrite (driver_result_tables self fs2 names2 Hls2 Hnw).
  apply driver_tables_same. now apply all_entries_same.
Qed.

Lemma two_subjects_well_formed : well_formed two_subjects.
Proof.
  assert (Hfile : well_formed (File mr_slice)) by constructor.
  assert (Hscan : well_formed scan_dir)
    by (apply wf_dir; [distinct_names | each_entry]).
  assert (Hsub : well_formed full_subject)
    by (apply wf_dir; [distinct_names | each_entry]).
  assert (Hroot : well_formed (Dir [("00001", full_subject); ("00002", full_subject)]))
    by (apply wf_dir; [distinct_names | each_entry]).
  apply wf_dir; [distinct_names | each_entry].
Qed.

Lemma two_subjects_same_tree : same_tree two_subjects two_subjects_relisted.
Proof.
  assert (Hrev : same_tree full_subject reversed_subject).
  { eapply same_dir; [apply Permutation_rev|]. simpl.
    repeat constructor; apply same_tree_refl. }
  eapply same_dir; [apply Permutation_refl|].
  constructor; [|constructor]. split; [reflexivity|]. simpl.
  eapply same_dir; [apply perm_swap|].
  repeat constructor; simpl; [exact Hrev | apply same_tree_refl].
Qed.

End Relisting.

(** The two ways the driver fails on empty input, for every tree. *)
Lemma no_subject_directory_raises self fs names :
  os_listdir fs (root_directory self) = Ok names ->
  (num_workers self <? 1)%Z = false ->
  subject_paths fs (root_directory self) names = [] ->
  fst (process_all_subjects_parallel self fs) = Raise concat_error.
Proof.
  intros Hls Hnw Hnone.
  rewrite process_all_subjects_parallel_result.
  rewrite (driver_result_tables self fs names Hls Hnw).
  unfold all_entries. rewrite Hnone. reflexivity.
Qed.

Lemma empty_scan_table_raises self fs names subject_path scan_type :
  os_listdir fs (root_directory self) = Ok names ->
  (num_workers self <? 1)%Z = false ->
  In subject_path (subject_paths fs (root_directory self) names) ->
  In scan_type scan_types ->
  os_path_exists fs (os_path_join subject_path scan_type) = true ->
  rows (directory_table fs (os_path_join subject_path scan_type)) = [] ->
  fst (process_all_subjects_parallel self fs) = Raise index_error.
Proof.
  intros Hls Hnw Hsub Hst Hex Hempty.
  rewrite process_all_subjects_parallel_result.
  rewrite (driver_result_tables self fs names Hls Hnw).
  unfold driver_tables.
  assert (E : existsb (fun e : string * DataFrame => no_rows (snd e))
                      (all_entries fs (root_directory self) names) = true).
  { apply existsb_exists. exists (scan_type, scan_table fs subject_path scan_type).
    split.
    - unfold all_entries. apply in_flat_map. exists subject_path.
      split; [exact Hsub|]. unfold subject_entries.
      apply in_map_iff. exists scan_type. split; [reflexivity|].
      apply filter_In. split; [exact Hst | exact Hex].
    - cbn [snd]. unfold no_rows, scan_table.
      unfold directory_table in *. cbn [rows] in Hempty.
      cbv zeta. rewrite Hempty. reflexivity. }
  rewrite E. reflexivity.
Qed.


(** ** C3: a corrupt file is contained by the extractors, and still aborts the run *)

Lemma failing_file_adds_no_row fs p :
  (exists e, dcmread_header fs p = Raise e) \/
  (exists e, dcmread_pixel_array fs p = Raise e) ->
  contribution fs p = [].
Proof.
  intros H. unfold contribution, feature_row, header_record, pixel_record.
  destruct (qualifies p); [|reflexivity].
  destruct H as [[e ->]|[e ->]]; [reflexivity|].
  destruct (dcmread_header fs p); reflexivity.
Qed.

(** C3 fails on the code.  Its first half holds: when reading the header
    (resp. the pixel data) of a file raises, the extractor returns [None]
    after logging the path and the error, and [process_dicom_directory]
    and [process_subject] return.  But when every file ending in [.dcm]
    below a scan-type entry of some subject fails to read, the table of
    that entry has no row, and the regrouping of
    [process_all_subjects_parallel] reads [unique()[0]] of its empty
    [ScanType] column: the parallel run raises [IndexError].  A single
    corrupt file in a scan-type directory is enough. *)
Theorem corrupt_file_aborts_parallel_run self fs names subject_path scan_type :
  os_listdir fs (root_directory self) = Ok names ->
  (1 <= num_workers self)%Z ->
  In subject_path (subject_paths fs (root_directory self) names) ->
  In scan_type scan_types ->
  os_path_exists fs (os_path_join subject_path scan_type) = true ->
  (forall p, In p (walked_files fs (os_path_join subject_path scan_type)) ->
             qualifies p = true ->
             (exists e, dcmread_header fs p = Raise e) \/
             (exists e, dcmread_pixel_array fs p = Raise e)) ->
  (forall p e, dcmread_header fs p = Raise e ->
     extract_dicom_metadata fs p
     = (Ok None, [mkLog "ERROR" ("Error reading " ++ path_str p ++ ": " ++ exn_msg e)])) /\
  (forall p e, dcmread_pixel_array fs p = Raise e ->
     extract_image_statistics fs p
     = (Ok None, [mkLog "ERROR" ("Error processing image data from "
                                  ++ path_str p ++ ": " ++ exn_msg e)]) /\
     extract_glcm_features fs p
     = (Ok None, [mkLog "ERROR" ("Error extracting GLCM features from "
                                  ++ path_str p ++ ": " ++ exn_msg e)])) /\
  yields (process_dicom_directory fs (os_path_join subject_path scan_type))
         (mkDF [] []) /\
  returns (process_subject fs subject_path) /\
  fst (process_all_subjects_parallel self fs)
  = Raise (mkExn "IndexError" "index 0 is out of bounds for axis 0 with size 0").
Proof.
  intros Hls Hnw Hsub Hst Hex Hcorrupt.
  assert (Hempty : flat_map (contribution fs)
                     (walked_files fs (os_path_join subject_path scan_type)) = []).
  { generalize Hcorrupt.
    generalize (walked_files fs (os_path_join subject_path scan_type)).
    induction l as [|p l IH]; intros Hall; [reflexivity|]. simpl.
    rewrite IH by (intros q Hq; apply Hall; now right).
    rewrite app_nil_r.
    destruct (qualifies p) eqn:Hq.
    - apply failing_file_adds_no_row. apply Hall; [now left | exact Hq].
    - unfold contribution. now rewrite Hq. }
  split; [|split; [|split; [|split]]].
  - intros p e H. now apply extract_dicom_metadata_raise.
  - intros p e H. split.
    + now apply extract_image_statistics_raise.
    + now apply extract_glcm_features_raise.
  - pose proof (process_dicom_directory_yields fs (os_path_join subject_path scan_type)) as H.
    cbv zeta in H. rewrite Hempty in H. exact H.
  - eapply yields_returns, process_subject_yields.
  - apply (empty_scan_table_raises self fs names subject_path scan_type);
      try assumption.
    apply Z.ltb_ge. exact Hnw.
Qed.

Lemma corrupt_file_aborts_parallel_run_witness :
  fst (process_all_subjects_parallel ivygap all_files_fail)
  = Raise (mkExn "IndexError" "index 0 is out of bounds for axis 0 with size 0") /\
  returns (process_all_subjects_parallel ivygap corrupt_file_repaired).
Proof.
  split.
  - apply (corrupt_file_aborts_parallel_run ivygap all_files_fail
             ["00001"; "00002"] ["IvyGAP"; "00002"] "FLAIR").
    + reflexivity.
    + simpl. lia.
    + simpl. right. now left.
    + simpl. now left.
    + reflexivity.
    + intros p Hp _. left. simpl in Hp. destruct Hp as [<-|[]].
      eexists. reflexivity.
  - unfold returns. rewrite process_all_subjects_parallel_result.
    eexists. reflexivity.
Defined.


Lemma rerun_same_rows_witness :
  exists rs1 rs2,
    fst (process_all_subjects_parallel ivygap two_subjects) = Ok rs1 /\
    fst (process_all_subjects_parallel ivygap two_subjects_relisted) = Ok rs2 /\
    Forall2 same_result rs1 rs2.
Proof.
  assert (H1 : exists rs1,
             fst (process_all_subjects_parallel ivygap two_subjects) = Ok rs1)
    by (rewrite process_all_subjects_parallel_result; eexists; reflexivity).
  destruct H1 as [rs1 H1].
  destruct (rerun_same_rows two_subjects two_subjects_relisted
              two_subjects_well_formed two_subjects_same_tree ivygap rs1 H1)
    as [rs2 [H2 H]].
  exists rs1, rs2. auto.
Defined.

(** * Further properties of the aggregators and the extractors *)

(** ** The log of a directory run *)

Lemma for_each_runs {A S} (f : S -> A -> S) (lg : A -> list log_record)
    (body : S -> A -> M S) xs :
  (forall s x, body s x = (Ok (f s x), lg x)) ->
  forall s, for_each xs body s = (Ok (fold_left f xs s), flat_map lg xs).
Proof.
  intros Hbody. induction xs as [|x xs IH]; intros s; simpl; [reflexivity|].
  unfold bind. rewrite Hbody, IH. reflexivity.
Qed.

Lemma process_file_runs fs root data file :
  process_file fs root data file
  = (Ok (data ++ contribution fs (os_path_join root file)),
     if qualifies (os_path_join root file)
     then file_log fs (os_path_join root file) else []).
Proof.
  unfold process_file, contribution, qualifies, feature_row, file_log,
    header_record, pixel_record.
  rewrite basename_join.
  destruct (endswith file ".dcm"); [|now rewrite app_nil_r].
  set (p := os_path_join root file).
  destruct (dcmread_header fs p) as [ds|e1] eqn:Eh;
    destruct (dcmread_pixel_array fs p) as [img|e2] eqn:Ep.
  - rewrite (extract_dicom_metadata_ok _ _ _ Eh),
      (extract_image_statistics_ok _ _ _ Ep), (extract_glcm_features_ok _ _ _ Ep).
    reflexivity.
  - rewrite (extract_dicom_metadata_ok _ _ _ Eh),
      (extract_image_statistics_raise _ _ _ Ep), (extract_glcm_features_raise _ _ _ Ep).
    simpl. now rewrite app_nil_r.
  - rewrite (extract_dicom_metadata_raise _ _ _ Eh),
      (extract_image_statistics_ok _ _ _ Ep), (extract_glcm_features_ok _ _ _ Ep).
    simpl. now rewrite app_nil_r.
  - rewrite (extract_dicom_metadata_raise _ _ _ Eh),
      (extract_image_statistics_raise _ _ _ Ep), (extract_glcm_features_raise _ _ _ Ep).
    simpl. now rewrite app_nil_r.
Qed.

Lemma flat_map_filter {A B} (q : A -> bool) (g : A -> list B) l :
  flat_map (fun x => if q x then g x else []) l = flat_map g (filter q l).
Proof.
  induction l as [|x l IH]; simpl; [reflexivity|].
  destruct (q x); simpl; now rewrite IH.
Qed.

Lemma collect_rows_runs fs directory :
  collect_rows fs directory
  = (Ok (flat_map (contribution fs) (walked_files fs directory)),
     flat_map (file_log fs) (filter qualifies (walked_files fs directory))).
Proof.
  unfold collect_rows, walked_files.
  rewrite <- flat_map_filter, !flat_map_nested.
  rewrite (for_each_runs
             (fun data step =>
                data ++ flat_map (contribution fs)
                          (map (os_path_join (fst (fst step))) (snd step)))
             (fun step =>
                flat_map (fun p => if qualifies p then file_log fs p else [])
                         (map (os_path_join (fst (fst step))) (snd step)))).
  - now rewrite fold_left_app_contrib.
  - intros data step.
    rewrite (for_each_runs
               (fun d file => d ++ contribution fs (os_path_join (fst (fst step)) file))
               (fun file => if qualifies (os_path_join (fst (fst step)) file)
                            then file_log fs (os_path_join (fst (fst step)) file)
                            else [])).
    + rewrite fold_left_app_contrib.
      now rewrite !flat_map_concat_map, !map_map.
    + intros s x. apply process_file_runs.
Qed.

Lemma directory_table_is_DataFrame fs directory :
  pd_DataFrame (flat_map (contribution fs) (walked_files fs directory))
  = directory_table fs directory.
Proof.
  unfold directory_table.
  apply (pd_DataFrame_uniform feature_columns); [apply NoDup_feature_columns|].
  apply Forall_forall. intros r Hr. apply in_flat_map in Hr.
  destruct Hr as [p [_ Hr]]. eapply contribution_keys; eauto.
Qed.

(** X1: [process_dicom_directory] never raises: it returns the table of the
    succeeding files and logs, in walk order, the error records of the
    files ending in [.dcm].  Such a file is left out of the table exactly
    when it has at least one record in the log; every record is an ERROR
    line that carries the file's path and the exception's message.  Files
    with another suffix are never opened and leave no record. *)
Theorem directory_log_names_every_dropped_file fs directory :
  process_dicom_directory fs directory
  = (Ok (directory_table fs directory),
     flat_map (file_log fs) (filter qualifies (walked_files fs directory))) /\
  (forall p, qualifies p = true ->
     (contribution fs p = [] <-> file_log fs p <> []) /\
     (forall l, In l (file_log fs p) ->
        exists what e, l = mkLog "ERROR" (what ++ path_str p ++ ": " ++ exn_msg e))).
Proof.
  split.
  - unfold process_dicom_directory. rewrite collect_rows_runs.
    unfold bind, ret. now rewrite directory_table_is_DataFrame, app_nil_r.
  - intros p Hq. unfold contribution, feature_row, file_log, header_record,
      pixel_record. rewrite Hq. split.
    + destruct (dcmread_header fs p); destruct (dcmread_pixel_array fs p);
        simpl; split; intros H; try discriminate; try reflexivity;
        try (exfalso; now apply H).
    + intros l Hl.
      destruct (dcmread_header fs p); destruct (dcmread_pixel_array fs p);
        simpl in Hl; repeat (destruct Hl as [<-|Hl]; [do 2 eexists; reflexivity|]);
        contradiction.
Qed.

(** ** The walk visits exactly the files below the directory, once each *)

Lemma lookup_app fs p q :
  lookup fs (p ++ q)
  = match lookup fs p with Some n => lookup n q | None => None end.
Proof.
  revert fs. induction p as [|name p IH]; intros fs; simpl; [reflexivity|].
  destruct fs as [f|es]; [reflexivity|].
  destruct (lookup_name name es); [apply IH | reflexivity].
Qed.

Lemma lookup_name_in name c es :
  NoDup (map fst es) -> In (name, c) es -> lookup_name name es = Some c.
Proof.
  induction es as [|[n c'] es IH]; intros Hnd Hin; [contradiction|]. simpl.
  inversion Hnd as [|? ? Hn Hnd']; subst.
  destruct Hin as [E|Hin].
  - injection E as -> ->. now rewrite String.eqb_refl.
  - destruct (String.eqb_spec name n) as [->|Hne]; [|now apply IH].
    exfalso. apply Hn. apply in_map_iff. now exists (n, c).
Qed.

Lemma lookup_name_some name c es :
  lookup_name name es = Some c -> In (name, c) es.
Proof.
  induction es as [|[n c'] es IH]; simpl; [discriminate|].
  destruct (String.eqb_spec name n) as [->|Hne].
  - intros E. injection E as ->. now left.
  - intros H. right. now apply IH.
Qed.

Lemma in_filenames name es :
  In name (filenames es) <-> exists f, In (name, File f) es.
Proof.
  unfold filenames. rewrite in_map_iff. split.
  - intros [[n c] [E Hin]]. simpl in E. subst n.
    apply filter_In in Hin. destruct Hin as [Hin Hf].
    destruct c as [f|]; [now exists f | discriminate].
  - intros [f Hin]. exists (name, File f). split; [reflexivity|].
    apply filter_In. now split.
Qed.

Lemma tree_files_in n : well_formed n -> forall top p,
  In p (tree_files top n) <->
  exists rel f, rel <> [] /\ p = top ++ rel /\ lookup n rel = Some (File f).
Proof.
  induction n as [f0|es IH] using node_induction; intros Hwf top p.
  - unfold tree_files. simpl. split; [contradiction|].
    intros [rel [f [Hne [_ H]]]]. destruct rel; [contradiction | discriminate].
  - inversion Hwf as [|? Hnd Hch]; subst.
    rewrite tree_files_dir, in_app_iff, in_map_iff, in_flat_map. split.
    + intros [[name [<- Hname]]|[[name c] [Hin Hp]]].
      * apply in_filenames in Hname. destruct Hname as [f Hf].
        exists [name], f. split; [discriminate|]. split; [reflexivity|].
        simpl. now rewrite (lookup_name_in name (File f) es Hnd Hf).
      * rewrite Forall_forall in IH, Hch.
        apply (IH (name, c) Hin (Hch (name, c) Hin)) in Hp.
        destruct Hp as [rel [f [Hne [-> Hl]]]].
        exists (name :: rel), f. split; [discriminate|]. split.
        -- simpl. now rewrite <- app_assoc.
        -- simpl. now rewrite (lookup_name_in name c es Hnd Hin).
    + intros [rel [f [Hne [-> Hl]]]].
      destruct rel as [|name rel]; [contradiction|]. simpl in Hl.
      destruct (lookup_name name es) as [c|] eqn:E; [|discriminate].
      apply lookup_name_some in E.
      destruct rel as [|name' rel].
      * simpl in Hl. injection Hl as ->. left. exists name.
        split; [reflexivity|]. apply in_filenames. now exists f.
      * right. exists (name, c). split; [exact E|].
        rewrite Forall_forall in IH, Hch.
        apply (IH (name, c) E (Hch (name, c) E)).
        exists (name' :: rel), f. split; [discriminate|]. split; [|exact Hl].
        simpl. now rewrite <- app_assoc.
Qed.

Lemma NoDup_map_filter {A B} (g : A -> B) (q : A -> bool) l :
  NoDup (map g l) -> NoDup (map g (filter q l)).
Proof.
  induction l as [|x l IH]; simpl; intros H; [constructor|].
  inversion H as [|? ? Hx H']; subst.
  destruct (q x); simpl; [|now apply IH].
  constructor; [|now apply IH].
  intros Hin. apply Hx. apply in_map_iff in Hin. destruct Hin as [y [E Hy]].
  apply in_map_iff. exists y. split; [exact E|].
  apply filter_In in Hy. tauto.
Qed.

Lemma tree_files_NoDup n : well_formed n -> forall top, NoDup (tree_files top n).
Proof.
  induction n as [f0|es IH] using node_induction; intros Hwf top.
  - unfold tree_files. simpl. constructor.
  - inversion Hwf as [|? Hnd Hch]; subst.
    rewrite tree_files_dir. apply NoDup_app.
    + apply Finite.Injective_map_NoDup_in.
      * intros x y _ _ E. unfold os_path_join in E.
        apply app_inv_head in E. now injection E.
      * unfold filenames. now apply NoDup_map_filter.
    + clear Hwf. induction es as [|[name c] es IHes]; simpl; [constructor|].
      inversion Hnd as [|? ? Hname Hnd']; subst.
      inversion Hch as [|? ? Hc Hch']; subst.
      inversion IH as [|? ? IHc IH']; subst. simpl in *.
      apply NoDup_app; [now apply IHc | now apply IHes|].
      intros p Hp Hp'. apply (tree_files_in c Hc) in Hp.
      destruct Hp as [rel [f [_ [-> _]]]].
      apply in_flat_map in Hp'. destruct Hp' as [[name' c'] [Hin Hp']].
      rewrite Forall_forall in Hch'.
      apply (tree_files_in c' (Hch' _ Hin)) in Hp'.
      destruct Hp' as [rel' [f' [_ [E _]]]]. simpl in E.
      rewrite <- !app_assoc in E. apply app_inv_head in E. simpl in E.
      injection E as E _. subst name'.
      apply Hname. apply in_map_iff. now exists (name, c').
    + intros p Hp Hp'. apply in_map_iff in Hp. destruct Hp as [name [<- _]].
      apply in_flat_map in Hp'. destruct Hp' as [[name' c'] [Hin Hp']].
      rewrite Forall_forall in Hch.
      apply (tree_files_in c' (Hch _ Hin)) in Hp'.
      destruct Hp' as [rel' [f' [Hne [E _]]]]. simpl in E.
      unfold os_path_join in E. rewrite <- app_assoc in E.
      apply app_inv_head in E. simpl in E. injection E as _ E.
      apply Hne. now symmetry.
Qed.

(** X2: in a tree whose directories hold no name twice, the walk of
    [process_dicom_directory] visits exactly the regular files strictly
    below [directory], at any depth, and each of them once. *)
Theorem walk_visits_each_file_once fs directory :
  well_formed fs ->
  NoDup (walked_files fs directory) /\
  (forall p, In p (walked_files fs directory) <->
     exists rel f, rel <> [] /\ p = directory ++ rel /\ lookup fs p = Some (File f)).
Proof.
  intros Hwf. rewrite walked_files_tree.
  pose proof (lookup_related directory fs fs Hwf (same_tree_refl fs)) as Hrel.
  destruct (lookup fs directory) as [n|] eqn:E; simpl in Hrel.
  - destruct Hrel as [Hn _]. split; [now apply tree_files_NoDup|].
    intros p. rewrite (tree_files_in n Hn). split.
    + intros [rel [f [Hne [-> Hl]]]]. exists rel, f. split; [exact Hne|].
      split; [reflexivity|]. now rewrite lookup_app, E.
    + intros [rel [f [Hne [-> Hl]]]]. exists rel, f. split; [exact Hne|].
      split; [reflexivity|]. now rewrite lookup_app, E in Hl.
  - split; [constructor|]. intros p. split; [contradiction|].
    intros [rel [f [_ [-> Hl]]]]. now rewrite lookup_app, E in Hl.
Qed.

Lemma walk_visits_each_file_once_witness :
  NoDup (walked_files two_subjects ["IvyGAP"; "00001"]) /\
  In ["IvyGAP"; "00001"; "T1w"; "Image-1.dcm"]
     (walked_files two_subjects ["IvyGAP"; "00001"]).
Proof.
  destruct (walk_visits_each_file_once two_subjects ["IvyGAP"; "00001"]
              two_subjects_well_formed) as [Hnodup Hin].
  split; [exact Hnodup|].
  apply Hin. exists ["T1w"; "Image-1.dcm"], mr_slice.
  split; [discriminate|]. split; reflexivity.
Defined.

(** ** The subject aggregator's tables *)

Lemma scan_table_rows fs s k :
  rows (scan_table fs s k)
  = map (dict_set "ScanType" (PyStr k))
        (flat_map (contribution fs) (walked_files fs (os_path_join s k))).
Proof.
  rewrite scan_table_cases. cbv zeta.
  now destruct (flat_map (contribution fs) (walked_files fs (os_path_join s k))).
Qed.

Lemma scan_table_no_rows fs s k :
  no_rows (scan_table fs s k) = no_rows (directory_table fs (os_path_join s k)).
Proof.
  unfold no_rows. rewrite scan_table_rows. unfold directory_table. cbn [rows].
  now destruct (flat_map (contribution fs) (walked_files fs (os_path_join s k))).
Qed.

Lemma not_SubjectID_column : ~ In "SubjectID" final_columns.
Proof.
  unfold final_columns, feature_columns, metadata_keys. simpl. intros H.
  repeat (destruct H as [H|H]; [discriminate H|]). exact H.
Qed.

(** X3: [process_subject] never raises.  Each table it returns either has
    no row and exactly the columns [SubjectID] and [ScanType], or has rows
    laid out on the feature columns followed by [ScanType]; no row of any
    table carries a [SubjectID], so the fallback column only ever appears
    on tables without rows. *)
Theorem subject_id_only_on_empty_tables fs subject_path :
  exists tables,
    yields (process_subject fs subject_path) tables /\
    Forall (fun t =>
              (rows t = [] /\ columns t = ["SubjectID"; "ScanType"]) \/
              (rows t <> [] /\ columns t = final_columns /\
               Forall (fun r => dict_keys r = final_columns) (rows t)))
           tables /\
    (forall t r, In t tables -> In r (rows t) -> dict_get "SubjectID" r = None).
Proof.
  eexists. split; [apply process_subject_yields|].
  assert (Hall : Forall (fun t =>
              (rows t = [] /\ columns t = ["SubjectID"; "ScanType"]) \/
              (rows t <> [] /\ columns t = final_columns /\
               Forall (fun r => dict_keys r = final_columns) (rows t)))
           (map (scan_table fs subject_path)
                (filter (present fs subject_path) scan_types))).
  { apply Forall_forall. intros t Ht. apply in_map_iff in Ht.
    destruct Ht as [k [<- Hk]]. apply filter_In in Hk. destruct Hk as [Hk _].
    destruct (scan_table_entry_ok fs subject_path k Hk) as [_ [_ Hfull]].
    cbn [fst snd] in Hfull. unfold no_rows in Hfull.
    destruct (rows (scan_table fs subject_path k)) as [|r rs] eqn:E.
    - left. split; [reflexivity|].
      rewrite scan_table_cases in *. cbv zeta in *.
      destruct (flat_map (contribution fs)
                  (walked_files fs (os_path_join subject_path k)));
        [reflexivity | discriminate E].
    - right. split; [discriminate|]. now apply Hfull. }
  split; [exact Hall|].
  intros t r Ht Hr. rewrite Forall_forall in Hall.
  destruct (Hall t Ht) as [[E _]|[_ [_ Hkeys]]].
  - rewrite E in Hr. contradiction.
  - rewrite Forall_forall in Hkeys. apply dict_get_notin.
    rewrite (Hkeys r Hr). apply not_SubjectID_column.
Qed.

(** ** The driver in closed form *)

Lemma existsb_flat_map {A B} (f : B -> bool) (g : A -> list B) l :
  existsb f (flat_map g l) = existsb (fun x => existsb f (g x)) l.
Proof.
  induction l as [|x l IH]; simpl; [reflexivity|].
  now rewrite existsb_app, IH.
Qed.

Lemma existsb_map_filter {A B} (f : B -> bool) (h : A -> B) (q : A -> bool) l :
  existsb f (map h (filter q l)) = existsb (fun x => q x && f (h x)) l.
Proof.
  induction l as [|x l IH]; simpl; [reflexivity|].
  destruct (q x); simpl; now rewrite IH.
Qed.

Lemma existsb_ext_in {A} (f g : A -> bool) l :
  (forall x, In x l -> f x = g x) -> existsb f l = existsb g l.
Proof.
  induction l as [|x l IH]; intros H; simpl; [reflexivity|].
  rewrite H by now left. rewrite IH; [reflexivity|].
  intros y Hy. apply H. now right.
Qed.

Lemma pick_label {A B} (g : A -> list B) (h : string -> A) (q : string -> bool) k l :
  NoDup l -> In k l ->
  flat_map (fun e => if String.eqb (fst e) k then g (snd e) else [])
           (map (fun st => (st, h st)) (filter q l))
  = if q k then g (h k) else [].
Proof.
  induction l as [|st l IH]; intros Hnd Hin; [contradiction|].
  inversion Hnd as [|? ? Hst Hnd']; subst.
  assert (Hrest : ~ In k l ->
            flat_map (fun e => if String.eqb (fst e) k then g (snd e) else [])
                     (map (fun st => (st, h st)) (filter q l)) = []).
  { clear. intros Hk. induction l as [|x l IHl]; simpl; [reflexivity|].
    destruct (q x); simpl.
    - destruct (String.eqb_spec x k) as [->|_]; [exfalso; apply Hk; now left|].
      apply IHl. intros H. apply Hk. now right.
    - apply IHl. intros H. apply Hk. now right. }
  simpl. destruct Hin as [->|Hin].
  - destruct (q k); simpl.
    + rewrite String.eqb_refl, (Hrest Hst). now rewrite app_nil_r.
    + now apply Hrest.
  - assert (Hne : st <> k) by (intros ->; contradiction).
    destruct (q st); simpl; [|now apply IH].
    destruct (String.eqb_spec st k); [contradiction|]. now apply IH.
Qed.

Lemma absent_nothing_walked fs s k :
  present fs s k = false -> walked_files fs (os_path_join s k) = [].
Proof.
  unfold present, os_path_exists, walked_files, os_walk.
  now destruct (lookup fs (os_path_join s k)).
Qed.

Lemma subject_rows fs s k :
  In k scan_types ->
  flat_map (fun e : entry => if String.eqb (fst e) k then rows (snd e) else [])
           (subject_entries fs s)
  = map (labelled_row k fs)
        (filter (fun p => qualifies p && all_succeed fs p)
                (walked_files fs (os_path_join s k))).
Proof.
  intros Hk. unfold subject_entries.
  etransitivity;
    [exact (pick_label rows (scan_table fs s) (present fs s) k scan_types
              NoDup_scan_types Hk)|].
  destruct (present fs s k) eqn:E.
  - rewrite scan_table_rows, flat_map_contribution, map_map. reflexivity.
  - now rewrite (absent_nothing_walked fs s k E).
Qed.

Lemma result_rows_expected fs root names k :
  In k scan_types ->
  result_rows (all_entries fs root names) k
  = expected_rows fs (subject_paths fs root names) k.
Proof.
  intros Hk. rewrite result_rows_flat. unfold all_entries, expected_rows.
  rewrite flat_map_nested. apply flat_map_ext. intros s. now apply subject_rows.
Qed.

Lemma no_rows_somewhere fs root names :
  existsb (fun e : string * DataFrame => no_rows (snd e)) (all_entries fs root names)
  = empty_table_somewhere fs (subject_paths fs root names).
Proof.
  unfold all_entries, empty_table_somewhere. rewrite existsb_flat_map.
  apply existsb_ext_in. intros s _. unfold subject_entries.
  rewrite existsb_map_filter. apply existsb_ext_in. intros k _. cbn [snd].
  now rewrite scan_table_no_rows.
Qed.

Lemma bucket_of_flat (es : list entry) k :
  bucket_of es k
  = flat_map (fun e => if String.eqb (fst e) k then [snd e] else []) es.
Proof.
  unfold bucket_of. induction es as [|e es IH]; simpl; [reflexivity|].
  destruct (String.eqb (fst e) k); simpl; now rewrite IH.
Qed.

Lemma bucket_is_nil fs subjects k :
  In k scan_types ->
  is_nil (bucket_of (flat_map (subject_entries fs) subjects) k)
  = forallb (fun s => negb (present fs s k)) subjects.
Proof.
  intros Hk. rewrite bucket_of_flat, flat_map_nested.
  induction subjects as [|s l IH]; cbn [flat_map forallb]; [reflexivity|].
  unfold subject_entries at 1.
  rewrite (pick_label (fun t : DataFrame => [t]) (scan_table fs s)
             (present fs s) k scan_types NoDup_scan_types Hk).
  destruct (present fs s k); cbn [app negb andb is_nil]; [reflexivity | exact IH].
Qed.

Lemma driver_result_outcome self fs : driver_result self fs = driver_outcome self fs.
Proof.
  unfold driver_outcome.
  destruct (os_listdir fs (root_directory self)) as [names|e] eqn:Hls;
    [|unfold driver_result; now rewrite Hls].
  cbv zeta.
  destruct (num_workers self <? 1)%Z eqn:Hnw;
    [unfold driver_result; rewrite Hls; cbn [bind_r]; now rewrite Hnw|].
  rewrite (driver_result_tables self fs names Hls Hnw). unfold driver_tables.
  rewrite no_rows_somewhere.
  destruct (empty_table_somewhere fs (subject_paths fs (root_directory self) names));
    [reflexivity|].
  rewrite (existsb_ext_in _
             (fun k => forallb (fun s => negb (present fs s k))
                               (subject_paths fs (root_directory self) names)))
    by (intros k Hk; now apply bucket_is_nil).
  fold (scan_type_missing fs (subject_paths fs (root_directory self) names)).
  destruct (scan_type_missing fs (subject_paths fs (root_directory self) names));
    [reflexivity|].
  f_equal. apply map_ext_in. intros k Hk. now rewrite result_rows_expected.
Qed.

(** X4: what [process_all_subjects_parallel] returns or raises.  It raises
    the error of [os.listdir] on the root; else [ValueError] when
    [num_workers < 1]; else [IndexError] when some subject has a scan-type
    entry that yields no row; else [ValueError] (nothing to concatenate)
    when some scan type has no entry under any subject; otherwise it
    returns, for the four scan types in their fixed order, the rows of the
    succeeding files, subject by subject in listing order. *)
Theorem driver_run_in_closed_form self fs :
  fst (process_all_subjects_parallel self fs) = driver_outcome self fs.
Proof.
  rewrite process_all_subjects_parallel_result. apply driver_result_outcome.
Qed.

Lemma union_row_filename fs p :
  all_succeed fs p = true ->
  dict_get "DCMFileName" (union_row fs p) = Some (PyStr (os_path_basename p)).
Proof.
  unfold all_succeed, union_row.
  rewrite outcome_metadata, outcome_statistics, outcome_glcm.
  unfold header_record, pixel_record.
  destruct (dcmread_header fs p); destruct (dcmread_pixel_array fs p);
    simpl; try discriminate. reflexivity.
Qed.

Lemma length_expected_rows fs subjects k :
  List.length (expected_rows fs subjects k)
  = list_sum (map (fun s => List.length
                              (filter (fun p => qualifies p && all_succeed fs p)
                                      (walked_files fs (os_path_join s k))))
                  subjects).
Proof.
  unfold expected_rows. induction subjects as [|s l IH]; simpl; [reflexivity|].
  now rewrite length_app, length_map, IH.
Qed.

(** X5: when [process_all_subjects_parallel] returns, its keys are the four
    scan types in order; the table of scan type [k] has the feature columns
    followed by [ScanType], as many rows as there are succeeding [.dcm]
    files below the [k] entries of the subjects, and each row is labelled
    [k] and bears the base name of such a file. *)
Theorem result_rows_provenance self fs names rs :
  os_listdir fs (root_directory self) = Ok names ->
  fst (process_all_subjects_parallel self fs) = Ok rs ->
  let subjects := subject_paths fs (root_directory self) names in
  map fst rs = ["FLAIR"; "T1w"; "T1wCE"; "T2w"] /\
  forall k df, In (k, df) rs ->
    columns df = final_columns /\
    List.length (rows df)
    = list_sum (map (fun s => List.length
                                (filter (fun p => qualifies p && all_succeed fs p)
                                        (walked_files fs (os_path_join s k))))
                    subjects) /\
    forall r, In r (rows df) ->
      dict_keys r = final_columns /\
      dict_get "ScanType" r = Some (PyStr k) /\
      exists s p,
        In s subjects /\ In p (walked_files fs (os_path_join s k)) /\
        qualifies p = true /\ all_succeed fs p = true /\
        dict_get "DCMFileName" r = Some (PyStr (os_path_basename p)).
Proof.
  intros Hls Hrun subjects.
  rewrite process_all_subjects_parallel_result, driver_result_outcome in Hrun.
  unfold driver_outcome in Hrun. rewrite Hls in Hrun. cbv zeta in Hrun.
  fold subjects in Hrun.
  destruct (num_workers self <? 1)%Z; [discriminate Hrun|].
  destruct (empty_table_somewhere fs subjects); [discriminate Hrun|].
  destruct (scan_type_missing fs subjects); [discriminate Hrun|].
  assert (Hrs : rs = map (fun k => (k, mkDF final_columns (expected_rows fs subjects k)))
                         scan_types) by congruence.
  clear Hrun. subst rs. split; [now rewrite map_map|].
  intros k df Hin. apply in_map_iff in Hin. destruct Hin as [k' [E Hk]].
  injection E as -> <-. cbn [columns rows].
  split; [reflexivity|]. split; [apply length_expected_rows|].
  intros r Hr. unfold expected_rows in Hr. apply in_flat_map in Hr.
  destruct Hr as [s [Hs Hr]]. apply in_map_iff in Hr.
  destruct Hr as [p [<- Hp]]. apply filter_In in Hp. destruct Hp as [Hp Hgood].
  apply andb_true_iff in Hgood. destruct Hgood as [Hq Hok].
  unfold labelled_row. split; [|split].
  - rewrite dict_keys_set_fresh; rewrite (union_row_keys fs p Hok);
      [reflexivity | apply not_in_feature_columns].
  - apply dict_get_set_same.
  - exists s, p. repeat split; try assumption.
    rewrite dict_get_set_other by discriminate. now apply union_row_filename.
Qed.

Lemma result_rows_provenance_witness :
  exists rs,
    fst (process_all_subjects_parallel ivygap two_subjects) = Ok rs /\
    map fst rs = ["FLAIR"; "T1w"; "T1wCE"; "T2w"] /\
    forall k df, In (k, df) rs -> List.length (rows df) = 2%nat.
Proof.
  assert (H : exists rs,
             fst (process_all_subjects_parallel ivygap two_subjects) = Ok rs)
    by (rewrite process_all_subjects_parallel_result; eexists; reflexivity).
  destruct H as [rs H]. exists rs. split; [exact H|].
  destruct (result_rows_provenance ivygap two_subjects ["00001"; "00002"] rs eq_refl H)
    as [Hkeys Hrows].
  split; [exact Hkeys|].
  intros k df Hin. destruct (Hrows k df Hin) as [_ [Hlen _]]. rewrite Hlen.
  assert (Hk : In k (map fst rs)) by (apply in_map_iff; exists (k, df); auto).
  rewrite Hkeys in Hk. simpl in Hk.
  destruct Hk as [<-|[<-|[<-|[<-|[]]]]]; reflexivity.
Defined.

(** ** Bounds on the statistics *)

Lemma read_is_frame fs p img :
  dcmread_pixel_array fs p = Ok img -> is_frame img = true.
Proof.
  unfold dcmread_pixel_array.
  destruct (open_file fs p) as [f|e]; [|discriminate].
  destruct (pixels f) as [img'|e]; [|discriminate].
  destruct (is_frame img') eqn:E; [|discriminate].
  intros H. injection H as <-. exact E.
Qed.

Lemma frame_has_pixels img : is_frame img = true -> (0 < List.length (List.concat img))%nat.
Proof.
  destruct img as [|r rs]; [discriminate|]. cbn [is_frame List.concat].
  intros H. apply andb_true_iff in H. destruct H as [H _].
  apply Nat.leb_le in H. rewrite length_app. lia.
Qed.

Lemma length_concat_map_map {A B} (f : A -> B) (l : list (list A)) :
  List.length (List.concat (map (map f) l)) = List.length (List.concat l).
Proof.
  induction l as [|r l IH]; simpl; [reflexivity|].
  now rewrite !length_app, length_map, IH.
Qed.

Lemma rescaled_buffer_length img :
  List.length (List.concat (rescaled_buffer img)) = List.length (List.concat img).
Proof.
  unfold rescaled_buffer, astype_uint8_of_float, cv2_normalize_minmax, astype_float32.
  now rewrite !length_concat_map_map.
Qed.

Lemma np_sum_le {A} (f g : A -> R) l :
  (forall a, In a l -> (f a <= g a)%R) -> (np_sum (map f l) <= np_sum (map g l))%R.
Proof.
  induction l as [|a l IH]; intros H; simpl; [lra|].
  pose proof (H a (or_introl eq_refl)).
  assert (np_sum (map f l) <= np_sum (map g l))%R
    by (apply IH; intros; apply H; now right).
  lra.
Qed.

Lemma np_sum_const {A} (c : R) (l : list A) :
  np_sum (map (fun _ => c) l) = (c * INR (List.length l))%R.
Proof.
  induction l as [|a l IH]; [simpl; lra|].
  cbn [map np_sum fold_right List.length]. fold (np_sum (map (fun _ : A => c) l)).
  rewrite IH, S_INR. lra.
Qed.

Lemma np_sum_scale {A} (c : R) (f : A -> R) l :
  np_sum (map (fun a => f a * c)%R l) = (np_sum (map f l) * c)%R.
Proof.
  induction l as [|a l IH]; simpl; [lra|]. rewrite IH. lra.
Qed.

Lemma mean_within_range (l : list Z) :
  (0 < List.length l)%nat -> (forall x, In x l -> (0 <= x <= 255)%Z) ->
  (0 <= np_sum (map IZR l) / INR (List.length l) <= 255)%R.
Proof.
  intros Hn Hr.
  assert (Hpos : (0 < INR (List.length l))%R) by (apply lt_0_INR; exact Hn).
  assert (Hlo : (np_sum (map (fun _ : Z => 0%R) l) <= np_sum (map IZR l))%R).
  { apply np_sum_le. intros x Hx. apply IZR_le. apply Hr in Hx. lia. }
  assert (Hhi : (np_sum (map IZR l) <= np_sum (map (fun _ : Z => 255%R) l))%R).
  { apply np_sum_le. intros x Hx. apply IZR_le. apply Hr in Hx. lia. }
  rewrite np_sum_const in Hlo, Hhi. split.
  - apply Rmult_le_reg_r with (INR (List.length l)); [exact Hpos|].
    unfold Rdiv. rewrite Rmult_assoc, Rinv_l by lra. lra.
  - apply Rmult_le_reg_r with (INR (List.length l)); [exact Hpos|].
    unfold Rdiv. rewrite Rmult_assoc, Rinv_l by lra. lra.
Qed.

Lemma log2_gain_pos : (0 < np_log2 (1 + 1e-7))%R.
Proof.
  unfold np_log2.
  assert (H2 : (0 < ln 2)%R) by (rewrite <- ln_1; apply ln_increasing; lra).
  assert (H1 : (0 < ln (1 + 1e-7))%R) by (rewrite <- ln_1; apply ln_increasing; lra).
  apply Rdiv_lt_0_compat; assumption.
Qed.

Lemma entropy_term_lower (c : nat) :
  (INR c * np_log2 (1 + 1e-7) <= INR c * np_log2 (INR c + 1e-7))%R.
Proof.
  destruct c as [|c]; [simpl; lra|].
  assert (Hc : (1 <= INR (S c))%R) by (rewrite S_INR; pose proof (pos_INR c); lra).
  apply Rmult_le_compat_l; [lra|].
  unfold np_log2. apply Rmult_le_compat_r.
  - apply Rlt_le, Rinv_0_lt_compat. rewrite <- ln_1. apply ln_increasing; lra.
  - destruct (Rle_lt_or_eq_dec _ _ Hc) as [Hlt|Heq].
    + apply Rlt_le, ln_increasing; lra.
    + rewrite <- Heq. lra.
Qed.

Lemma entropy_negative (hist : list nat) :
  (0 < list_sum hist)%nat -> (entropy_of_hist (map INR hist) < 0)%R.
Proof.
  intros Hn. unfold entropy_of_hist. rewrite map_map.
  assert (H : (np_sum (map (fun c => INR c * np_log2 (1 + 1e-7))%R hist)
               <= np_sum (map (fun c => INR c * np_log2 (INR c + 1e-7))%R hist))%R)
    by (apply np_sum_le; intros c _; apply entropy_term_lower).
  rewrite np_sum_scale, np_sum_INR, map_id in H.
  assert (Hpos : (0 < INR (list_sum hist))%R) by (apply lt_0_INR; exact Hn).
  pose proof log2_gain_pos as Hg.
  assert (0 < INR (list_sum hist) * np_log2 (1 + 1e-7))%R
    by (apply Rmult_lt_0_compat; assumption).
  lra.
Qed.

(** X6: whenever the pixel data can be read, [extract_image_statistics]
    returns its three fields with [0 <= MeanIntensity <= 255],
    [StdIntensity >= 0] and [Entropy < 0] (the value is minus a sum of
    [count * log2(count + 1e-7)] over raw counts, and some count is at
    least 1). *)
Theorem statistics_ranges fs dicom_file img :
  dcmread_pixel_array fs dicom_file = Ok img ->
  exists mean std entropy,
    extract_image_statistics fs dicom_file
    = (Ok (Some [ ("MeanIntensity", PyFloat mean);
                  ("StdIntensity", PyFloat std);
                  ("Entropy", PyFloat entropy) ]), []) /\
    (0 <= mean <= 255)%R /\ (0 <= std)%R /\ (entropy < 0)%R.
Proof.
  intros Hread. do 3 eexists.
  split; [exact (extract_image_statistics_ok _ _ img Hread)|].
  pose proof (frame_has_pixels img (read_is_frame _ _ _ Hread)) as Hn.
  rewrite <- rescaled_buffer_length in Hn.
  split; [|split].
  - unfold np_mean. apply mean_within_range; [exact Hn|].
    intros x Hx. apply (rescaled_buffer_range img) in Hx. lia.
  - unfold np_std. apply sqrt_pos.
  - apply entropy_negative. rewrite cv2_calcHist_count_occ.
    rewrite (count_occ_total _ 256); [exact Hn|].
    intros v Hv. change (Z.of_nat 256) with 256%Z.
    exact (rescaled_buffer_range img v Hv).
Qed.

Lemma statistics_ranges_witness :
  exists mean std entropy,
    extract_image_statistics ramp_slice_dir ["Image-1.dcm"]
    = (Ok (Some [ ("MeanIntensity", PyFloat mean);
                  ("StdIntensity", PyFloat std);
                  ("Entropy", PyFloat entropy) ]), []) /\
    (0 <= mean <= 255)%R /\ (0 <= std)%R /\ (entropy < 0)%R.
Proof.
  exact (statistics_ranges ramp_slice_dir ["Image-1.dcm"] ramp_image eq_refl).
Defined.

(** ** A constant image *)

Lemma all_zero_concat (img : image) x :
  In x (List.concat (map (map (fun _ => 0%Z)) img)) -> x = 0%Z.
Proof.
  intros H. apply in_concat in H. destruct H as [row [Hrow Hx]].
  apply in_map_iff in Hrow. destruct Hrow as [r [<- _]].
  apply in_map_iff in Hx. now destruct Hx as [y [<- _]].
Qed.

(** X7: for an image whose pixels all have one value, the rescaled buffer
    is all zero whatever that value is: [MeanIntensity] and [StdIntensity]
    are 0 and [Entropy] is [-(n * log2(n + 1e-7))] for [n] pixels. *)
Theorem constant_image_statistics fs dicom_file img v :
  dcmread_pixel_array fs dicom_file = Ok img ->
  (forall x, In x (List.concat img) -> x = v) ->
  let n := INR (List.length (List.concat img)) in
  extract_image_statistics fs dicom_file
  = (Ok (Some [ ("MeanIntensity", PyFloat 0);
                ("StdIntensity", PyFloat 0);
                ("Entropy", PyFloat (- (n * (ln (n + 1e-7) / ln 2)))) ]), []).
Proof.
  intros Hread Hconst n.
  rewrite (extract_image_statistics_ok _ _ img Hread). unfold stats_record.
  rewrite (rescaled_buffer_constant img v Hconst).
  set (zeros := map (map (fun _ : Z => 0%Z)) img).
  assert (Hsum : np_sum (map IZR (List.concat zeros)) = 0%R).
  { apply np_sum_zero. intros x Hx. now rewrite (all_zero_concat img x Hx). }
  assert (Hmean : np_mean zeros = 0%R).
  { unfold np_mean. rewrite Hsum. unfold Rdiv. ring. }
  assert (Hstd : np_std zeros = 0%R).
  { unfold np_std. rewrite Hmean.
    rewrite (np_sum_zero _ (List.concat zeros)).
    - unfold Rdiv. rewrite Rmult_0_l. apply sqrt_0.
    - intros x Hx. rewrite (all_zero_concat img x Hx). ring. }
  assert (Hlen : List.length (List.concat zeros) = List.length (List.concat img))
    by apply length_concat_map_map.
  assert (Hent : entropy_of_hist (map INR (cv2_calcHist zeros 256))
                 = (- (n * (ln (n + 1e-7) / ln 2)))%R).
  { unfold entropy_of_hist. rewrite cv2_calcHist_count_occ, !map_map. f_equal.
    rewrite (np_sum_single _ 0%nat); [|lia|].
    - rewrite (count_occ_constant _ 0%Z) by (intros x Hx; now apply (all_zero_concat img)).
      simpl. rewrite Hlen. reflexivity.
    - intros b Hb.
      rewrite (count_occ_constant _ 0%Z) by (intros x Hx; now apply (all_zero_concat img)).
      destruct (Z.eq_dec 0 (Z.of_nat b)) as [E|E]; [lia|]. simpl. lra. }
  now rewrite Hmean, Hstd, Hent.
Qed.

Lemma constant_image_statistics_witness :
  extract_image_statistics flat_slice_dir ["Image-1.dcm"]
  = (Ok (Some [ ("MeanIntensity", PyFloat 0);
                ("StdIntensity", PyFloat 0);
                ("Entropy", PyFloat (- (INR 4 * (ln (INR 4 + 1e-7) / ln 2)))) ]), []).
Proof.
  apply (constant_image_statistics flat_slice_dir ["Image-1.dcm"] flat_image 5%Z eq_refl).
  simpl. intros x H. repeat (destruct H as [<-|H]; [reflexivity|]). contradiction.
Defined.

(** ** Ranges of the texture features *)



Lemma sum_levels_zero levels (f : Z -> Z -> R) :
  (forall i j, f i j = 0%R) -> sum_levels levels f = 0%R.
Proof.
  intros H. unfold sum_levels. apply np_sum_zero. intros i _.
  apply np_sum_zero. intros j _. apply H.
Qed.




Lemma sum_levels_scale levels (c : R) (f : Z -> Z -> R) :
  sum_levels levels (fun i j => c * f i j)%R = (c * sum_levels levels f)%R.
Proof.
  unfold sum_levels.
  rewrite (np_sum_ext _ (fun i => np_sum (map (f i) (level_range levels)) * c)%R).
  - rewrite np_sum_scale. lra.
  - intros i _.
    rewrite (np_sum_ext _ (fun j => f i j * c)%R) by (intros; lra).
    apply np_sum_scale.
Qed.











(** ** Degenerate frames *)

Lemma correlation_degenerate levels (P : Z -> Z -> R) :
  sum_levels levels
    (fun i j => P i j * sq (IZR i - sum_levels levels (fun i j => IZR i * P i j)))%R = 0%R ->
  prop_correlation levels P = 1%R.
Proof.
  intros H.
  set (di := fun i : Z => (IZR i - sum_levels levels (fun i j => IZR i * P i j))%R).
  set (dj := fun j : Z => (IZR j - sum_levels levels (fun i j => IZR j * P i j))%R).
  set (A := sum_levels levels (fun i j => P i j * sq (di i))%R).
  set (B := sum_levels levels (fun i j => P i j * sq (dj j))%R).
  set (C := sum_levels levels (fun i j => P i j * (di i * dj j))%R).
  change (prop_correlation levels P)
    with (if Rlt_dec (sqrt A) 1e-15 then 1
          else if Rlt_dec (sqrt B) 1e-15 then 1 else C / (sqrt A * sqrt B))%R.
  assert (EA : A = 0%R) by exact H.
  rewrite EA, sqrt_0. destruct (Rlt_dec 0 1e-15); [reflexivity | lra].
Qed.

Lemma no_pairs_in_narrow_frame (img : image) :
  Forall (fun row => (List.length row <= 1)%nat) img ->
  horizontal_pairs (astype_uint8 img) = [].
Proof.
  unfold horizontal_pairs, astype_uint8.
  induction 1 as [|row img Hrow _ IH]; [reflexivity|].
  cbn [map flat_map]. rewrite IH.
  destruct row as [|a [|b row]]; [reflexivity | reflexivity | simpl in Hrow; lia].
Qed.

Lemma cooccurrence_no_pairs img i j :
  horizontal_pairs (astype_uint8 img) = [] -> cooccurrence img i j = 0%R.
Proof.
  intros H. unfold cooccurrence. rewrite H. simpl. lra.
Qed.

(** X9: a frame one pixel wide has no horizontally adjacent pair: the
    co-occurrence matrix stays zero, and [extract_glcm_features] returns
    contrast 0, correlation 1, energy 0 and homogeneity 0 without raising. *)
Theorem texture_of_one_pixel_wide_frame fs dicom_file img :
  dcmread_pixel_array fs dicom_file = Ok img ->
  Forall (fun row => (List.length row <= 1)%nat) img ->
  extract_glcm_features fs dicom_file
  = (Ok (Some [ ("GLCM_Contrast", PyFloat 0);
                ("GLCM_Correlation", PyFloat 1);
                ("GLCM_Energy", PyFloat 0);
                ("GLCM_Homogeneity", PyFloat 0) ]), []).
Proof.
  intros Hread Hnarrow.
  rewrite (extract_glcm_features_ok _ _ img Hread). unfold glcm_record.
  set (P := glcm_normalize 256 (texture_glcm img)).
  assert (HP : forall i j, P i j = 0%R).
  { intros i j. unfold P. rewrite texture_glcm_renormalized.
    apply cooccurrence_no_pairs, no_pairs_in_narrow_frame, Hnarrow. }
  assert (Hc : prop_contrast 256 P = 0%R).
  { unfold prop_contrast. apply sum_levels_zero. intros. rewrite HP. ring. }
  assert (Hr : prop_correlation 256 P = 1%R).
  { apply correlation_degenerate. apply sum_levels_zero. intros. rewrite HP. ring. }
  assert (He : prop_energy 256 P = 0%R).
  { unfold prop_energy. rewrite sum_levels_zero; [apply sqrt_0|].
    intros. rewrite HP. unfold sq. ring. }
  assert (Hh : prop_homogeneity 256 P = 0%R).
  { unfold prop_homogeneity. apply sum_levels_zero. intros. rewrite HP. ring. }
  now rewrite Hc, Hr, He, Hh.
Qed.

Lemma texture_of_one_pixel_wide_frame_witness :
  extract_glcm_features column_slice_dir ["Image-1.dcm"]
  = (Ok (Some [ ("GLCM_Contrast", PyFloat 0);
                ("GLCM_Correlation", PyFloat 1);
                ("GLCM_Energy", PyFloat 0);
                ("GLCM_Homogeneity", PyFloat 0) ]), []).
Proof.
  apply (texture_of_one_pixel_wide_frame column_slice_dir ["Image-1.dcm"] column_image eq_refl).
  repeat (apply Forall_cons; [simpl; lia|]). apply Forall_nil.
Defined.

Lemma uniform_pairs (img : image) v p :
  (forall x, In x (List.concat img) -> (x mod 256 = v)%Z) ->
  In p (horizontal_pairs (astype_uint8 img)) -> p = (v, v).
Proof.
  intros Hu Hp. unfold horizontal_pairs, astype_uint8 in Hp.
  apply in_flat_map in Hp. destruct Hp as [row' [Hrow' Hp]].
  apply in_map_iff in Hrow'. destruct Hrow' as [row [<- Hrow]].
  assert (Hall : forall y, In y (map (fun x => (x mod 256)%Z) row) -> y = v).
  { intros y Hy. apply in_map_iff in Hy. destruct Hy as [x [<- Hx]].
    apply Hu. apply in_concat. exists row. split; assumption. }
  destruct p as [a b].
  pose proof (in_combine_l _ _ _ _ Hp) as Ha.
  pose proof (in_combine_r _ _ _ _ Hp) as Hb.
  f_equal; apply Hall; [exact Ha|].
  destruct (map (fun x => (x mod 256)%Z) row); [destruct Hb | now right].
Qed.

Lemma wide_row_has_pair (img : image) row :
  In row img -> (2 <= List.length row)%nat ->
  horizontal_pairs (astype_uint8 img) <> [].
Proof.
  intros Hrow Hlen E.
  destruct row as [|a [|b row]]; try (simpl in Hlen; lia).
  assert (Hin : In ((a mod 256)%Z, (b mod 256)%Z) (horizontal_pairs (astype_uint8 img))).
  { unfold horizontal_pairs, astype_uint8. apply in_flat_map.
    exists (map (fun x => (x mod 256)%Z) (a :: b :: row)). split.
    - apply in_map. exact Hrow.
    - simpl. now left. }
  rewrite E in Hin. destruct Hin.
Qed.

Lemma pair_count_uniform pairs v i j :
  (forall p, In p pairs -> p = (v, v)) ->
  pair_count pairs i j = if ((i =? v) && (j =? v))%Z then List.length pairs else 0%nat.
Proof.
  unfold pair_count. induction pairs as [|p pairs IH]; intros H.
  - simpl. now destruct ((i =? v) && (j =? v))%Z.
  - cbn [filter]. rewrite (H p (or_introl eq_refl)). cbn [fst snd].
    rewrite (Z.eqb_sym v i), (Z.eqb_sym v j).
    specialize (IH (fun q Hq => H q (or_intror Hq))).
    destruct ((i =? v) && (j =? v))%Z; cbn [List.length]; now rewrite IH.
Qed.

(** X10: for a frame at least two pixels wide whose pixels all have the same
    low byte, [extract_glcm_features] returns contrast 0, correlation 1,
    energy 1 and homogeneity 1. *)
Theorem texture_of_uniform_frame fs dicom_file img v :
  dcmread_pixel_array fs dicom_file = Ok img ->
  (forall x, In x (List.concat img) -> (x mod 256 = v)%Z) ->
  (exists row, In row img /\ (2 <= List.length row)%nat) ->
  extract_glcm_features fs dicom_file
  = (Ok (Some [ ("GLCM_Contrast", PyFloat 0);
                ("GLCM_Correlation", PyFloat 1);
                ("GLCM_Energy", PyFloat 1);
                ("GLCM_Homogeneity", PyFloat 1) ]), []).
Proof.
  intros Hread Hu [row [Hrow Hlen]].
  rewrite (extract_glcm_features_ok _ _ img Hread). unfold glcm_record.
  set (P := glcm_normalize 256 (texture_glcm img)).
  pose proof (wide_row_has_pair img row Hrow Hlen) as Hne.
  assert (Hn : (List.length (horizontal_pairs (astype_uint8 img)) =? 0)%nat = false).
  { apply Nat.eqb_neq. intros E. apply Hne. now apply length_zero_iff_nil. }
  assert (HP : forall i j, P i j = if ((i =? v) && (j =? v))%Z then 1%R else 0%R).
  { intros i j. unfold P. rewrite texture_glcm_renormalized. unfold cooccurrence.
    rewrite Hn.
    rewrite !(pair_count_uniform _ v) by (intros p Hp; exact (uniform_pairs img v p Hu Hp)).
    rewrite (andb_comm (j =? v)%Z).
    destruct ((i =? v) && (j =? v))%Z.
    - replace (List.length (horizontal_pairs (astype_uint8 img))
               + List.length (horizontal_pairs (astype_uint8 img)))%nat
        with (2 * List.length (horizontal_pairs (astype_uint8 img)))%nat by lia.
      apply Rdiv_diag. apply not_0_INR. apply Nat.eqb_neq in Hn. lia.
    - simpl. lra. }
  assert (Ht : sum_levels 256 P = 1%R).
  { rewrite (sum_levels_ext 256 P (cooccurrence img))
      by (intros; apply texture_glcm_renormalized).
    rewrite cooccurrence_total, Hn. reflexivity. }
  assert (Hc : prop_contrast 256 P = 0%R).
  { unfold prop_contrast. apply sum_levels_zero. intros i j. rewrite HP.
    destruct (Z.eqb_spec i v) as [->|]; [|simpl; ring].
    destruct (Z.eqb_spec j v) as [->|]; [|simpl; ring].
    rewrite Z.sub_diag. unfold sq. simpl. ring. }
  assert (Hm : sum_levels 256 (fun i j => IZR i * P i j)%R = IZR v).
  { rewrite (sum_levels_ext 256 _ (fun i j => IZR v * P i j)%R).
    - rewrite sum_levels_scale, Ht. ring.
    - intros i j. rewrite HP.
      destruct (Z.eqb_spec i v) as [->|]; [reflexivity | simpl; ring]. }
  assert (Hr : prop_correlation 256 P = 1%R).
  { apply correlation_degenerate. rewrite Hm. apply sum_levels_zero. intros i j.
    rewrite HP. destruct (Z.eqb_spec i v) as [->|]; [|simpl; ring].
    unfold sq. ring. }
  assert (He : prop_energy 256 P = 1%R).
  { unfold prop_energy. rewrite (sum_levels_ext 256 _ P).
    - rewrite Ht. apply sqrt_1.
    - intros i j. unfold sq. rewrite HP.
      destruct ((i =? v) && (j =? v))%Z; ring. }
  assert (Hh : prop_homogeneity 256 P = 1%R).
  { unfold prop_homogeneity. rewrite (sum_levels_ext 256 _ P); [exact Ht|].
    intros i j. rewrite HP.
    destruct (Z.eqb_spec i v) as [->|]; [|simpl; ring].
    destruct (Z.eqb_spec j v) as [->|]; [|simpl; ring].
    rewrite Z.sub_diag. unfold sq. simpl. field. }
  now rewrite Hc, Hr, He, Hh.
Qed.

Lemma texture_of_uniform_frame_witness :
  extract_glcm_features flat_slice_dir ["Image-1.dcm"]
  = (Ok (Some [ ("GLCM_Contrast", PyFloat 0);
                ("GLCM_Correlation", PyFloat 1);
                ("GLCM_Energy", PyFloat 1);
                ("GLCM_Homogeneity", PyFloat 1) ]), []).
Proof.
  apply (texture_of_uniform_frame flat_slice_dir ["Image-1.dcm"] flat_image 5%Z eq_refl).
  - simpl. intros x H. repeat (destruct H as [<-|H]; [reflexivity|]). contradiction.
  - exists [5; 5]%Z. split; [now left | simpl; lia].
Defined.
